(** * PII backend: detection, dependency classification, masking, reconstruction

    A shallow embedding of the pipeline of [pii_dependency_handler.py] (the
    path that runs when no analysis comes with the request), of
    [faker_masking.py], of the responders, the generator table and the
    placeholder loop of [model_wrapper.py], and of the request guard of
    [app.py].

    Modelling conventions.
    - A Python [str] is a list of characters ([str := list ascii]); the model
      covers ASCII text:  [\d] is [0-9], [\w] is [A-Za-z0-9_], [\s] is the
      ASCII white space of [str.isspace], and [str.lower] folds [A-Z].
    - A compiled pattern of [re] is a value of [regex]; the matcher follows the
      backtracking order of [re] (ordered alternation, greedy repetition).
      Every repetition of the source patterns ranges over a character class,
      which is the only repetition the syntax offers.
    - A Python [int] is a [Z], without the limit some interpreters put on the
      number of digits of a conversion.
    - A [dict] that is iterated over is an association list in insertion order.
    - [Faker] is an abstract generator with explicit state.
    - The external text-generation call is an oracle returning an outcome;
      what [print] writes is left out. *)

From Stdlib Require Import Ascii String.
From Stdlib Require Import List Arith Lia Bool ZArith QArith Qminmax.
From Stdlib Require Import Numbers.DecimalString Numbers.DecimalZ Numbers.DecimalPos.
From Stdlib Require Import Sorting.Sorted Sorting.Permutation.
Import ListNotations.
Close Scope Q_scope.
Open Scope nat_scope.
Open Scope list_scope.

Set Implicit Arguments.

(** ** Strings *)

Definition str := list ascii.

(** A string literal of the source. *)
Definition lit (x : string) : str := list_ascii_of_string x.

Definition code (c : ascii) : nat := nat_of_ascii c.

Definition is_digit (c : ascii) : bool := (48 <=? code c) && (code c <=? 57).
Definition is_upper (c : ascii) : bool := (65 <=? code c) && (code c <=? 90).
Definition is_lower (c : ascii) : bool := (97 <=? code c) && (code c <=? 122).
Definition is_alpha (c : ascii) : bool := is_upper c || is_lower c.
Definition is_word (c : ascii) : bool := is_alpha c || is_digit c || (code c =? 95).
Definition is_space (c : ascii) : bool :=
  ((9 <=? code c) && (code c <=? 13)) || ((28 <=? code c) && (code c <=? 32)).

(** [c.lower()] *)
Definition lower_char (c : ascii) : ascii :=
  if is_upper c then ascii_of_nat (code c + 32) else c.

(** [s.lower()] *)
Definition lower (t : str) : str := map lower_char t.

(** [c.upper()] *)
Definition upper_char (c : ascii) : ascii :=
  if is_lower c then ascii_of_nat (code c - 32) else c.

(** [s.upper()] *)
Definition upper (t : str) : str := map upper_char t.

Fixpoint str_eqb (a b : str) : bool :=
  match a, b with
  | [], [] => true
  | x :: a', y :: b' => Ascii.eqb x y && str_eqb a' b'
  | _, _ => false
  end.

(** [t.startswith(p)] *)
Fixpoint prefixb (p t : str) : bool :=
  match p, t with
  | [], _ => true
  | x :: p', y :: t' => Ascii.eqb x y && prefixb p' t'
  | _ :: _, [] => false
  end.

(** [p in t] *)
Fixpoint infixb (p t : str) : bool :=
  prefixb p t || match t with [] => false | _ :: t' => infixb p t' end.

(** [t.find(p)], with [None] for [-1] *)
Fixpoint str_find (p t : str) : option nat :=
  if prefixb p t then Some 0
  else match t with
       | [] => None
       | _ :: t' => option_map S (str_find p t')
       end.

(** [t[a:b]] for non-negative [a] and [b] *)
Definition slice (a b : nat) (t : str) : str := firstn (b - a) (skipn a t).

(** [any(k in t for k in ks)] *)
Definition any_in (ks : list str) (t : str) : bool :=
  existsb (fun k => infixb k t) ks.

(** [str(n)] for a non-negative [int] *)
Definition str_of_int (n : Z) : str :=
  lit (NilZero.string_of_int (Z.to_int n)).

Definition digit_val (c : ascii) : Z := Z.of_nat (code c - 48).

(** [int(t)] for a string of ASCII digits *)
Definition int_of_digits (t : str) : Z :=
  fold_left (fun acc c => (10 * acc + digit_val c)%Z) t 0%Z.

(** ** Regular expressions of [re] *)

Inductive regex : Type :=
| Eps
| Cls (p : ascii -> bool)
| Cat (r1 r2 : regex)
| Alt (r1 r2 : regex)
| Rep (p : ascii -> bool) (lo : nat) (hi : option nat)
| WordB.

Fixpoint cats (rs : list regex) : regex :=
  match rs with
  | [] => Eps
  | [r] => r
  | r :: rs' => Cat r (cats rs')
  end.

Fixpoint alts (rs : list regex) : regex :=
  match rs with
  | [] => Eps
  | [r] => r
  | r :: rs' => Alt r (alts rs')
  end.

Definition Chr (c : ascii) : regex := Cls (Ascii.eqb c).
(** a literal character under [re.IGNORECASE] *)
Definition ChrI (c : ascii) : regex :=
  Cls (fun x => Ascii.eqb (lower_char x) (lower_char c)).
Definition Lit (t : str) : regex := cats (map Chr t).
Definition LitI (t : str) : regex := cats (map ChrI t).

Definition one_of (t : str) (c : ascii) : bool := existsb (Ascii.eqb c) t.

Section Matcher.
Variable t : str.

Definition word_at (i : nat) : bool :=
  match nth_error t i with Some c => is_word c | None => false end.

(** [\b] at position [i] *)
Definition word_boundary (i : nat) : bool :=
  xorb (match i with 0 => false | S j => word_at j end) (word_at i).

(** length of the longest run of class [p] at the head of [u] *)
Fixpoint run (p : ascii -> bool) (u : str) : nat :=
  match u with
  | c :: u' => if p c then S (run p u') else 0
  | [] => 0
  end.

Definition rep_max (p : ascii -> bool) (hi : option nat) (i : nat) : nat :=
  let n := run p (skipn i t) in
  match hi with Some h => Nat.min n h | None => n end.

(** greedy: the longest repetition first, then shorter ones down to [lo] *)
Fixpoint try_down (n lo : nat) (k : nat -> option nat) : option nat :=
  match n with
  | 0 => if lo =? 0 then k 0 else None
  | S n' =>
      if lo <=? S n' then
        match k (S n') with
        | Some e => Some e
        | None => try_down n' lo k
        end
      else None
  end.

(** [rmatch r i k]: match [r] at position [i], then continue with [k] at the
    position reached; the first success in backtracking order. *)
Fixpoint rmatch (r : regex) (i : nat) (k : nat -> option nat) : option nat :=
  match r with
  | Eps => k i
  | Cls p =>
      match nth_error t i with
      | Some c => if p c then k (S i) else None
      | None => None
      end
  | Cat r1 r2 => rmatch r1 i (fun j => rmatch r2 j k)
  | Alt r1 r2 =>
      match rmatch r1 i k with
      | Some e => Some e
      | None => rmatch r2 i k
      end
  | Rep p lo hi => try_down (rep_max p hi i) lo (fun m => k (i + m))
  | WordB => if word_boundary i then k i else None
  end.

(** [pattern.match(t, i)]: the end of the match that starts at [i] *)
Definition match_at (r : regex) (i : nat) : option nat := rmatch r i Some.

(** the first position from [pos] on at which [r] matches *)
Fixpoint search_from (r : regex) (fuel pos : nat) : option (nat * nat) :=
  match match_at r pos with
  | Some e => Some (pos, e)
  | None =>
      match fuel with
      | 0 => None
      | S f => search_from r f (S pos)
      end
  end.

(** [pattern.search(t, pos)]: positions [pos .. len(t)] are tried in turn *)
Definition search (r : regex) (pos : nat) : option (nat * nat) :=
  search_from r (length t - pos) pos.

(** [pattern.finditer(t)] as the list of spans [(start, end)].  After a
    match the scan resumes at its end (one further after an empty match). *)
Fixpoint finditer_from (r : regex) (fuel pos : nat) : list (nat * nat) :=
  match fuel with
  | 0 => []
  | S f =>
      if length t <? pos then []
      else
        match search r pos with
        | None => []
        | Some (s0, e0) =>
            (s0, e0) :: finditer_from r f (if e0 =? s0 then S e0 else e0)
        end
  end.

Definition finditer (r : regex) : list (nat * nat) :=
  finditer_from r (S (length t)) 0.

(** [re.findall(r, t)] for a pattern without groups *)
Definition findall (r : regex) : list str :=
  map (fun se => slice (fst se) (snd se) t) (finditer r).
End Matcher.

(** ** [PIIDependencyHandler] *)

Module Handler.

Definition sep_dot_space (c : ascii) : bool := one_of (lit "-.") c || is_space c.
Definition sep_space (c : ascii) : bool := one_of (lit "-") c || is_space c.
Definition email_local (c : ascii) : bool :=
  is_alpha c || is_digit c || one_of (lit "._%+-") c.
Definition email_domain (c : ascii) : bool :=
  is_alpha c || is_digit c || one_of (lit ".-") c.

(** [\b\d{10}\b|\b\d{3}[-.\s]?\d{3}[-.\s]?\d{4}\b] *)
Definition phone_re : regex :=
  Alt (cats [WordB; Rep is_digit 10 (Some 10); WordB])
      (cats [WordB; Rep is_digit 3 (Some 3); Rep sep_dot_space 0 (Some 1);
             Rep is_digit 3 (Some 3); Rep sep_dot_space 0 (Some 1);
             Rep is_digit 4 (Some 4); WordB]).

(** [\b[a-zA-Z0-9._%+-]+@[a-zA-Z0-9.-]+\.[a-zA-Z]{2,}\b] *)
Definition email_re : regex :=
  cats [WordB; Rep email_local 1 None; Chr "@"; Rep email_domain 1 None;
        Chr "."; Rep is_alpha 2 None; WordB].

(** [\b(?:my name is|i am|i\'m|call me)\s+([A-Z][a-z]+)\b] with
    [re.IGNORECASE]: literals and both letter classes match either case *)
Definition name_re : regex :=
  cats [WordB;
        alts [LitI (lit "my name is"); LitI (lit "i am"); LitI (lit "i'm");
              LitI (lit "call me")];
        Rep is_space 1 None; Cls is_alpha; Rep is_alpha 1 None; WordB].

(** [\b\d{3}-\d{2}-\d{4}\b] *)
Definition ssn_re : regex :=
  cats [WordB; Rep is_digit 3 (Some 3); Chr "-"; Rep is_digit 2 (Some 2);
        Chr "-"; Rep is_digit 4 (Some 4); WordB].

(** [\b\d{4}[-\s]?\d{4}[-\s]?\d{4}[-\s]?\d{4}\b] *)
Definition credit_card_re : regex :=
  cats [WordB; Rep is_digit 4 (Some 4); Rep sep_space 0 (Some 1);
        Rep is_digit 4 (Some 4); Rep sep_space 0 (Some 1);
        Rep is_digit 4 (Some 4); Rep sep_space 0 (Some 1);
        Rep is_digit 4 (Some 4); WordB].

(** [self.pii_patterns], in the insertion order of the dict *)
Definition pii_patterns : list (str * regex) :=
  [ (lit "phone", phone_re); (lit "email", email_re); (lit "name", name_re);
    (lit "ssn", ssn_re); (lit "credit_card", credit_card_re) ].

Definition computation_keywords : list str :=
  map lit
    [ "add"; "addition"; "sum"; "calculate"; "multiply"; "divide"; "subtract";
      "total"; "count"; "average"; "mean"; "percentage"; "compute"; "math";
      "arithmetic"; "operation"; "result"; "answer"; "solve" ]%string.

Definition math_indicators : list str :=
  map lit [ "add"; "sum"; "calculate"; "total"; "addition"; "+"; "plus" ]%string.

Record Entity : Type := mkEntity {
  e_value : str;
  e_type : str;
  e_start : nat;
  e_end : nat;
  e_is_dependent : bool
}.

(** [_is_dependent_pii] *)
Definition _is_dependent_pii (text pii_value pii_type : str) : bool :=
  let lower_text := lower text in
  let has_computation := any_in computation_keywords lower_text in
  if negb has_computation then false
  else
    if str_eqb pii_type (lit "phone") then
      match str_find pii_value text with
      | Some phone_index =>
          let context_start := phone_index - 50 in
          let context_end :=
            Nat.min (length text) (phone_index + length pii_value + 50) in
          let context := lower (slice context_start context_end text) in
          any_in math_indicators context
      | None => false
      end
    else
      if str_eqb pii_type (lit "name") then false
      else false.

(** matches of one pattern, as entities *)
Definition entities_of (text : str) (tr : str * regex) : list Entity :=
  map (fun se =>
         let value := slice (fst se) (snd se) text in
         mkEntity value (fst tr) (fst se) (snd se)
                  (_is_dependent_pii text value (fst tr)))
      (finditer text (snd tr)).

(** [_detect_pii_entities] *)
Definition _detect_pii_entities (text : str) : list Entity :=
  flat_map (entities_of text) pii_patterns.

(** [sorted(es, key=lambda x: x['start'], reverse=True)]: a stable sort,
    entities of equal start keep their order *)
Fixpoint insert_desc (x : Entity) (l : list Entity) : list Entity :=
  match l with
  | [] => [x]
  | y :: l' =>
      if e_start y <=? e_start x then x :: y :: l'
      else y :: insert_desc x l'
  end.

Fixpoint sorted_desc (es : list Entity) : list Entity :=
  match es with
  | [] => []
  | x :: es' => insert_desc x (sorted_desc es')
  end.

(** [_get_mask_for_type] *)
Definition _get_mask_for_type (pii_type : str) : str :=
  if str_eqb pii_type (lit "name") then lit "[NAME]"
  else if str_eqb pii_type (lit "phone") then lit "[PHONE]"
  else if str_eqb pii_type (lit "email") then lit "[EMAIL]"
  else if str_eqb pii_type (lit "ssn") then lit "[SSN]"
  else if str_eqb pii_type (lit "credit_card") then lit "[CREDIT_CARD]"
  else lit "[PII]".

(** one turn of the loop of [_mask_non_dependent_pii] *)
Definition mask_step (masked_text : str) (entity : Entity) : str :=
  let mask := _get_mask_for_type (e_type entity) in
  firstn (e_start entity) masked_text ++ mask ++ skipn (e_end entity) masked_text.

(** [_mask_non_dependent_pii] *)
Definition _mask_non_dependent_pii (text : str)
    (non_dependent_entities : list Entity) : str :=
  fold_left mask_step (sorted_desc non_dependent_entities) text.

(** *** The external text-generation call *)

(** The JSON body of a reply: not JSON at all, or an object whose
    ['candidates'] member, when present, lists for each candidate the string
    at [['content']['parts'][0]['text']] when that path exists. *)
Inductive payload : Type :=
| NotJson
| JsonData (candidates : option (list (option str))).

(** [requests.post(...)]: it raises (timeout, network error) or returns a
    reply with a status code. *)
Inductive post_result : Type :=
| Raised
| Response (status_code : nat) (body : payload).

(** [response.json()['candidates'][0]['content']['parts'][0]['text']], with
    [None] when the expression raises *)
Definition candidate_text (body : payload) : option str :=
  match body with
  | JsonData (Some (Some txt :: _)) => Some txt
  | _ => None
  end.

(** [sep.join(parts)] *)
Fixpoint join (sep : str) (parts : list str) : str :=
  match parts with
  | [] => []
  | [x] => x
  | x :: rest => x ++ sep ++ join sep rest
  end.

(** [sum(...)] over a list of [int] *)
Definition sum_Z (l : list Z) : Z := fold_left Z.add l 0%Z.

(** [\d+] *)
Definition number_re : regex := Rep is_digit 1 None.

Definition math_words : list str := map lit [ "add"; "sum"; "calculate" ]%string.

Definition fallback_message : str :=
  lit "I understand your message. How can I help you further while ensuring your privacy is protected?".

(** [sum(int(digit) for digit in phone if digit.isdigit())] *)
Definition digit_sum (phone : str) : Z :=
  sum_Z (map digit_val (filter is_digit phone)).

Section Responses.
(** the external service, as seen from [requests.post] with the prompt *)
Variable post : str -> post_result.

(** [_generate_standard_response] *)
Definition _generate_standard_response (text : str) : str :=
  let query := lower text in
  let numbers := findall text number_re in
  if any_in math_words query && (2 <=? length numbers) then
    let result := sum_Z (map int_of_digits numbers) in
    lit "The sum of " ++ join (lit " + ") numbers ++ lit " is: "
      ++ str_of_int result
  else
    match post text with
    | Response status_code body =>
        if status_code =? 200 then
          match candidate_text body with
          | Some result => result
          | None => fallback_message
          end
        else fallback_message
    | Raised => fallback_message
    end.

Definition is_phone (e : Entity) : bool := str_eqb (e_type e) (lit "phone").

(** [_generate_mixed_dependency_response] *)
Definition _generate_mixed_dependency_response (original masked : str)
    (dependent_entities : list Entity) : str :=
  let phone_numbers := map e_value (filter is_phone dependent_entities) in
  match phone_numbers with
  | first_phone :: _ =>
      if any_in math_words (lower original) then
        let total := sum_Z (map digit_sum phone_numbers) in
        lit "I've protected your personal information while keeping the phone number for calculation. The sum of all digits in "
          ++ first_phone ++ lit " is: " ++ str_of_int total
      else _generate_standard_response masked
  | [] => _generate_standard_response masked
  end.

(** [_generate_dependent_response] *)
Definition _generate_dependent_response (original masked : str)
    (dependent_entities : list Entity) : str :=
  let phone_entities := filter is_phone dependent_entities in
  match phone_entities with
  | first_phone :: _ =>
      if any_in math_words (lower original) then
        let phone := e_value first_phone in
        lit "I've kept your phone number for the calculation. The sum of all digits in "
          ++ phone ++ lit " is: " ++ str_of_int (digit_sum phone)
      else _generate_standard_response original
  | [] => _generate_standard_response original
  end.

(** [_generate_non_dependent_response] *)
Definition _generate_non_dependent_response (masked : str) : str :=
  _generate_standard_response masked.

Record Result : Type := mkResult {
  original_query : str;
  masked_query : str;
  detected_entities : list Entity;
  dependent_entities : list Entity;
  non_dependent_entities : list Entity;
  context : str;
  privacy_preserved : bool;
  computation_preserved : bool;
  llm_response : str;
  final_response : str;
  privacy_score : Q
}.

Definition nonempty {A : Type} (l : list A) : bool :=
  match l with [] => false | _ => true end.

(** [_process_with_backend_analysis] *)
Definition _process_with_backend_analysis (user_query : str) : Result :=
  let original := user_query in
  let entities := _detect_pii_entities original in
  let dependent_entities := filter e_is_dependent entities in
  let non_dependent_entities :=
    filter (fun e => negb (e_is_dependent e)) entities in
  let masked := _mask_non_dependent_pii original non_dependent_entities in
  let '(context, response) :=
    if nonempty dependent_entities && nonempty non_dependent_entities then
      (lit "mixed_dependency",
       _generate_mixed_dependency_response original masked dependent_entities)
    else if nonempty dependent_entities then
      (lit "dependent_only",
       _generate_dependent_response original masked dependent_entities)
    else if nonempty non_dependent_entities then
      (lit "non_dependent_only", _generate_non_dependent_response masked)
    else
      (lit "no_pii", _generate_standard_response original) in
  let privacy_score :=
    if nonempty entities then
      Qmake (Z.of_nat (length non_dependent_entities))
            (Pos.of_nat (length entities))
    else 1%Q in
  mkResult original masked entities dependent_entities
           non_dependent_entities context
           (0 <? length non_dependent_entities)
           (0 <? length dependent_entities)
           response response privacy_score.

(** [process_query(user_query)], the call without [pii_analysis]: the
    parameter defaults to [None] and the backend analysis runs. *)
Definition process_query (user_query : str) : Result :=
  _process_with_backend_analysis user_query.
End Responses.

End Handler.

(** ** [str.replace] *)

(** whether a replacement is still allowed by [count] ([None]: no limit) *)
Definition can (count : option nat) : bool :=
  match count with Some 0 => false | _ => true end.

Definition dec (count : option nat) : option nat := option_map pred count.

(** non-empty [old]: a left-to-right scan over non-overlapping occurrences;
    [skip] counts the characters of a replaced occurrence still to drop *)
Fixpoint replace_scan (old new : str) (count : option nat) (skip : nat)
    (t : str) : str :=
  match t with
  | [] => []
  | c :: t' =>
      match skip with
      | S k => replace_scan old new count k t'
      | 0 =>
          if can count && prefixb old t
          then new ++ replace_scan old new (dec count) (length old - 1) t'
          else c :: replace_scan old new count 0 t'
      end
  end.

(** empty [old]: [new] goes before every character and at the end *)
Fixpoint replace_empty (new : str) (count : option nat) (t : str) : str :=
  match t with
  | [] => if can count then new else []
  | c :: t' =>
      if can count then new ++ c :: replace_empty new (dec count) t'
      else t
  end.

(** [t.replace(old, new, count)]; [count = None] is [t.replace(old, new)] *)
Definition replace (old new : str) (count : option nat) (t : str) : str :=
  match old with
  | [] => replace_empty new count t
  | _ :: _ => replace_scan old new count 0 t
  end.

(** ** [FakerMasking] *)

(** A dict in insertion order. *)
Definition dict := list (str * str).

(** [d[k] = v]: an existing key keeps its place and takes the new value *)
Fixpoint dict_set (k v : str) (d : dict) : dict :=
  match d with
  | [] => [(k, v)]
  | (k', v') :: d' =>
      if str_eqb k k' then (k, v) :: d' else (k', v') :: dict_set k v d'
  end.

Definition keys (d : dict) : list str := map fst d.

(** The providers of [Faker] that return a string. *)
Inductive provider : Type :=
| Name | Email | Address | Ssn | CreditCardNumber | Date | Company | City
| Country | Zipcode | PhoneNumber | RandomUppercaseLetter.

(** The [Faker] instance: a generator with state; each draw returns a value
    and the state that follows. *)
Record Faker : Type := mkFaker {
  gen : Type;
  random_digit : gen -> Z * gen;
  provide : provider -> gen -> str * gen
}.

(** [self.fake.email()] *)
Definition email (F : Faker) : gen F -> str * gen F := provide F Email.

Module FakerMasking.

(** [\b\d{10}\b] *)
Definition phone_re : regex := cats [WordB; Rep is_digit 10 (Some 10); WordB].

Definition email_re : regex := Handler.email_re.

Section Masking.
Variable F : Faker.

(** [''.join([str(self.fake.random_digit()) for _ in range(n)])] *)
Fixpoint fake_digits (n : nat) (g : gen F) : str * gen F :=
  match n with
  | 0 => ([], g)
  | S n' =>
      let (d, g1) := random_digit F g in
      let (rest, g2) := fake_digits n' g1 in
      (str_of_int d ++ rest, g2)
  end.

Definition fake_phone (g : gen F) : str * gen F := fake_digits 10 g.

(** the local variables of [mask_text], with the generator *)
Record mstate : Type := mkState {
  masked : str;
  replacements : dict;
  detected : list str;
  faker : gen F
}.

(** the body of either loop of [mask_text] for one matched value *)
Definition mask_one (draw : gen F -> str * gen F) (label : str)
    (st : mstate) (group : str) : mstate :=
  let (fake, g') := draw (faker st) in
  mkState (replace group fake (Some 1) (masked st))
          (dict_set fake group (replacements st))
          (detected st ++ [label])
          g'.

Definition mask_init (text : str) (g : gen F) : mstate :=
  mkState text [] [] g.

(** [mask_text]: the phone loop, then the email loop, both over the matches
    in the text as it was given *)
Definition mask_run (text : str) (g : gen F) : mstate :=
  let st1 := fold_left (mask_one fake_phone (lit "phone"))
                       (findall text phone_re) (mask_init text g) in
  fold_left (mask_one (email F) (lit "email")) (findall text email_re) st1.

Definition mask_text (text : str) (g : gen F) : str * dict * list str :=
  let st := mask_run text g in (masked st, replacements st, detected st).

(** the values that [n] successive draws return *)
Fixpoint draws (draw : gen F -> str * gen F) (n : nat) (g : gen F)
    : list str * gen F :=
  match n with
  | 0 => ([], g)
  | S n' =>
      let (fake, g1) := draw g in
      let (rest, g2) := draws draw n' g1 in
      (fake :: rest, g2)
  end.

(** the synthetic values [mask_text] generates, in the order of the draws:
    one per phone match, then one per email match *)
Definition drawn_values (text : str) (g : gen F) : list str :=
  let (phones, g1) := draws fake_phone (length (findall text phone_re)) g in
  let (emails, _) := draws (email F) (length (findall text email_re)) g1 in
  phones ++ emails.
End Masking.

(** [unmask_text] *)
Definition unmask_text (text : str) (replacements : dict) : str :=
  fold_left (fun result fo => replace (fst fo) (snd fo) None result)
            replacements text.

End FakerMasking.

(** ** The fallback responder of [ModelWrapper] *)

Module Wrapper.

Definition fallback_words : list str :=
  map lit [ "sum"; "add"; "calculate"; "digit" ]%string.

Definition greeting_words : list str :=
  map lit [ "my name is"; "i am"; "hello"; "hi" ]%string.

(** [name\s+(\w+)] *)
Definition name_word_re : regex :=
  cats [Lit (lit "name"); Rep is_space 1 None; Rep is_word 1 None].

(** group 1 of a match of [name_word_re] spanning [(s0, e0)]: what follows
    the white space run after ['name'] (white space and word characters are
    disjoint, so the greedy run is never given back) *)
Definition name_group (t : str) (se : nat * nat) : str :=
  let after := fst se + 4 in
  slice (after + run is_space (skipn after t)) (snd se) t.

(** [_generate_fallback_response] *)
Definition _generate_fallback_response (original masked : str) : str :=
  let query_lower := lower original in
  let by_greeting :=
    if any_in greeting_words query_lower then
      lit "Nice to meet you! Your personal information has been protected. How can I help you today?"
    else
      lit "I understand your request. Your privacy has been preserved. How can I assist you further?" in
  let by_name :=
    if infixb (lit "count") query_lower && infixb (lit "letter") query_lower then
      match search original name_word_re 0 with
      | Some se =>
          let name := name_group original se in
          let count := length (filter is_alpha name) in
          lit "The name has " ++ str_of_int (Z.of_nat count) ++ lit " letters."
      | None => by_greeting
      end
    else by_greeting in
  if any_in fallback_words query_lower then
    match findall original Handler.number_re with
    | number :: _ =>
        let digit_sum := Handler.sum_Z (map digit_val number) in
        lit "The sum of digits in " ++ number ++ lit " is: "
          ++ str_of_int digit_sum
    | [] => by_name
    end
  else by_name.

(** [_generate_llm_response] *)
Definition _generate_llm_response (post : str -> Handler.post_result)
    (masked_query original_query : str) : str :=
  match post masked_query with
  | Handler.Response status_code body =>
      if status_code =? 200 then
        match body with
        | Handler.JsonData (Some (first :: _)) =>
            match first with
            | Some txt => txt
            | None => _generate_fallback_response original_query masked_query
            end
        | _ => _generate_fallback_response original_query masked_query
        end
      else _generate_fallback_response original_query masked_query
  | Handler.Raised => _generate_fallback_response original_query masked_query
  end.

(** [''.join([self.fake.random_uppercase_letter() for _ in range(n)])] *)
Fixpoint fake_letters (F : Faker) (n : nat) (g : gen F) : str * gen F :=
  match n with
  | 0 => ([], g)
  | S n' =>
      let (c, g1) := provide F RandomUppercaseLetter g in
      let (rest, g2) := fake_letters F n' g1 in
      (c ++ rest, g2)
  end.

Definition is_one_of (names : list string) (t : str) : bool :=
  existsb (fun n => str_eqb t (lit n)) names.

(** [_generate_fake_value] *)
Definition _generate_fake_value (F : Faker) (entity_type : str) (g : gen F)
    : str * gen F :=
  let entity_type_upper := upper entity_type in
  if is_one_of ["NAME"; "FULL_NAME"; "PERSON"]%string entity_type_upper then
    provide F Name g
  else if is_one_of ["PHONE"; "PHONE_NUMBER"]%string entity_type_upper then
    FakerMasking.fake_digits F 10 g
  else if is_one_of ["EMAIL"; "EMAIL_ADDRESS"]%string entity_type_upper then
    provide F Email g
  else if is_one_of ["ADDRESS"]%string entity_type_upper then
    let (a, g1) := provide F Address g in
    (replace ["010"%char] (lit ", ") None a, g1)
  else if is_one_of ["SSN"]%string entity_type_upper then
    provide F Ssn g
  else if is_one_of ["AADHAAR"]%string entity_type_upper then
    FakerMasking.fake_digits F 12 g
  else if is_one_of ["PAN"]%string entity_type_upper then
    let (letters, g1) := fake_letters F 5 g in
    let (digits, g2) := FakerMasking.fake_digits F 4 g1 in
    let (last, g3) := provide F RandomUppercaseLetter g2 in
    (letters ++ digits ++ last, g3)
  else if is_one_of ["CREDIT_CARD"]%string entity_type_upper then
    provide F CreditCardNumber g
  else if is_one_of ["DATE"; "DOB"]%string entity_type_upper then
    provide F Date g
  else if is_one_of ["COMPANY"]%string entity_type_upper then
    provide F Company g
  else if is_one_of ["CITY"]%string entity_type_upper then
    provide F City g
  else if is_one_of ["COUNTRY"]%string entity_type_upper then
    provide F Country g
  else if is_one_of ["ZIP"; "ZIPCODE"]%string entity_type_upper then
    provide F Zipcode g
  else provide F Name g.

(** An entry of [result['pii_entities']], the list the detection model hands
    to [process_query]: [entity.get('type', '')] and
    [entity.get('entity', '')]. *)
Record PiiEntity : Type := mkPiiEntity {
  p_type : str;
  p_entity : str
}.

(** the local variables of the placeholder loop of [process_query], with the
    generator *)
Record pstate (F : Faker) : Type := mkPstate {
  anonymized_text : str;
  fake_replacements : dict;
  pfaker : gen F
}.

(** The body of the loop of [process_query] that puts a value in place of
    each placeholder; [required_entities] comes from the dependency analysis
    of the detection model. *)
Definition replace_placeholder (F : Faker) (required_entities : list str)
    (st : pstate F) (entity : PiiEntity) : pstate F :=
  let entity_type := upper (p_type entity) in
  let entity_value := p_entity entity in
  let placeholder := lit "[" ++ p_type entity ++ lit "]" in
  let is_required :=
    existsb (str_eqb entity_value) required_entities
    || existsb (str_eqb entity_type) required_entities in
  if infixb placeholder (anonymized_text st) then
    if is_required then
      mkPstate F
        (replace placeholder entity_value (Some 1) (anonymized_text st))
        (fake_replacements st) (pfaker st)
    else
      let (fake_value, g') := _generate_fake_value F entity_type (pfaker st) in
      mkPstate F
        (replace placeholder fake_value (Some 1) (anonymized_text st))
        (dict_set fake_value entity_value (fake_replacements st)) g'
  else st.

(** the loop over [result['pii_entities']], from [result['masked_text']] and
    an empty map *)
Definition replace_placeholders (F : Faker) (masked_text : str)
    (pii_entities : list PiiEntity) (required_entities : list str)
    (g : gen F) : pstate F :=
  fold_left (@replace_placeholder F required_entities) pii_entities
            (mkPstate F masked_text [] g).

(** [_fallback_processing]: the masked query, the map, the response and the
    reconstructed response *)
Definition _fallback_processing (F : Faker) (user_query : str) (g : gen F)
    : str * dict * str * str :=
  let st := FakerMasking.mask_run F user_query g in
  let response :=
    _generate_fallback_response user_query (FakerMasking.masked st) in
  let reconstructed_response :=
    FakerMasking.unmask_text response (FakerMasking.replacements st) in
  (FakerMasking.masked st, FakerMasking.replacements st, response,
   reconstructed_response).

End Wrapper.

(** ** The guard of [handle_messages] in [app.py] *)

Module App.

(** The JSON object of a request whose members are strings; a request with
    a member of another kind (an analysis object of the client) is not of
    this type. *)
Definition body := list (str * str).

Fixpoint get (k : str) (d : body) : option str :=
  match d with
  | [] => None
  | (k', v) :: d' => if str_eqb k k' then Some v else get k d'
  end.


(** a string is true when it is not empty *)
Definition truthy (v : option str) : bool :=
  match v with Some (_ :: _) => true | _ => false end.




End App.

(** ** The session store of [app.py] *)

Module Store.

(** *** Dicts in insertion order, with values of any type *)

Section Dict.
Variable V : Type.

(** [d.get(k)] *)
Fixpoint find (k : str) (d : list (str * V)) : option V :=
  match d with
  | [] => None
  | (k', v) :: d' => if str_eqb k k' then Some v else find k d'
  end.

(** [k in d] *)
Definition mem (k : str) (d : list (str * V)) : bool :=
  match find k d with Some _ => true | None => false end.

(** [d[k] = v]: an existing key keeps its place and takes the new value *)
Fixpoint put (k : str) (v : V) (d : list (str * V)) : list (str * V) :=
  match d with
  | [] => [(k, v)]
  | (k', v') :: d' =>
      if str_eqb k k' then (k, v) :: d' else (k', v') :: put k v d'
  end.

(** [del d[k]] for a key of [d] *)
Fixpoint del (k : str) (d : list (str * V)) : list (str * V) :=
  match d with
  | [] => []
  | (k', v') :: d' => if str_eqb k k' then d' else (k', v') :: del k d'
  end.
End Dict.

(** *** Sessions and messages *)

(** A value of [sessions]. *)
Record Session : Type := mkSession {
  s_id : str;
  title : str;
  created_at : str;
  updated_at : str
}.

(** [_calculate_privacy_score(result)] for the record of the handler, which
    is never empty and has no member ['entities_masked']; the float
    arithmetic of the source is written with rationals. *)
Definition _calculate_privacy_score (result : Handler.Result) : Q :=
  let detected_count := length (Handler.detected_entities result) in
  let masked_count := length (@nil Handler.Entity) in
  if detected_count =? 0 then 100%Q
  else
    let masking_ratio :=
      if 0 <? detected_count then
        (inject_Z (Z.of_nat masked_count)
         / inject_Z (Z.of_nat detected_count))%Q
      else 1%Q in
    let base_score := (100 - inject_Z (Z.of_nat (detected_count * 8)))%Q in
    let privacy_bonus := (masking_ratio * 15)%Q in
    Qmax 20 (Qmin 100 (base_score + privacy_bonus)%Q).

(** An element of a list of [messages]; the member ['processing_time'], a
    difference of two readings of the clock, is left out. *)
Record Message : Type := mkMessage {
  m_id : str;
  user_message : str;
  anonymized_text : str;
  llm_prompt : str;
  llm_response_raw : str;
  llm_response_reconstructed : str;
  bot_response : str;
  reconstructed_text : str;
  privacy_score : Q;
  timestamp : str;
  detected_entities : list Handler.Entity;
  entities_masked : list Handler.Entity;
  entities_preserved : list Handler.Entity;
  context : str;
  privacy_preserved : bool;
  replacements : dict;
  original_pii_map : dict
}.

(** The two module-level dicts. *)
Record store : Type := mkStore {
  sessions : list (str * Session);
  messages : list (str * list Message)
}.

Definition empty : store := mkStore [] [].

(** [messages.get(session_id, [])] *)
Definition messages_of (session_id : str) (st : store) : list Message :=
  match find session_id (messages st) with Some l => l | None => [] end.

(** What an endpoint answers. *)
Inductive response : Type :=
| Created (session : Session)
| SessionList (l : list Session)
| Deleted
| NotFound
| MessageList (l : list Message)
| Posted (message : Message)
| BadRequest (error : str)
| ServerError
| Cleared.

(** the identifier that [create_session] makes of the reading [stamp] of the
    clock, [datetime.now().strftime('%Y%m%d_%H%M%S')] *)
Definition new_session_id (stamp : str) (st : store) : str :=
  lit "session_" ++ stamp ++ lit "_"
    ++ str_of_int (Z.of_nat (length (sessions st))).

(** [create_session]; [data] is [request.get_json()], and the other
    arguments are the readings of the clock, in the order they are taken. *)
Definition create_session (data : option App.body)
    (stamp created updated : str) (st : store) : response * store :=
  let data := match data with Some d => d | None => [] end in
  let session_id := new_session_id stamp st in
  let session :=
    mkSession session_id
      (match App.get (lit "title") data with
       | Some t => t
       | None => lit "New Chat"
       end)
      created updated in
  (Created session,
   mkStore (put session_id session (sessions st))
           (put session_id [] (messages st))).

(** [get_sessions] *)
Definition get_sessions (st : store) : response * store :=
  (SessionList (map snd (sessions st)), st).

(** [delete_session] *)
Definition delete_session (session_id : str) (st : store)
    : response * store :=
  if mem session_id (sessions st) then
    (Deleted,
     mkStore (del session_id (sessions st))
             (if mem session_id (messages st)
              then del session_id (messages st) else messages st))
  else (NotFound, st).

(** the first statement of [handle_messages]: a session that does not exist
    is created *)
Definition auto_create (session_id created updated : str) (st : store)
    : store :=
  if mem session_id (sessions st) then st
  else
    mkStore
      (put session_id
           (mkSession session_id (lit "Auto-created Chat") created updated)
           (sessions st))
      (put session_id [] (messages st)).

(** the message that the POST branch makes of the result of the handler *)
Definition message_of (user_text : str) (result : Handler.Result)
    (stamp time : str) (count : nat) : Message :=
  mkMessage
    (lit "msg_" ++ stamp ++ lit "_" ++ str_of_int (Z.of_nat count))
    user_text
    (Handler.masked_query result)
    (Handler.masked_query result)
    (Handler.llm_response result)
    (Handler.final_response result)
    (Handler.llm_response result)
    (Handler.final_response result)
    (_calculate_privacy_score result)
    time
    (Handler.detected_entities result)
    [] []
    (Handler.context result)
    (Handler.privacy_preserved result)
    [] [].

(** [handle_messages] with the method GET *)
Definition get_messages (session_id created updated : str) (st : store)
    : response * store :=
  let st1 := auto_create session_id created updated st in
  (MessageList (messages_of session_id st1), st1).

(** [handle_messages] with the method POST; [data] is [request.get_json()],
    [created] and [updated] are read from the clock when the session is
    created, [stamp], [time] and [touched] when the message is made and the
    session is marked.  A request that is refused, or that raises, leaves
    the session it has created. *)
Definition post_message (post : str -> Handler.post_result)
    (session_id created updated : str) (data : option App.body)
    (stamp time touched : str) (st : store) : response * store :=
  let st1 := auto_create session_id created updated st in
  match data with
  | None => (BadRequest (lit "Text is required"), st1)
  | Some d =>
      match d, App.get (lit "text") d with
      | [], _ | _, None => (BadRequest (lit "Text is required"), st1)
      | _, Some user_text =>
          if App.truthy (App.get (lit "pii_analysis") d) then
            (ServerError, st1)
          else
            let result := Handler.process_query post user_text in
            let message :=
              message_of user_text result stamp time
                         (length (messages_of session_id st1)) in
            let messages1 :=
              if mem session_id (messages st1) then messages st1
              else put session_id [] (messages st1) in
            let messages2 :=
              put session_id
                  (match find session_id messages1 with
                   | Some l => l
                   | None => []
                   end ++ [message])
                  messages1 in
            match find session_id (sessions st1) with
            | Some s =>
                (Posted message,
                 mkStore
                   (put session_id
                        (mkSession (s_id s) (title s) (created_at s) touched)
                        (sessions st1))
                   messages2)
            | None => (ServerError, mkStore (sessions st1) messages2)
            end
      end
  end.

(** [clear_history] *)
Definition clear_history (st : store) : response * store :=
  (Cleared, empty).

(** A request to one of the endpoints that read or write the store. *)
Inductive request : Type :=
| CreateSession (data : option App.body) (stamp created updated : str)
| GetSessions
| DeleteSession (session_id : str)
| GetMessages (session_id created updated : str)
| PostMessage (session_id created updated : str) (data : option App.body)
              (stamp time touched : str)
| ClearHistory.

Definition handle (post : str -> Handler.post_result) (r : request)
    (st : store) : response * store :=
  match r with
  | CreateSession data stamp created updated =>
      create_session data stamp created updated st
  | GetSessions => get_sessions st
  | DeleteSession session_id => delete_session session_id st
  | GetMessages session_id created updated =>
      get_messages session_id created updated st
  | PostMessage session_id created updated data stamp time touched =>
      post_message post session_id created updated data stamp time touched st
  | ClearHistory => clear_history st
  end.

(** the store after a sequence of requests *)
Definition run (post : str -> Handler.post_result) (reqs : list request)
    (st : store) : store :=
  fold_left (fun st r => snd (handle post r st)) reqs st.

End Store.

(** ** The maps that [ModelWrapper] builds from the entities of the model *)

Module Maps.

(** An entry of [model_result['pii_entities']]: [entity.get('masked', False)],
    [entity.get('type', '')] and [entity.get('entity', '')]. *)
Record ModelEntity : Type := mkModelEntity {
  masked : bool;
  m_type : str;
  m_entity : str
}.

(** [f"[{entity_type}]"] *)
Definition placeholder_of (entity : ModelEntity) : str :=
  lit "[" ++ m_type entity ++ lit "]".

(** the local variables of [_apply_faker_replacements], with the generator *)
Record fstate (F : Faker) : Type := mkFstate {
  masked_text : str;
  replacements : dict;
  fake_to_original : dict;
  fgen : gen F
}.

(** the body of the loop of [_apply_faker_replacements]: the value is drawn
    before the text is searched for the placeholder *)
Definition apply_replacement (F : Faker) (st : fstate F)
    (entity : ModelEntity) : fstate F :=
  if masked entity then
    let entity_type := m_type entity in
    let original_value := m_entity entity in
    let (fake_value, g') :=
      Wrapper._generate_fake_value F entity_type (fgen st) in
    let placeholder := lit "[" ++ entity_type ++ lit "]" in
    if infixb placeholder (masked_text st) then
      mkFstate F
        (replace placeholder fake_value (Some 1) (masked_text st))
        (dict_set fake_value placeholder (replacements st))
        (dict_set fake_value original_value (fake_to_original st))
        g'
    else
      mkFstate F (masked_text st) (replacements st) (fake_to_original st) g'
  else st.

(** [_apply_faker_replacements] *)
Definition _apply_faker_replacements (F : Faker) (text : str)
    (pii_entities : list ModelEntity) (g : gen F) : fstate F :=
  fold_left (@apply_replacement F) pii_entities (mkFstate F text [] [] g).

(** [_extract_original_pii] *)
Definition _extract_original_pii (pii_entities : list Wrapper.PiiEntity)
    : dict :=
  fold_left
    (fun pii_map entity =>
       let entity_type := Wrapper.p_type entity in
       let entity_text := Wrapper.p_entity entity in
       match entity_text with
       | [] => pii_map
       | _ :: _ => dict_set entity_type entity_text pii_map
       end)
    pii_entities [].

End Maps.

(** ** Generators and services used to run the model *)

(** a generator that draws the same digit and the same string each time *)
Definition const_faker (d : Z) (e : str) : Faker :=
  mkFaker (fun g : unit => (d, g)) (fun _ (g : unit) => (e, g)).

(** a generator that counts its draws: the digit is the count modulo ten, a
    letter is the count modulo twenty-six, another string carries the count *)
Definition counting_faker : Faker :=
  mkFaker (fun g : Z => ((g mod 10)%Z, (g + 1)%Z))
          (fun p (g : Z) =>
             (match p with
              | RandomUppercaseLetter =>
                  [ascii_of_nat (65 + Z.to_nat (g mod 26))]
              | Email => lit "user" ++ str_of_int g ++ lit "@example.org"
              | _ => lit "Value " ++ str_of_int g
              end, (g + 1)%Z)).

(** a service that cannot be reached *)
Definition unreachable (_ : str) : Handler.post_result := Handler.Raised.

(** a service that echoes its prompt *)
Definition echo (prompt : str) : Handler.post_result :=
  Handler.Response 200 (Handler.JsonData (Some [Some prompt])).

(** a service that knows one prompt, which it echoes, and fails on any other *)
Definition echo_only (known prompt : str) : Handler.post_result :=
  if str_eqb prompt known then echo prompt else Handler.Raised.

(** a service behind a failing gateway *)
Definition bad_gateway (_ : str) : Handler.post_result :=
  Handler.Response 502 Handler.NotJson.

(** a query with an address to mask and a phone number to keep *)
Definition mixed_query : str :=
  lit "mail bob@site.com, add the digits of 9876543210".

(** a text with a phone number inside an address, and the same digits once
    more, glued to a letter *)
Definition nested_query : str :=
  lit "mail a@1234567890.com and x1234567890".

(** a query with an address to mask and two phone numbers to add *)
Definition two_phones_query : str :=
  lit "mail a@b.com, add 1234567890 and 1111111111".

(** the query of the worked example *)
Definition phone_query : str :=
  lit "My phone number is 9876543210, please add its digits".

(** ** Specification vocabulary *)

(** [p] occurs in [t] *)
Definition infix (p t : str) : Prop := exists a b, t = a ++ p ++ b.

(** the order in which detection lists its entities: pattern by pattern in
    the order of [pii_patterns], and by start within a pattern *)
Definition type_rank (ty : str) : nat :=
  if str_eqb ty (lit "phone") then 0
  else if str_eqb ty (lit "email") then 1
  else if str_eqb ty (lit "name") then 2
  else if str_eqb ty (lit "ssn") then 3
  else 4.

Definition detect_order (a b : Handler.Entity) : Prop :=
  type_rank (Handler.e_type a) < type_rank (Handler.e_type b)
  \/ (Handler.e_type a = Handler.e_type b
      /\ Handler.e_start a < Handler.e_start b).

(** ordered by start position *)
Definition ordered_by_start (es : list Handler.Entity) : Prop :=
  forall i j a b, i < j -> nth_error es i = Some a -> nth_error es j = Some b ->
                  Handler.e_start a <= Handler.e_start b.

(** the external call failed: it raised, answered with another status than
    200, or sent a body without a usable candidate *)
Definition service_failed (r : Handler.post_result) : bool :=
  match r with
  | Handler.Raised => true
  | Handler.Response status_code body =>
      negb (status_code =? 200)
      || match Handler.candidate_text body with Some _ => false | None => true end
  end.

(** [p] occurs in [t] at position [n] and nowhere else: not before [n], and
    not after the occurrence at [n] *)
Definition occurs_only_at (p t : str) (n : nat) : Prop :=
  str_find p t = Some n /\ ~ infix p (skipn (n + length p) t).

(** two spans that do not overlap *)
Definition disjoint (a b : Handler.Entity) : Prop :=
  Handler.e_end a <= Handler.e_start b \/ Handler.e_end b <= Handler.e_start a.

(** the [len] characters from position [n] on are outside the span of [e] *)
Definition disjoint_from (n len : nat) (e : Handler.Entity) : Prop :=
  n + len <= Handler.e_start e \/ Handler.e_end e <= n.

(** [v] stands in [t] at position [n], outside the span of every entity of
    [es] *)
Definition stands_outside (v t : str) (es : list Handler.Entity) (n : nat)
    : Prop :=
  n + length v <= length t
  /\ slice n (n + length v) t = v
  /\ forall e, In e es -> disjoint_from n (length v) e.

(** [v] stands in [t] at position [n], and no span of [es] starts within
    these characters *)
Definition stands_unmatched (v t : str) (es : list Handler.Entity) (n : nat)
    : Prop :=
  n + length v <= length t
  /\ slice n (n + length v) t = v
  /\ forall e, In e es ->
               Handler.e_start e < n \/ n + length v <= Handler.e_start e.

(** the spans of [l] lie below [bound], each one below the one before it,
    none of them empty *)
Fixpoint chain (bound : nat) (l : list Handler.Entity) : Prop :=
  match l with
  | [] => True
  | e :: l' =>
      Handler.e_start e < Handler.e_end e
      /\ Handler.e_end e <= bound
      /\ chain (Handler.e_start e) l'
  end.

(** the least number of characters a match of [r] takes *)
Fixpoint min_len (r : regex) : nat :=
  match r with
  | Eps => 0
  | Cls _ => 1
  | Cat r1 r2 => min_len r1 + min_len r2
  | Alt r1 r2 => Nat.min (min_len r1) (min_len r2)
  | Rep _ lo _ => lo
  | WordB => 0
  end.

(** every match starts at [pos] or later *)
Definition starts_from (pos : nat) (l : list (nat * nat)) : Prop :=
  Forall (fun se => pos <= fst se) l.

(** the matches come by strictly ascending start *)
Definition starts_ascending (l : list (nat * nat)) : Prop :=
  StronglySorted (fun a b => fst a < fst b) l.

(** the patterns of a list have the ranks [n], [n + 1], ... *)
Fixpoint ranked_from (n : nat) (ps : list (str * regex)) : Prop :=
  match ps with
  | [] => True
  | tr :: ps' => type_rank (fst tr) = n /\ ranked_from (S n) ps'
  end.

(** the order of [sorted(..., reverse=True)] on the start *)
Definition start_ge (a b : Handler.Entity) : Prop :=
  Handler.e_start b <= Handler.e_start a.

(** [v] stands in [t] at [n], below [bound] and outside the spans of [l] *)
Definition stands_below (v t : str) (bound : nat) (l : list Handler.Entity)
    (n : nat) : Prop :=
  n + length v <= bound
  /\ slice n (n + length v) t = v
  /\ forall e, In e l -> disjoint_from n (length v) e.

(** the characters a match of [r] can hold *)
Fixpoint alphabet (r : regex) (c : ascii) : bool :=
  match r with
  | Eps | WordB => false
  | Cls p | Rep p _ _ => p c
  | Cat r1 r2 | Alt r1 r2 => alphabet r1 c || alphabet r2 c
  end.

Definition all_ascii : list ascii := map ascii_of_nat (seq 0 256).

(** every character of class [p] has the property [q] *)
Definition class_within (p q : ascii -> bool) : bool :=
  forallb (fun c => implb (p c) (q c)) all_ascii.

(** every match of [r] holds a character with the property [q] *)
Fixpoint must_have (q : ascii -> bool) (r : regex) : bool :=
  match r with
  | Eps | WordB => false
  | Cls p => class_within p q
  | Rep p lo _ => (1 <=? lo) && class_within p q
  | Cat r1 r2 => must_have q r1 || must_have q r2
  | Alt r1 r2 => must_have q r1 && must_have q r2
  end.

(** a character that no placeholder has *)
Definition plain (c : ascii) : bool :=
  negb (is_upper c || one_of (lit "_[]") c).

(** the characters of [t] at [i .. j - 1] have the property [q] *)
Definition all_in (t : str) (q : ascii -> bool) (i j : nat) : Prop :=
  forall x, i <= x < j -> exists c, nth_error t x = Some c /\ q c = true.

(** one of the characters of [t] at [i .. j - 1] has the property [q] *)
Definition some_in (t : str) (q : ascii -> bool) (i j : nat) : Prop :=
  exists x c, i <= x < j /\ nth_error t x = Some c /\ q c = true.

(** the characters the placeholders of [l] take together *)
Definition mask_total (l : list Handler.Entity) : nat :=
  list_sum (map (fun e => length (Handler._get_mask_for_type (Handler.e_type e)))
                l).

(** the characters the spans of [l] take together *)
Definition span_total (l : list Handler.Entity) : nat :=
  list_sum (map (fun e => Handler.e_end e - Handler.e_start e) l).

(** the phrases that announce a name, in lower case *)
Definition name_cues : list str :=
  map lit [ "my name is"; "i am"; "i'm"; "call me" ]%string.

(** the generator draws its digits from 0 to 9, as [random_digit] does *)
Definition digits_in_range (F : Faker) : Prop :=
  forall g, (0 <= fst (random_digit F g) <= 9)%Z.

(** a string of [n] digits *)
Definition digit_string (n : nat) (v : str) : Prop :=
  length v = n /\ forallb is_digit v = true.


(** every character of [t] is an ASCII character; on such a text the classes
    [\d], [\w] and [\s] of [re], IGNORECASE and [str.lower] are the ones
    written in this file *)
Definition ascii_text (t : str) : Prop := forall c, In c t -> code c < 128.

(** *** The two loops of [mask_text] as one list of steps *)

(** the values [mask_text] matches, in the order of its two loops *)
Definition matched_values (text : str) : list str :=
  findall text FakerMasking.phone_re ++ findall text FakerMasking.email_re.

(** the steps of [mask_text]: each matched value with the synthetic value
    drawn for it *)
Definition steps_of (F : Faker) (text : str) (g : gen F) : list (str * str) :=
  combine (matched_values text) (FakerMasking.drawn_values F text g).

(** [masked = masked.replace(original, fake, 1)] for each step *)
Definition mask_steps (steps : list (str * str)) (t : str) : str :=
  fold_left (fun m p => replace (fst p) (snd p) (Some 1) m) steps t.

(** [replacements[fake] = original] for each step *)
Definition map_steps (steps : list (str * str)) (d : dict) : dict :=
  fold_left (fun d p => dict_set (snd p) (fst p) d) steps d.

(** the positions at which [p] stands in [t] *)
Definition occurrences (p t : str) : list nat :=
  filter (fun i => prefixb p (skipn i t)) (seq 0 (S (length t))).

(** no place where [f] stands in [t] overlaps the place where [o] stands
    first *)
Definition clear_of (f o t : str) : bool :=
  match str_find o t with
  | None => true
  | Some a =>
      forallb (fun i => (i + length f <=? a) || (a + length o <=? i))
              (occurrences f t)
  end.

(** the text of [mask_text] after its first [k] steps *)
Definition masked_after (F : Faker) (text : str) (g : gen F) (k : nat) : str :=
  mask_steps (firstn k (steps_of F text g)) text.

(** the text of [unmask_text], called with the result of [mask_text], after
    the first [k] entries of the map are replaced back *)
Definition unmasked_after (F : Faker) (text : str) (g : gen F) (k : nat)
    : str :=
  let st := FakerMasking.mask_run F text g in
  FakerMasking.unmask_text (FakerMasking.masked st)
                           (firstn k (FakerMasking.replacements st)).

(** a text in pieces: each piece of [l] is followed by the value that [pick]
    gives for the step named beside it, and [tail] ends the text *)
Fixpoint render (pick : nat -> str) (l : list (str * nat)) (tail : str)
    : str :=
  match l with
  | [] => tail
  | (c, k) :: l' => c ++ pick k ++ render pick l' tail
  end.

(** the original and the synthetic value of step [k] *)
Definition original_of (steps : list (str * str)) (k : nat) : str :=
  nth k (map fst steps) [].

Definition fake_of (steps : list (str * str)) (k : nat) : str :=
  nth k (map snd steps) [].

(** the values in the text when [j] entries are replaced back *)
Definition half_way (steps : list (str * str)) (j k : nat) : str :=
  if k <? j then original_of steps k else fake_of steps k.

(** a text that holds a phone number and an address *)
Definition two_values : str := lit "call 1234567890 or mail bob@site.com".

(** *** The session store *)

(** the two dicts have the same keys in the same order, no key twice, and a
    session is stored under its identifier *)
Definition consistent (st : Store.store) : Prop :=
  map fst (Store.sessions st) = map fst (Store.messages st)
  /\ NoDup (map fst (Store.sessions st))
  /\ forall k s, In (k, s) (Store.sessions st) -> Store.s_id s = k.

(** the reading of the clock that a POST puts in the identifier of its
    message has the fifteen characters of [%Y%m%d_%H%M%S] *)
Definition well_stamped (r : Store.request) : Prop :=
  match r with
  | Store.PostMessage _ _ _ _ stamp _ _ => length stamp = 15
  | _ => True
  end.

(** the session a request names, in the store it meets *)
Definition names (r : Store.request) (st : Store.store) (k : str) : Prop :=
  match r with
  | Store.CreateSession _ stamp _ _ => k = Store.new_session_id stamp st
  | Store.GetSessions => False
  | Store.DeleteSession session_id => k = session_id
  | Store.GetMessages session_id _ _ => k = session_id
  | Store.PostMessage session_id _ _ _ _ _ _ => k = session_id
  | Store.ClearHistory => True
  end.

(** the request neither deletes session [k] nor creates it anew *)
Definition calm (k : str) (r : Store.request) (st : Store.store) : bool :=
  match r with
  | Store.CreateSession _ stamp _ _ =>
      negb (str_eqb (Store.new_session_id stamp st) k)
  | Store.DeleteSession session_id => negb (str_eqb session_id k)
  | Store.ClearHistory => false
  | _ => true
  end.

(** every request of the sequence is calm in the store it meets *)
Fixpoint undisturbed (post : str -> Handler.post_result) (k : str)
    (reqs : list Store.request) (st : Store.store) : bool :=
  match reqs with
  | [] => true
  | r :: reqs' =>
      calm k r st && undisturbed post k reqs' (snd (Store.handle post r st))
  end.

(** the text of a body that the POST branch accepts *)
Definition accepted_text (data : option App.body) : option str :=
  match data with
  | None => None
  | Some d =>
      match d, App.get (lit "text") d with
      | [], _ | _, None => None
      | _, Some user_text =>
          if App.truthy (App.get (lit "pii_analysis") d) then None
          else Some user_text
      end
  end.

(** the request carries no analysis of the client: it is no POST, or its
    body has no member ['pii_analysis'] *)
Definition no_analysis (r : Store.request) : Prop :=
  match r with
  | Store.PostMessage _ _ _ (Some d) _ _ _ =>
      App.get (lit "pii_analysis") d = None
  | _ => True
  end.

(** the texts posted to session [k] and accepted, in the order of the
    requests *)
Fixpoint posted_texts (k : str) (reqs : list Store.request) : list str :=
  match reqs with
  | [] => []
  | Store.PostMessage session_id _ _ data _ _ _ :: reqs' =>
      (if str_eqb session_id k then
         match accepted_text data with Some t => [t] | None => [] end
       else [])
        ++ posted_texts k reqs'
  | _ :: reqs' => posted_texts k reqs'
  end.

(** the message at index [n] of every list carries [n] in its identifier,
    after a reading of the clock of fifteen characters *)
Definition numbered (st : Store.store) : Prop :=
  forall k ms n m,
    In (k, ms) (Store.messages st) -> nth_error ms n = Some m ->
    exists stamp,
      length stamp = 15
      /\ Store.m_id m
         = lit "msg_" ++ stamp ++ lit "_" ++ str_of_int (Z.of_nat n).

(** *** The maps of [ModelWrapper] *)

(** the generator after one value is drawn for each masked entity *)
Definition drawn_for (F : Faker) (pii_entities : list Maps.ModelEntity)
    (g : gen F) : gen F :=
  fold_left
    (fun g e => snd (Wrapper._generate_fake_value F (Maps.m_type e) g))
    (filter Maps.masked pii_entities) g.

(** a body with the one member ['text'] *)
Definition text_body (t : string) : option App.body :=
  Some [(lit "text", lit t)].

(** a session is created, two texts are posted to the session [s1] within
    one second, and another session is read and deleted in between *)
Definition some_requests : list Store.request :=
  [ Store.CreateSession None (lit "20240101_120000")
      (lit "2024-01-01T12:00:00") (lit "2024-01-01T12:00:00");
    Store.PostMessage (lit "s1") (lit "2024-01-01T12:00:01")
      (lit "2024-01-01T12:00:01") (text_body "hello")
      (lit "20240101_120001") (lit "2024-01-01T12:00:01")
      (lit "2024-01-01T12:00:01");
    Store.GetMessages (lit "s2") (lit "2024-01-01T12:00:01")
      (lit "2024-01-01T12:00:01");
    Store.PostMessage (lit "s1") (lit "2024-01-01T12:00:01")
      (lit "2024-01-01T12:00:01") None
      (lit "20240101_120001") (lit "2024-01-01T12:00:01")
      (lit "2024-01-01T12:00:01");
    Store.DeleteSession (lit "s2");
    Store.PostMessage (lit "s1") (lit "2024-01-01T12:00:01")
      (lit "2024-01-01T12:00:01") (text_body "mail bob@site.com")
      (lit "20240101_120001") (lit "2024-01-01T12:00:01")
      (lit "2024-01-01T12:00:01") ].


(** * Properties *)

(** ** Strings *)

Lemma str_eqb_eq (a b : str) : str_eqb a b = true <-> a = b.
Proof.
  revert b; induction a as [|x a IH]; intros [|y b]; simpl;
    try (split; [discriminate | discriminate]); try tauto.
  rewrite andb_true_iff, Ascii.eqb_eq, IH.
  split; [intros [-> ->]; reflexivity | intros E; inversion E; auto].
Qed.

Lemma str_eqb_refl (a : str) : str_eqb a a = true.
Proof. apply str_eqb_eq; reflexivity. Qed.

Lemma str_eqb_neq (a b : str) : str_eqb a b = false <-> a <> b.
Proof.
  rewrite <- str_eqb_eq. destruct (str_eqb a b); split; congruence.
Qed.

Lemma prefixb_spec (p t : str) : prefixb p t = true <-> exists b, t = p ++ b.
Proof.
  revert t; induction p as [|x p IH]; intros t; simpl.
  - split; [intros _; exists t; reflexivity | reflexivity].
  - destruct t as [|y t].
    + split; [discriminate | intros [b E]; discriminate].
    + rewrite andb_true_iff, Ascii.eqb_eq, IH. split.
      * intros [-> [b ->]]. exists b; reflexivity.
      * intros [b E]. inversion E; subst. split; [reflexivity | eauto].
Qed.

Lemma infixb_spec (p t : str) : infixb p t = true <-> infix p t.
Proof.
  induction t as [|c t IH].
  - simpl. rewrite orb_false_r, prefixb_spec. split.
    + intros [b E]. exists [], b. exact E.
    + intros [a [b E]]. destruct a; simpl in E.
      * exists b; exact E.
      * discriminate.
  - simpl. rewrite orb_true_iff, prefixb_spec, IH. split.
    + intros [[b E] | [a [b E]]].
      * exists [], b. exact E.
      * exists (c :: a), b. simpl. rewrite E. reflexivity.
    + intros [a [b E]]. destruct a as [|c' a]; simpl in E.
      * left. exists b. exact E.
      * right. inversion E; subst. exists a, b. reflexivity.
Qed.

Lemma infixb_false (p t : str) : infixb p t = false -> ~ infix p t.
Proof. intros E H. apply infixb_spec in H. congruence. Qed.

Lemma any_in_spec (ks : list str) (t : str) :
  any_in ks t = true <-> exists k, In k ks /\ infixb k t = true.
Proof. unfold any_in. apply existsb_exists. Qed.

(** ** The matcher *)

Section MatcherFacts.
Variable t : str.

Lemma try_down_some (n lo : nat) (k : nat -> option nat) (e : nat) :
  try_down n lo k = Some e -> exists m, m <= n /\ lo <= m /\ k m = Some e.
Proof.
  induction n as [|n IH]; simpl.
  - destruct (Nat.eqb_spec lo 0) as [E0|E0]; [|discriminate].
    intros H. exists 0. repeat split; auto; lia.
  - destruct (Nat.leb_spec lo (S n)) as [Hle|Hgt]; [|discriminate].
    destruct (k (S n)) eqn:K.
    + intros H; inversion H; subst. exists (S n). repeat split; auto.
    + intros H. destruct (IH H) as [m [Hm [Hl Hk]]].
      exists m. repeat split; auto.
Qed.

(** a match never ends before it starts *)
Lemma rmatch_ge (r : regex) :
  forall i k e, rmatch t r i k = Some e -> exists j, i <= j /\ k j = Some e.
Proof.
  induction r as [|p|r1 IH1 r2 IH2|r1 IH1 r2 IH2|p lo hi|]; intros i k e; simpl.
  - intros H. exists i. auto.
  - destruct (nth_error t i) as [c|]; [|discriminate].
    destruct (p c); [|discriminate]. intros H. exists (S i). auto.
  - intros H. destruct (IH1 _ _ _ H) as [j [Hj H2]].
    destruct (IH2 _ _ _ H2) as [j' [Hj' H3]]. exists j'. split; [lia|auto].
  - destruct (rmatch t r1 i k) eqn:M1.
    + intros H; inversion H; subst. eauto.
    + eauto.
  - intros H. destruct (try_down_some _ _ _ H) as [m [_ [_ Hk]]].
    exists (i + m). split; [lia|auto].
  - destruct (word_boundary t i); [|discriminate]. intros H. exists i. auto.
Qed.

Lemma match_at_ge (r : regex) (i e : nat) : match_at t r i = Some e -> i <= e.
Proof.
  unfold match_at. intros H. destruct (rmatch_ge _ _ _ H) as [j [Hj E]].
  inversion E; subst. exact Hj.
Qed.

Lemma search_from_ge (r : regex) :
  forall fuel pos s0 e0,
    search_from t r fuel pos = Some (s0, e0) -> pos <= s0 /\ s0 <= e0.
Proof.
  induction fuel as [|f IH]; intros pos s0 e0; simpl;
    destruct (match_at t r pos) eqn:M.
  - intros H; inversion H; subst. split; [lia | eapply match_at_ge; eauto].
  - discriminate.
  - intros H; inversion H; subst. split; [lia | eapply match_at_ge; eauto].
  - intros H. apply IH in H. lia.
Qed.

(** the matches of [finditer] come by strictly ascending start *)
Lemma finditer_from_ascending (r : regex) :
  forall fuel pos,
    starts_from pos (finditer_from t r fuel pos)
    /\ starts_ascending (finditer_from t r fuel pos).
Proof.
  induction fuel as [|f IH]; intros pos; simpl.
  - split; constructor.
  - destruct (length t <? pos); [split; constructor|].
    destruct (search t r pos) as [[s0 e0]|] eqn:Sr; [|split; constructor].
    apply search_from_ge in Sr. destruct Sr as [Hs He].
    destruct (IH (if e0 =? s0 then S e0 else e0)) as [Hfrom Hasc].
    assert (Hnext : s0 < (if e0 =? s0 then S e0 else e0))
      by (destruct (Nat.eqb_spec e0 s0); lia).
    split.
    + constructor; [simpl; lia|].
      eapply Forall_impl; [|exact Hfrom]. simpl. intros a Ha. lia.
    + constructor; [exact Hasc|].
      eapply Forall_impl; [|exact Hfrom]. simpl. intros a Ha. lia.
Qed.

Lemma finditer_ascending (r : regex) : starts_ascending (finditer t r).
Proof. apply finditer_from_ascending. Qed.

(** the scan of [finditer] ends by itself: once the fuel covers the rest of
    the text, more fuel finds the same matches *)
Lemma finditer_from_fuel (r : regex) :
  forall n pos fuel,
    S (length t) - pos <= n -> S (length t) - pos <= fuel ->
    finditer_from t r fuel pos = finditer_from t r n pos.
Proof.
  induction n as [|n IH]; intros pos fuel Hn Hf.
  - destruct fuel as [|f]; [reflexivity|]. simpl.
    destruct (Nat.ltb_spec (length t) pos) as [_ | Hge]; [reflexivity | lia].
  - destruct fuel as [|f]; simpl.
    + destruct (Nat.ltb_spec (length t) pos) as [_ | Hge]; [reflexivity | lia].
    + destruct (Nat.ltb_spec (length t) pos) as [_ | Hge]; [reflexivity|].
      destruct (search t r pos) as [[s0 e0]|] eqn:Sr; [|reflexivity].
      apply search_from_ge in Sr. destruct Sr as [Hs He].
      f_equal. apply IH; destruct (Nat.eqb_spec e0 s0); lia.
Qed.

Lemma finditer_fuel (r : regex) (fuel : nat) :
  S (length t) <= fuel -> finditer_from t r fuel 0 = finditer t r.
Proof.
  intros H. unfold finditer. apply finditer_from_fuel; lia.
Qed.
End MatcherFacts.

(** ** Detection order *)

Lemma StronglySorted_app {A : Type} (R : A -> A -> Prop) (l1 l2 : list A) :
  StronglySorted R l1 -> StronglySorted R l2 ->
  (forall a b, In a l1 -> In b l2 -> R a b) ->
  StronglySorted R (l1 ++ l2).
Proof.
  induction l1 as [|x l1 IH]; simpl; intros S1 S2 Hc; [exact S2|].
  inversion S1 as [|? ? S1' F1]; subst. constructor.
  - apply IH; auto.
  - apply Forall_app. split; [exact F1|].
    apply Forall_forall. intros b Hb. apply Hc; auto.
Qed.

Lemma StronglySorted_map {A B : Type} (R : A -> A -> Prop) (Q : B -> B -> Prop)
    (f : A -> B) (l : list A) :
  (forall a b, R a b -> Q (f a) (f b)) ->
  StronglySorted R l -> StronglySorted Q (map f l).
Proof.
  intros Hf. induction 1 as [|x l S IH F]; simpl; constructor; auto.
  apply Forall_map. eapply Forall_impl; [|exact F]. intros b. apply Hf.
Qed.

Lemma entities_of_type (text : str) (tr : str * regex) :
  Forall (fun e => Handler.e_type e = fst tr) (Handler.entities_of text tr).
Proof.
  unfold Handler.entities_of. apply Forall_map. apply Forall_forall.
  intros se _. reflexivity.
Qed.

Lemma entities_of_sorted (text : str) (tr : str * regex) :
  StronglySorted detect_order (Handler.entities_of text tr).
Proof.
  unfold Handler.entities_of.
  eapply StronglySorted_map; [|apply finditer_ascending].
  intros a b Hab. right. simpl. split; [reflexivity | exact Hab].
Qed.

Lemma detect_sorted_from (text : str) (ps : list (str * regex)) :
  forall n, ranked_from n ps ->
    StronglySorted detect_order (flat_map (Handler.entities_of text) ps)
    /\ Forall (fun e => n <= type_rank (Handler.e_type e))
              (flat_map (Handler.entities_of text) ps).
Proof.
  induction ps as [|tr ps IH]; intros n; simpl.
  - intros _. split; constructor.
  - intros [Hn Hps]. destruct (IH _ Hps) as [Hs Hr].
    pose proof (entities_of_type text tr) as Ht.
    split.
    + apply StronglySorted_app; [apply entities_of_sorted | exact Hs |].
      intros a b Ha Hb. left.
      rewrite Forall_forall in Ht, Hr.
      rewrite (Ht a Ha), Hn. apply Hr. exact Hb.
    + apply Forall_app. split.
      * eapply Forall_impl; [|exact Ht]. simpl. intros e ->. lia.
      * eapply Forall_impl; [|exact Hr]. simpl. intros e He. lia.
Qed.

(** ** Classification *)

Lemma is_dependent_cue (text value ty : str) :
  Handler._is_dependent_pii text value ty = true ->
  any_in Handler.computation_keywords (lower text) = true
  /\ ty = lit "phone".
Proof.
  unfold Handler._is_dependent_pii.
  destruct (any_in Handler.computation_keywords (lower text)); cbn [negb];
    [|discriminate].
  destruct (str_eqb ty (lit "phone")) eqn:E.
  - intros _. split; [reflexivity | apply str_eqb_eq; exact E].
  - destruct (str_eqb ty (lit "name")); discriminate.
Qed.

Lemma detected_flag (text : str) (e : Handler.Entity) :
  In e (Handler._detect_pii_entities text) ->
  Handler.e_is_dependent e
  = Handler._is_dependent_pii text (Handler.e_value e) (Handler.e_type e).
Proof.
  unfold Handler._detect_pii_entities. rewrite in_flat_map.
  intros [tr [_ He]]. unfold Handler.entities_of in He.
  apply in_map_iff in He. destruct He as [se [<- _]]. reflexivity.
Qed.

(** ** The worked example of the phone query *)

(** C3, as stated, fails: on the phone query neither the response of the
    dependent path nor the fallback responder of the wrapper reports the digit
    sum of 9876543210 as 46, whatever the external service answers. *)
Lemma phone_query_sum_is_not_46 :
  ~ (exists post,
        (exists e, In e (Handler._detect_pii_entities phone_query)
                   /\ Handler.e_type e = lit "phone"
                   /\ Handler.e_is_dependent e = true)
        /\ infix (lit "9876543210")
                 (Handler.masked_query (Handler.process_query post phone_query))
        /\ (infix (lit "9876543210 is: 46")
                  (Handler.llm_response (Handler.process_query post phone_query))
            \/ infix (lit "9876543210 is: 46")
                     (Wrapper._generate_fallback_response phone_query phone_query))).
Proof.
  intros [post [_ [_ [H | H]]]]; apply infixb_spec in H; vm_compute in H;
    discriminate.
Qed.

(** C3, amended: on the phone query one entity is detected, the phone number
    9876543210 at [19, 29), classified dependent; the sanitized text is the
    query itself; the response of the dependent path and the fallback
    responder of the wrapper both report the digit sum 45. *)
Theorem phone_query_sum_is_45 :
  forall post,
    Handler._detect_pii_entities phone_query
    = [Handler.mkEntity (lit "9876543210") (lit "phone") 19 29 true]
    /\ Handler.masked_query (Handler.process_query post phone_query) = phone_query
    /\ Handler.context (Handler.process_query post phone_query)
       = lit "dependent_only"
    /\ Handler.llm_response (Handler.process_query post phone_query)
       = lit "I've kept your phone number for the calculation. The sum of all digits in 9876543210 is: 45"
    /\ Wrapper._generate_fallback_response phone_query phone_query
       = lit "The sum of digits in 9876543210 is: 45".
Proof.
  intros post. repeat split; vm_compute; reflexivity.
Qed.

(** ** Order of the detected entities *)

(** C4, as stated, fails: in ["a@b.com 1234567890"] the phone number, which
    starts at 8, is listed before the address, which starts at 0. *)
Lemma detection_not_ordered_by_start :
  ~ ordered_by_start (Handler._detect_pii_entities (lit "a@b.com 1234567890")).
Proof.
  intros H.
  specialize (H 0 1 (Handler.mkEntity (lit "1234567890") (lit "phone") 8 18 false)
                (Handler.mkEntity (lit "a@b.com") (lit "email") 0 7 false)).
  assert (C : 8 <= 0); [|lia].
  apply H; [lia | vm_compute; reflexivity | vm_compute; reflexivity].
Qed.

(** C4, amended: for every text the detected entities are listed pattern by
    pattern in the order phone, email, name, ssn, credit_card, and within one
    pattern by strictly ascending start. *)
Theorem detection_order :
  forall text, StronglySorted detect_order (Handler._detect_pii_entities text).
Proof.
  intros text. unfold Handler._detect_pii_entities.
  apply (detect_sorted_from text Handler.pii_patterns 0).
  repeat split.
Qed.

(** ** Dependency classification *)

(** C5: a detected entity is classified dependent only if the text, in lower
    case, contains a computation keyword of the vocabulary; and a detected
    entity of type name, email, ssn or credit_card is classified
    non-dependent. *)
Theorem dependent_needs_cue :
  forall text e,
    In e (Handler._detect_pii_entities text) ->
    (Handler.e_is_dependent e = true ->
     exists k, In k Handler.computation_keywords /\ infix k (lower text))
    /\ (In (Handler.e_type e)
           [lit "name"; lit "email"; lit "ssn"; lit "credit_card"] ->
        Handler.e_is_dependent e = false).
Proof.
  intros text e He. rewrite (detected_flag _ _ He). split.
  - intros H. apply is_dependent_cue in H. destruct H as [H _].
    apply any_in_spec in H. destruct H as [k [Hk Hi]].
    exists k. split; [exact Hk | apply infixb_spec; exact Hi].
  - intros Hty.
    destruct (Handler._is_dependent_pii text (Handler.e_value e)
                                        (Handler.e_type e)) eqn:D;
      [|reflexivity].
    apply is_dependent_cue in D. destruct D as [_ D]. rewrite D in Hty.
    simpl in Hty. exfalso.
    repeat (destruct Hty as [Hty | Hty]; [vm_compute in Hty; discriminate|]).
    exact Hty.
Qed.

Lemma dependent_needs_cue_witness :
  In (Handler.mkEntity (lit "9876543210") (lit "phone") 19 29 true)
     (Handler._detect_pii_entities phone_query)
  /\ (exists k, In k Handler.computation_keywords /\ infix k (lower phone_query)).
Proof.
  assert (H : In (Handler.mkEntity (lit "9876543210") (lit "phone") 19 29 true)
                 (Handler._detect_pii_entities phone_query))
    by (vm_compute; left; reflexivity).
  split; [exact H|].
  exact (proj1 (dependent_needs_cue phone_query _ H) eq_refl).
Defined.

(** ** The backend-analysis path *)

(** C10: on the backend-analysis path the final response is the response of
    the responder, unchanged. *)
Theorem backend_final_is_llm_response :
  forall post user_query,
    Handler.final_response (Handler.process_query post user_query)
    = Handler.llm_response (Handler.process_query post user_query).
Proof.
  intros post user_query.
  unfold Handler.process_query, Handler._process_with_backend_analysis.
  destruct (Handler.nonempty _ && Handler.nonempty _); [reflexivity|].
  destruct (Handler.nonempty _); [reflexivity|].
  destruct (Handler.nonempty _); reflexivity.
Qed.

(** ** Empty and missing queries *)




(** ** Failure of the external service *)

Section ServiceFailure.
Variable post : str -> Handler.post_result.
Hypothesis failed : forall prompt, service_failed (post prompt) = true.

Lemma standard_response_failed (text : str) :
  Handler._generate_standard_response post text
  = Handler._generate_standard_response unreachable text.
Proof.
  unfold Handler._generate_standard_response.
  destruct (any_in Handler.math_words (lower text)
            && (2 <=? length (findall text Handler.number_re)));
    [reflexivity|].
  specialize (failed text). unfold unreachable.
  destruct (post text) as [|status_code body]; [reflexivity|].
  simpl in failed.
  destruct (status_code =? 200); [|reflexivity].
  destruct (Handler.candidate_text body); [discriminate | reflexivity].
Qed.

Lemma process_query_failed (user_query : str) :
  Handler.process_query post user_query
  = Handler.process_query unreachable user_query.
Proof.
  unfold Handler.process_query, Handler._process_with_backend_analysis,
    Handler._generate_mixed_dependency_response,
    Handler._generate_dependent_response,
    Handler._generate_non_dependent_response.
  rewrite !standard_response_failed. reflexivity.
Qed.

Lemma llm_response_failed (masked_query original_query : str) :
  Wrapper._generate_llm_response post masked_query original_query
  = Wrapper._generate_fallback_response original_query masked_query.
Proof.
  unfold Wrapper._generate_llm_response.
  specialize (failed masked_query).
  destruct (post masked_query) as [|status_code body]; [reflexivity|].
  simpl in failed.
  destruct (status_code =? 200); [|reflexivity].
  destruct body as [|[[|[txt|] rest]|]]; try reflexivity.
  discriminate.
Qed.
End ServiceFailure.

(** when the service answers with a candidate, its text is the response,
    unless the query is answered by the local arithmetic *)
Lemma standard_response_success (post : str -> Handler.post_result)
    (text txt : str) (rest : list (option str)) :
  post text
  = Handler.Response 200 (Handler.JsonData (Some (Some txt :: rest))) ->
  any_in Handler.math_words (lower text)
  && (2 <=? length (findall text Handler.number_re)) = false ->
  Handler._generate_standard_response post text = txt.
Proof.
  intros Hp Hm. unfold Handler._generate_standard_response.
  rewrite Hm, Hp. reflexivity.
Qed.

Example standard_response_echo :
  Handler._generate_standard_response echo (lit "hello there")
  = lit "hello there".
Proof.
  apply standard_response_success with (rest := []); reflexivity.
Qed.

Lemma standard_response_local (text : str) :
  Handler._generate_standard_response unreachable text <> [].
Proof.
  unfold Handler._generate_standard_response, unreachable.
  destruct (_ && _); discriminate.
Qed.

Lemma process_query_local_response (user_query : str) :
  Handler.llm_response (Handler.process_query unreachable user_query) <> [].
Proof.
  unfold Handler.process_query, Handler._process_with_backend_analysis.
  destruct (Handler.nonempty _ && Handler.nonempty _).
  - cbn [Handler.llm_response].
    unfold Handler._generate_mixed_dependency_response.
    destruct (map _ _); [apply standard_response_local|].
    destruct (any_in _ _); [discriminate | apply standard_response_local].
  - destruct (Handler.nonempty _).
    + cbn [Handler.llm_response].
      unfold Handler._generate_dependent_response.
      destruct (filter _ _); [apply standard_response_local|].
      destruct (any_in _ _); [discriminate | apply standard_response_local].
    + destruct (Handler.nonempty _); cbn [Handler.llm_response];
        apply standard_response_local.
Qed.

(** C7: when the external call fails (it raises, as on a timeout or a network
    error; it answers with another status than 200; its body is malformed),
    the query is answered by the local rules: the result record is the one
    produced with an unreachable service, its response is not empty, and the
    wrapper's responder returns its fallback response. *)
Theorem service_failure_recovered :
  forall post,
    (forall prompt, service_failed (post prompt) = true) ->
    forall user_query,
      Handler.process_query post user_query
      = Handler.process_query unreachable user_query
      /\ Handler.llm_response (Handler.process_query post user_query) <> []
      /\ (forall text,
             Handler._generate_standard_response post text
             = Handler._generate_standard_response unreachable text)
      /\ (forall masked_query,
             Wrapper._generate_llm_response post masked_query user_query
             = Wrapper._generate_fallback_response user_query masked_query).
Proof.
  intros post failed user_query. repeat split.
  - apply process_query_failed; exact failed.
  - rewrite (process_query_failed post failed).
    apply process_query_local_response.
  - intros text. apply standard_response_failed; exact failed.
  - intros masked_query. apply llm_response_failed; exact failed.
Qed.

Lemma service_failure_recovered_witness :
  (forall prompt, service_failed (bad_gateway prompt) = true)
  /\ Handler.llm_response (Handler.process_query bad_gateway (lit "hello there"))
     = Handler.fallback_message.
Proof.
  split; [intros prompt; reflexivity|].
  rewrite (proj1 (service_failure_recovered bad_gateway
                    (fun prompt => eq_refl) (lit "hello there"))).
  reflexivity.
Defined.

(** ** The substitution map *)

Lemma dict_set_keys_in (k v : str) (d : dict) :
  In k (keys d) -> keys (dict_set k v d) = keys d.
Proof.
  induction d as [|[k' v'] d IH]; simpl; [tauto|].
  destruct (str_eqb k k') eqn:E.
  - apply str_eqb_eq in E. subst. reflexivity.
  - apply str_eqb_neq in E. intros [H | H]; [congruence|].
    simpl. rewrite (IH H). reflexivity.
Qed.

Lemma dict_set_keys_new (k v : str) (d : dict) :
  ~ In k (keys d) -> keys (dict_set k v d) = keys d ++ [k].
Proof.
  induction d as [|[k' v'] d IH]; simpl; [reflexivity|].
  intros H. destruct (str_eqb k k') eqn:E.
  - apply str_eqb_eq in E. subst. tauto.
  - simpl. rewrite IH; [reflexivity | tauto].
Qed.

Lemma in_keys_dec (k : str) (d : dict) : {In k (keys d)} + {~ In k (keys d)}.
Proof. apply in_dec. apply list_eq_dec. apply ascii_dec. Qed.

Lemma dict_set_keys_NoDup (k v : str) (d : dict) :
  NoDup (keys d) -> NoDup (keys (dict_set k v d)).
Proof.
  intros H. destruct (in_keys_dec k d) as [Hin | Hout].
  - rewrite dict_set_keys_in; assumption.
  - rewrite dict_set_keys_new by assumption.
    apply NoDup_app; [exact H | repeat constructor; intros [] |].
    intros x Hx [<- | []]. contradiction.
Qed.

Lemma dict_set_keys_incl (k v : str) (d : dict) :
  forall x, In x (keys (dict_set k v d)) -> x = k \/ In x (keys d).
Proof.
  intros x. destruct (in_keys_dec k d) as [Hin | Hout].
  - rewrite dict_set_keys_in by assumption. auto.
  - rewrite dict_set_keys_new by assumption. rewrite in_app_iff.
    intros [H | [H | []]]; auto.
Qed.

Lemma keys_length (d : dict) : length (keys d) = length d.
Proof. apply length_map. Qed.

Section MapFacts.
Variable F : Faker.
Variable draw : gen F -> str * gen F.
Variable label : str.

Local Abbreviation step := (@FakerMasking.mask_one F draw label).

Lemma step_fields (st : FakerMasking.mstate F) (group : str) :
  FakerMasking.faker (step st group) = snd (draw (FakerMasking.faker st))
  /\ FakerMasking.replacements (step st group)
     = dict_set (fst (draw (FakerMasking.faker st))) group
                (FakerMasking.replacements st)
  /\ FakerMasking.detected (step st group)
     = FakerMasking.detected st ++ [label]
  /\ FakerMasking.masked (step st group)
     = replace group (fst (draw (FakerMasking.faker st))) (Some 1)
               (FakerMasking.masked st).
Proof.
  unfold FakerMasking.mask_one.
  destruct (draw (FakerMasking.faker st)); repeat split.
Qed.

(** one loop of [mask_text] over the matched values [groups] *)
Lemma loop_facts (groups : list str) :
  forall st,
    let st' := fold_left step groups st in
    let fakes := fst (@FakerMasking.draws F draw (length groups)
                                         (FakerMasking.faker st)) in
    FakerMasking.faker st'
    = snd (@FakerMasking.draws F draw (length groups) (FakerMasking.faker st))
    /\ length (FakerMasking.detected st')
       = length (FakerMasking.detected st) + length groups
    /\ (NoDup (keys (FakerMasking.replacements st)) ->
        NoDup (keys (FakerMasking.replacements st')))
    /\ (forall k, In k (keys (FakerMasking.replacements st')) ->
                  In k (keys (FakerMasking.replacements st)) \/ In k fakes)
    /\ (NoDup (keys (FakerMasking.replacements st) ++ fakes) ->
        keys (FakerMasking.replacements st')
        = keys (FakerMasking.replacements st) ++ fakes).
Proof.
  induction groups as [|group groups IH]; intros st; cbv zeta.
  - simpl. repeat split; auto; try lia.
    intros _. rewrite app_nil_r. reflexivity.
  - cbn [fold_left length FakerMasking.draws].
    destruct (step_fields st group) as [Sg [Sr [Sd _]]].
    specialize (IH (step st group)). cbv zeta in IH.
    rewrite Sg, Sr, Sd in IH.
    destruct (draw (FakerMasking.faker st)) as [fake g1] eqn:D.
    cbn [fst snd] in IH.
    destruct (@FakerMasking.draws F draw (length groups) g1) as [rest g2] eqn:R.
    cbn [fst snd] in *.
    destruct IH as [Hg [Hd [Hn [Hi He]]]].
    repeat split.
    + exact Hg.
    + rewrite Hd, length_app. simpl. lia.
    + intros H. apply Hn. apply dict_set_keys_NoDup. exact H.
    + intros k Hk. destruct (Hi k Hk) as [H | H].
      * apply dict_set_keys_incl in H. destruct H as [-> | H]; simpl; auto.
      * simpl; auto.
    + intros H.
      assert (Hout : ~ In fake (keys (FakerMasking.replacements st))).
      { intros Hin. apply NoDup_remove_2 in H. apply H.
        apply in_or_app. left. exact Hin. }
      rewrite He; rewrite dict_set_keys_new by exact Hout.
      * rewrite <- app_assoc. reflexivity.
      * rewrite <- app_assoc. simpl.
        replace (keys (FakerMasking.replacements st) ++ fake :: rest)
          with ((keys (FakerMasking.replacements st) ++ [fake]) ++ rest) in H
          by (rewrite <- app_assoc; reflexivity).
        rewrite <- app_assoc in H. exact H.
Qed.
End MapFacts.

Lemma draws_length (F : Faker) (draw : gen F -> str * gen F) (n : nat) :
  forall g, length (fst (FakerMasking.draws F draw n g)) = n.
Proof.
  induction n as [|n IH]; intros g; simpl; [reflexivity|].
  destruct (draw g) as [fake g1]. specialize (IH g1).
  destruct (FakerMasking.draws F draw n g1). simpl in *. congruence.
Qed.

Lemma findall_length (t : str) (r : regex) :
  length (findall t r) = length (finditer t r).
Proof. apply length_map. Qed.

(** what [mask_text] leaves in its map, against the values it drew *)
Lemma mask_run_facts (F : Faker) (text : str) (g : gen F) :
  let st := FakerMasking.mask_run F text g in
  let fakes := FakerMasking.drawn_values F text g in
  length (FakerMasking.detected st) = length fakes
  /\ NoDup (keys (FakerMasking.replacements st))
  /\ incl (keys (FakerMasking.replacements st)) fakes
  /\ (NoDup fakes -> keys (FakerMasking.replacements st) = fakes).
Proof.
  cbv zeta. unfold FakerMasking.mask_run, FakerMasking.drawn_values.
  set (phones := findall text FakerMasking.phone_re).
  set (emails := findall text FakerMasking.email_re).
  set (st0 := @FakerMasking.mask_init F text g).
  pose proof (@loop_facts F (FakerMasking.fake_phone F) (lit "phone") phones st0)
    as P.
  cbv zeta in P. destruct P as [Pg [Pd [Pn [Pi Pe]]]].
  set (st1 := fold_left (@FakerMasking.mask_one F (FakerMasking.fake_phone F)
                                                 (lit "phone")) phones st0) in *.
  pose proof (@loop_facts F (email F) (lit "email") emails st1) as E.
  cbv zeta in E. destruct E as [Eg [Ed [En [Ei Ee]]]].
  rewrite Pg in Ei, Ee.
  pose proof (draws_length F (FakerMasking.fake_phone F) (length phones) g)
    as Lp.
  pose proof (draws_length F (email F) (length emails)
                (snd (FakerMasking.draws F (FakerMasking.fake_phone F)
                                         (length phones) g))) as Le.
  change (FakerMasking.faker st0) with g in *.
  change (FakerMasking.replacements st0) with (@nil (str * str)) in *.
  change (FakerMasking.detected st0) with (@nil str) in *.
  destruct (FakerMasking.draws F (FakerMasking.fake_phone F) (length phones) g)
    as [fp g1].
  cbn [fst snd] in *.
  destruct (FakerMasking.draws F (email F) (length emails) g1) as [fe g2].
  cbn [fst snd] in *. simpl in Pd, Pi, Pe.
  repeat split.
  - rewrite Ed, Pd, length_app. lia.
  - apply En. apply Pn. constructor.
  - intros k Hk. apply in_or_app. destruct (Ei k Hk) as [H | H]; [|auto].
    destruct (Pi k H) as [[] | H']. auto.
  - intros Hnd. rewrite Ee.
    + rewrite Pe; [reflexivity|]. apply NoDup_app_remove_r in Hnd. exact Hnd.
    + rewrite Pe; [exact Hnd|]. apply NoDup_app_remove_r in Hnd. exact Hnd.
Qed.

Lemma dict_set_length (k v : str) (d : dict) :
  length (dict_set k v d) <= S (length d).
Proof.
  rewrite <- !keys_length. destruct (in_keys_dec k d) as [Hin | Hout].
  - rewrite dict_set_keys_in by assumption. lia.
  - rewrite dict_set_keys_new by assumption. rewrite length_app. simpl. lia.
Qed.

(** the placeholder loop of the wrapper keeps the keys unique and adds at
    most one key per entity *)
Lemma placeholder_loop_facts (F : Faker) (required_entities : list str)
    (pii_entities : list Wrapper.PiiEntity) :
  forall st : Wrapper.pstate F,
    NoDup (keys (Wrapper.fake_replacements st)) ->
    let st' := fold_left (@Wrapper.replace_placeholder F required_entities)
                         pii_entities st in
    NoDup (keys (Wrapper.fake_replacements st'))
    /\ length (Wrapper.fake_replacements st')
       <= length (Wrapper.fake_replacements st) + length pii_entities.
Proof.
  induction pii_entities as [|entity rest IH]; intros st Hn; cbv zeta;
    cbn [fold_left length].
  - split; [exact Hn | lia].
  - assert (Hstep :
              NoDup (keys (Wrapper.fake_replacements
                             (Wrapper.replace_placeholder required_entities
                                                          st entity)))
              /\ length (Wrapper.fake_replacements
                           (Wrapper.replace_placeholder required_entities
                                                        st entity))
                 <= S (length (Wrapper.fake_replacements st))).
    { unfold Wrapper.replace_placeholder.
      destruct (infixb _ _); [|split; [exact Hn | lia]].
      destruct (_ || _); [split; [exact Hn | simpl; lia]|].
      destruct (Wrapper._generate_fake_value _ _ _) as [fake_value g'].
      cbn [Wrapper.fake_replacements]. split.
      - apply dict_set_keys_NoDup. exact Hn.
      - apply dict_set_length. }
    destruct Hstep as [Hn' Hl'].
    destruct (IH _ Hn') as [Hn'' Hl'']. cbv zeta in Hl''.
    split; [exact Hn'' | lia].
Qed.

(** C8, as stated, fails: with a generator that repeats itself the two phone
    numbers of a text are masked and the map has a single key; the second
    entry has taken the place of the first, nothing was drawn again. *)
Lemma colliding_keys_overwrite :
  let F := const_faker 5 (lit "fake@example.org") in
  let st := FakerMasking.mask_run F (lit "1234567890 0987654321") tt in
  let ps := Wrapper.replace_placeholders F (lit "Call [PHONE] or [PHONE]")
              [Wrapper.mkPiiEntity (lit "PHONE") (lit "1234567890");
               Wrapper.mkPiiEntity (lit "PHONE") (lit "0987654321")] [] tt in
  FakerMasking.detected st = [lit "phone"; lit "phone"]
  /\ FakerMasking.replacements st = [(lit "5555555555", lit "0987654321")]
  /\ length (FakerMasking.replacements st) <> length (FakerMasking.detected st)
  /\ FakerMasking.drawn_values F (lit "1234567890 0987654321") tt
     = [lit "5555555555"; lit "5555555555"]
  /\ Wrapper.anonymized_text ps = lit "Call 5555555555 or 5555555555"
  /\ Wrapper.fake_replacements ps = [(lit "5555555555", lit "0987654321")].
Proof. vm_compute. repeat split; discriminate. Qed.

(** the keys of the map against the values that were drawn *)
Lemma substitution_keys_facts (F : Faker) (text : str) (g : gen F) :
  let st := FakerMasking.mask_run F text g in
  let fakes := FakerMasking.drawn_values F text g in
  NoDup (keys (FakerMasking.replacements st))
  /\ incl (keys (FakerMasking.replacements st)) fakes
  /\ length fakes = length (FakerMasking.detected st)
  /\ length (FakerMasking.replacements st) <= length (FakerMasking.detected st)
  /\ (NoDup fakes ->
      keys (FakerMasking.replacements st) = fakes
      /\ length (FakerMasking.replacements st)
         = length (FakerMasking.detected st))
  /\ (forall pii_entities required_entities,
         let ps := Wrapper.replace_placeholders F text pii_entities
                     required_entities g in
         NoDup (keys (Wrapper.fake_replacements ps))
         /\ length (Wrapper.fake_replacements ps) <= length pii_entities).
Proof.
  cbv zeta.
  destruct (mask_run_facts F text g) as [Hd [Hn [Hi He]]].
  split; [exact Hn|]. split; [exact Hi|]. split; [symmetry; exact Hd|].
  split; [|split].
  - rewrite Hd, <- keys_length. apply NoDup_incl_length; assumption.
  - intros Hnd. split; [apply He; exact Hnd|].
    rewrite Hd, <- keys_length, He by exact Hnd. reflexivity.
  - intros pii_entities required_entities.
    unfold Wrapper.replace_placeholders.
    apply (@placeholder_loop_facts F required_entities pii_entities
             (Wrapper.mkPstate F text [] g)).
    constructor.
Qed.

(** ** [str.replace] *)

Lemma infix_nil (t : str) : infix [] t.
Proof. exists [], t. reflexivity. Qed.

Lemma infix_tail (p t : str) (c : ascii) : infix p t -> infix p (c :: t).
Proof. intros [a [b ->]]. exists (c :: a), b. reflexivity. Qed.

Lemma infix_prefix (p b : str) : infix p (p ++ b).
Proof. exists [], b. reflexivity. Qed.

Lemma prefixb_app (p b : str) : prefixb p (p ++ b) = true.
Proof. apply prefixb_spec. exists b. reflexivity. Qed.

Lemma not_infix_not_prefix (p t : str) : ~ infix p t -> prefixb p t = false.
Proof.
  intros H. destruct (prefixb p t) eqn:E; [|reflexivity].
  exfalso. apply H. apply prefixb_spec in E. destruct E as [b ->].
  apply infix_prefix.
Qed.

Lemma replace_scan_noop (old new : str) (count : option nat) (t : str) :
  ~ infix old t -> replace_scan old new count 0 t = t.
Proof.
  induction t as [|c t IH]; intros H; simpl; [reflexivity|].
  change (match old with
          | [] => true
          | x :: p' => Ascii.eqb x c && prefixb p' t
          end) with (prefixb old (c :: t)).
  rewrite (not_infix_not_prefix H), andb_false_r.
  rewrite IH; [reflexivity|]. intros Hi. apply H. apply infix_tail. exact Hi.
Qed.

(** a text in which [old] does not occur is left as it is *)
Lemma replace_noop (old new : str) (count : option nat) (t : str) :
  ~ infix old t -> replace old new count t = t.
Proof.
  intros H. destruct old as [|o old].
  - exfalso. apply H. apply infix_nil.
  - apply replace_scan_noop. exact H.
Qed.

Lemma replace_scan_spent (old new : str) (t : str) :
  replace_scan old new (Some 0) 0 t = t.
Proof.
  induction t as [|c t IH]; simpl; [reflexivity|]. rewrite IH. reflexivity.
Qed.

Lemma replace_scan_skip (old new : str) (count : option nat) :
  forall (t : str) (k : nat),
    k <= length t ->
    replace_scan old new count k t = replace_scan old new count 0 (skipn k t).
Proof.
  induction t as [|c t IH]; intros k Hk.
  - simpl in Hk. assert (k = 0) by lia. subst. reflexivity.
  - destruct k as [|k]; [reflexivity|].
    simpl in Hk. cbn [replace_scan skipn]. apply IH. lia.
Qed.

(** ** Reconstruction *)

Lemma unmask_noop (m : dict) :
  forall r, (forall f, In f (keys m) -> ~ infix f r) ->
            FakerMasking.unmask_text r m = r.
Proof.
  unfold FakerMasking.unmask_text.
  induction m as [|[f o] m IH]; intros r H; simpl; [reflexivity|].
  rewrite replace_noop by (apply H; simpl; auto).
  apply IH. intros f' Hf'. apply H. simpl. auto.
Qed.

(** C9, as stated, fails: when the original value contains the synthetic one,
    a second pass substitutes again. *)
Lemma reconstruction_not_idempotent :
  FakerMasking.unmask_text
    (FakerMasking.unmask_text (lit "Mail a@b.com")
                              [(lit "a@b.com", lit "xa@b.com")])
    [(lit "a@b.com", lit "xa@b.com")]
  <> FakerMasking.unmask_text (lit "Mail a@b.com")
                              [(lit "a@b.com", lit "xa@b.com")].
Proof. vm_compute. discriminate. Qed.

(** C9, amended: for every response and substitution map, when the first
    pass has left no synthetic value of the map in the text, applying
    reconstruction a second time with the same map yields the same result as
    applying it once. *)
Theorem reconstruction_idempotent_when_removed :
  forall (response : str) (m : dict),
    (forall f, In f (keys m) -> ~ infix f (FakerMasking.unmask_text response m)) ->
    FakerMasking.unmask_text (FakerMasking.unmask_text response m) m
    = FakerMasking.unmask_text response m.
Proof. intros response m H. apply unmask_noop. exact H. Qed.

Lemma reconstruction_idempotent_witness :
  (forall f, In f (keys [(lit "5555555555", lit "9876543210")]) ->
             ~ infix f (FakerMasking.unmask_text
                          (lit "Your number 5555555555 is saved")
                          [(lit "5555555555", lit "9876543210")]))
  /\ FakerMasking.unmask_text
       (FakerMasking.unmask_text (lit "Your number 5555555555 is saved")
                                 [(lit "5555555555", lit "9876543210")])
       [(lit "5555555555", lit "9876543210")]
     = lit "Your number 9876543210 is saved".
Proof.
  assert (H : forall f, In f (keys [(lit "5555555555", lit "9876543210")]) ->
                        ~ infix f (FakerMasking.unmask_text
                                     (lit "Your number 5555555555 is saved")
                                     [(lit "5555555555", lit "9876543210")])).
  { intros f [<- | []]. apply infixb_false. vm_compute. reflexivity. }
  split; [exact H|].
  rewrite (reconstruction_idempotent_when_removed _ _ H). vm_compute. reflexivity.
Defined.

(** ** Masking one value and unmasking it *)

Lemma str_find_infix (p t : str) : infix p t -> exists n, str_find p t = Some n.
Proof.
  induction t as [|c t IH]; intros H; cbn [str_find].
  - destruct (prefixb p []) eqn:E; [eauto|].
    exfalso. apply (not_true_iff_false _) in E. apply E.
    destruct H as [a [b H]]. destruct a; [|discriminate].
    apply prefixb_spec. exists b. exact H.
  - destruct (prefixb p (c :: t)) eqn:E; [eauto|].
    destruct IH as [n Hn].
    + destruct H as [a [b H]]. destruct a as [|c' a].
      * exfalso. apply (not_true_iff_false _) in E. apply E.
        apply prefixb_spec. exists b. exact H.
      * inversion H; subst. exists a, b. reflexivity.
    + rewrite Hn. simpl. eauto.
Qed.

Lemma str_find_bound (p t : str) (n : nat) :
  str_find p t = Some n -> n + length p <= length t.
Proof.
  revert n; induction t as [|c t IH]; intros n; cbn [str_find].
  - destruct (prefixb p []) eqn:E; [|discriminate].
    intros H; inversion H; subst.
    apply prefixb_spec in E. destruct E as [b E]. rewrite E, length_app. lia.
  - destruct (prefixb p (c :: t)) eqn:E.
    + intros H; inversion H; subst.
      apply prefixb_spec in E. destruct E as [b E]. rewrite E, length_app. lia.
    + destruct (str_find p t) as [m|]; [|discriminate].
      simpl. intros H; inversion H; subst. specialize (IH m eq_refl).
      simpl. lia.
Qed.

(** the scan up to and including the first occurrence of a non-empty [old] *)
Lemma replace_scan_first (o : ascii) (os new : str) (count : option nat) :
  can count = true ->
  forall (t : str) (n : nat),
    str_find (o :: os) t = Some n ->
    replace_scan (o :: os) new count 0 t
    = firstn n t ++ new
      ++ replace_scan (o :: os) new (dec count) 0 (skipn (n + length (o :: os)) t).
Proof.
  intros Hc. induction t as [|c t IH]; intros n; cbn [str_find].
  - simpl. discriminate.
  - destruct (prefixb (o :: os) (c :: t)) eqn:E.
    + intros H; inversion H; subst. cbn [replace_scan]. rewrite Hc, E.
      cbn [andb firstn app Nat.add].
      apply prefixb_spec in E. destruct E as [b E]. inversion E; subst.
      rewrite replace_scan_skip by (simpl; rewrite length_app; lia).
      do 2 f_equal. simpl. rewrite Nat.sub_0_r. reflexivity.
    + destruct (str_find (o :: os) t) as [m|] eqn:Fm; [|discriminate].
      simpl option_map. intros H; inversion H; subst.
      cbn [replace_scan]. rewrite E, andb_false_r.
      rewrite (IH m eq_refl). reflexivity.
Qed.

Lemma replace_empty_spent (new t : str) : replace_empty new (Some 0) t = t.
Proof. destruct t; reflexivity. Qed.

(** [t.replace(old, new, 1)] puts [new] at the first occurrence of [old] *)
Lemma replace_first (old new t : str) (n : nat) :
  str_find old t = Some n ->
  replace old new (Some 1) t = firstn n t ++ new ++ skipn (n + length old) t.
Proof.
  destruct old as [|o os]; intros H.
  - destruct t as [|c t]; simpl in H; inversion H; subst; simpl.
    + rewrite app_nil_r. reflexivity.
    + rewrite replace_empty_spent. reflexivity.
  - unfold replace. rewrite (replace_scan_first o os new (Some 1) eq_refl t H).
    simpl dec. rewrite replace_scan_spent. reflexivity.
Qed.

(** [t.replace(old, new)] when [old] occurs at [n] and not after that *)
Lemma replace_single (old new t : str) (n : nat) :
  str_find old t = Some n ->
  ~ infix old (skipn (n + length old) t) ->
  replace old new None t = firstn n t ++ new ++ skipn (n + length old) t.
Proof.
  destruct old as [|o os]; intros H Hn.
  - exfalso. apply Hn. apply infix_nil.
  - unfold replace. rewrite (replace_scan_first o os new None eq_refl t H).
    simpl dec. rewrite replace_scan_noop by exact Hn. reflexivity.
Qed.

Lemma str_find_split (p t : str) (n : nat) :
  str_find p t = Some n -> t = firstn n t ++ p ++ skipn (n + length p) t.
Proof.
  revert n; induction t as [|c t IH]; intros n; cbn [str_find].
  - destruct (prefixb p []) eqn:E; [|discriminate].
    intros H; inversion H; subst. apply prefixb_spec in E.
    destruct E as [b E]. destruct p; [reflexivity | discriminate].
  - destruct (prefixb p (c :: t)) eqn:E.
    + intros H; inversion H; subst. apply prefixb_spec in E.
      destruct E as [b E]. rewrite E at 1. cbn [firstn app Nat.add].
      f_equal. rewrite E, skipn_app, skipn_all, Nat.sub_diag. reflexivity.
    + destruct (str_find p t) as [m|]; [|discriminate].
      simpl. intros H; inversion H; subst. cbn [firstn app Nat.add skipn].
      f_equal. apply (IH m). reflexivity.
Qed.

Lemma slice_infix (a b : nat) (t : str) : infix (slice a b t) t.
Proof.
  unfold slice. exists (firstn a t), (skipn (b - a) (skipn a t)).
  rewrite firstn_skipn, firstn_skipn. reflexivity.
Qed.

Lemma findall_infix (t : str) (r : regex) (v : str) :
  In v (findall t r) -> infix v t.
Proof.
  unfold findall. rewrite in_map_iff. intros [se [<- _]]. apply slice_infix.
Qed.

Lemma mask_run_detected_length (F : Faker) (text : str) (g : gen F) :
  length (FakerMasking.detected (FakerMasking.mask_run F text g))
  = length (findall text FakerMasking.phone_re)
    + length (findall text FakerMasking.email_re).
Proof.
  unfold FakerMasking.mask_run.
  destruct (@loop_facts F (email F) (lit "email")
              (findall text FakerMasking.email_re)
              (fold_left (@FakerMasking.mask_one F (FakerMasking.fake_phone F)
                                                  (lit "phone"))
                         (findall text FakerMasking.phone_re)
                         (@FakerMasking.mask_init F text g)))
    as [_ [Ed _]].
  destruct (@loop_facts F (FakerMasking.fake_phone F) (lit "phone")
              (findall text FakerMasking.phone_re)
              (@FakerMasking.mask_init F text g)) as [_ [Pd _]].
  rewrite Ed, Pd. reflexivity.
Qed.

(** masking one value of the text and unmasking it *)
Lemma mask_one_round_trip (F : Faker) (draw : gen F -> str * gen F)
    (label text original : str) (g : gen F) :
  infix original text ->
  let st := @FakerMasking.mask_one F draw label
              (@FakerMasking.mask_init F text g) original in
  (forall fake value n,
      In (fake, value) (FakerMasking.replacements st) ->
      str_find value text = Some n ->
      occurs_only_at fake (FakerMasking.masked st) n) ->
  FakerMasking.unmask_text (FakerMasking.masked st)
                           (FakerMasking.replacements st) = text.
Proof.
  intros Hin. cbv zeta. unfold FakerMasking.mask_one, FakerMasking.mask_init.
  cbn [FakerMasking.faker FakerMasking.masked FakerMasking.replacements
       FakerMasking.detected].
  destruct (draw g) as [fake g'].
  cbn [FakerMasking.masked FakerMasking.replacements dict_set].
  intros H. destruct (str_find_infix Hin) as [n Hn].
  destruct (H fake original n (or_introl eq_refl) Hn) as [Hf Hafter].
  unfold FakerMasking.unmask_text. cbn [fold_left fst snd].
  rewrite (@replace_single fake original _ n Hf Hafter).
  rewrite (@replace_first original fake text n Hn).
  pose proof (str_find_bound _ _ Hn) as Hb.
  assert (Ln : length (firstn n text) = n) by (apply firstn_length_le; lia).
  rewrite firstn_app, Ln, Nat.sub_diag, firstn_O, app_nil_r.
  rewrite firstn_all2 by lia.
  rewrite skipn_app, Ln.
  rewrite (skipn_all2 (firstn n text)) by lia.
  replace (n + length fake - n) with (length fake) by lia.
  rewrite skipn_app, skipn_all, Nat.sub_diag. cbn [skipn app].
  symmetry. apply str_find_split. exact Hn.
Qed.

(** C2, as stated, fails: the text holds, besides the phone number, the very
    value the generator draws for it; unmasking turns both into the number. *)
Lemma mask_unmask_changes_text :
  let F := const_faker 5 (lit "fake@example.org") in
  let text := lit "1234567890 x5555555555" in
  let st := FakerMasking.mask_run F text tt in
  FakerMasking.masked st = lit "5555555555 x5555555555"
  /\ FakerMasking.replacements st = [(lit "5555555555", lit "1234567890")]
  /\ FakerMasking.unmask_text (FakerMasking.masked st)
                              (FakerMasking.replacements st)
     = lit "1234567890 x1234567890"
  /\ FakerMasking.unmask_text (FakerMasking.masked st)
                              (FakerMasking.replacements st) <> text.
Proof. vm_compute. repeat split; discriminate. Qed.

(** the round trip of a text in which [mask_text] detects at most one value:
    it is enough that the synthetic value is found first where it was put and
    not again after that place *)
Lemma mask_unmask_single_value :
  forall (F : Faker) (text : str) (g : gen F),
    let st := FakerMasking.mask_run F text g in
    length (FakerMasking.detected st) <= 1 ->
    (forall fake original n,
        In (fake, original) (FakerMasking.replacements st) ->
        str_find original text = Some n ->
        occurs_only_at fake (FakerMasking.masked st) n) ->
    FakerMasking.unmask_text (FakerMasking.masked st)
                             (FakerMasking.replacements st) = text.
Proof.
  intros F text g. cbv zeta. rewrite mask_run_detected_length.
  unfold FakerMasking.mask_run.
  destruct (findall text FakerMasking.phone_re) as [|p [|p2 ps]] eqn:Ep;
    destruct (findall text FakerMasking.email_re) as [|e [|e2 es]] eqn:Ee;
    cbn [length fold_left]; intros Hlen H; try (exfalso; lia).
  - reflexivity.
  - apply mask_one_round_trip; [|exact H].
    apply findall_infix with (r := FakerMasking.email_re).
    rewrite Ee. left. reflexivity.
  - apply mask_one_round_trip; [|exact H].
    apply findall_infix with (r := FakerMasking.phone_re).
    rewrite Ep. left. reflexivity.
Qed.

Lemma mask_unmask_single_value_witness :
  let text := lit "call 1234567890 now" in
  let st := FakerMasking.mask_run counting_faker text 0%Z in
  length (FakerMasking.detected st) <= 1
  /\ (forall fake original n,
         In (fake, original) (FakerMasking.replacements st) ->
         str_find original text = Some n ->
         occurs_only_at fake (FakerMasking.masked st) n)
  /\ FakerMasking.masked st = lit "call 0123456789 now"
  /\ FakerMasking.unmask_text (FakerMasking.masked st)
                              (FakerMasking.replacements st) = text.
Proof.
  cbv zeta.
  assert (L : length (FakerMasking.detected
                        (FakerMasking.mask_run counting_faker
                           (lit "call 1234567890 now") 0%Z)) <= 1)
    by (vm_compute; lia).
  assert (H : forall fake original n,
             In (fake, original)
                (FakerMasking.replacements
                   (FakerMasking.mask_run counting_faker
                      (lit "call 1234567890 now") 0%Z)) ->
             str_find original (lit "call 1234567890 now") = Some n ->
             occurs_only_at fake
               (FakerMasking.masked
                  (FakerMasking.mask_run counting_faker
                     (lit "call 1234567890 now") 0%Z)) n).
  { intros fake original n Hin.
    assert (E : (fake, original) = (lit "0123456789", lit "1234567890")).
    { vm_compute in Hin. destruct Hin as [E | []]. symmetry. exact E. }
    inversion E; subst. intros Hn.
    assert (n = 5) by (vm_compute in Hn; inversion Hn; reflexivity). subst.
    split; [vm_compute; reflexivity|].
    apply infixb_false. vm_compute. reflexivity. }
  split; [exact L|]. split; [exact H|]. split; [vm_compute; reflexivity|].
  exact (mask_unmask_single_value counting_faker (lit "call 1234567890 now")
           0%Z L H).
Defined.

(** ** Masking by placeholders *)

Lemma insert_desc_perm (x : Handler.Entity) (l : list Handler.Entity) :
  Permutation (x :: l) (Handler.insert_desc x l).
Proof.
  induction l as [|y l IH]; simpl; [apply Permutation_refl|].
  destruct (Handler.e_start y <=? Handler.e_start x); [apply Permutation_refl|].
  eapply Permutation_trans; [apply perm_swap|]. apply perm_skip. exact IH.
Qed.

Lemma sorted_desc_perm (es : list Handler.Entity) :
  Permutation es (Handler.sorted_desc es).
Proof.
  induction es as [|x es IH]; simpl; [apply Permutation_refl|].
  eapply Permutation_trans; [|apply insert_desc_perm].
  apply perm_skip. exact IH.
Qed.

Lemma insert_desc_sorted (x : Handler.Entity) (l : list Handler.Entity) :
  StronglySorted start_ge l -> StronglySorted start_ge (Handler.insert_desc x l).
Proof.
  induction 1 as [|y l S IH F]; simpl.
  - repeat constructor.
  - destruct (Nat.leb_spec (Handler.e_start y) (Handler.e_start x)) as [L | G].
    + constructor; [constructor; assumption|].
      constructor; [exact L|].
      eapply Forall_impl; [|exact F]. unfold start_ge. intros b Hb. lia.
    + constructor; [exact IH|].
      apply Forall_forall. intros b Hb.
      apply (Permutation_in _ (Permutation_sym (insert_desc_perm x l))) in Hb.
      destruct Hb as [<- | Hb]; [unfold start_ge; lia|].
      rewrite Forall_forall in F. apply F. exact Hb.
Qed.

Lemma sorted_desc_sorted (es : list Handler.Entity) :
  StronglySorted start_ge (Handler.sorted_desc es).
Proof.
  induction es as [|x es IH]; simpl; [constructor|].
  apply insert_desc_sorted. exact IH.
Qed.

Lemma chain_below (l : list Handler.Entity) :
  forall bound e, chain bound l -> In e l -> Handler.e_end e <= bound.
Proof.
  induction l as [|x l IH]; intros bound e; simpl; [tauto|].
  intros [Hx [Hb Hc]] [<- | He]; [exact Hb|].
  specialize (IH _ _ Hc He). lia.
Qed.

Lemma sorted_chain (l : list Handler.Entity) :
  forall bound,
    StronglySorted start_ge l -> NoDup l ->
    (forall e, In e l ->
               Handler.e_start e < Handler.e_end e /\ Handler.e_end e <= bound) ->
    (forall a b, In a l -> In b l -> a <> b -> disjoint a b) ->
    chain bound l.
Proof.
  induction l as [|x l IH]; intros bound S N Hb Hd; simpl; [exact I|].
  inversion S as [|? ? S' F]; subst. inversion N as [|? ? Hx N']; subst.
  destruct (Hb x (or_introl eq_refl)) as [Hx1 Hx2].
  split; [exact Hx1|]. split; [exact Hx2|].
  apply IH; auto.
  - intros e He. destruct (Hb e (or_intror He)) as [He1 He2].
    split; [exact He1|].
    rewrite Forall_forall in F. specialize (F e He). unfold start_ge in F.
    assert (Hne : x <> e) by (intros ->; contradiction).
    destruct (Hd x e (or_introl eq_refl) (or_intror He) Hne) as [D | D]; lia.
  - intros a b Ha Hb'. apply Hd; right; assumption.
Qed.

(** a text cut at a character that [v] does not have *)
Lemma infix_split_char (v a b : str) (c : ascii) :
  ~ In c v -> infix v (a ++ c :: b) -> infix v a \/ infix v b.
Proof.
  intros Hc [x [y E]]. apply app_eq_app in E.
  destruct E as [l [[Ea Ey] | [Ex Eb]]].
  - apply app_eq_app in Ey. destruct Ey as [l2 [[Ev Ecb] | [El Ey]]].
    + destruct l2 as [|c' l2].
      * left. exists x, []. rewrite Ea, Ev, !app_nil_r. reflexivity.
      * exfalso. apply Hc. inversion Ecb; subst.
        apply in_or_app. right. left. reflexivity.
    + left. exists x, l2. rewrite Ea, El. reflexivity.
  - destruct l as [|c' l]; simpl in Eb.
    + destruct v as [|c' v].
      * left. apply infix_nil.
      * exfalso. apply Hc. inversion Eb; subst. left. reflexivity.
    + right. inversion Eb; subst. exists l, y. reflexivity.
Qed.

Lemma mask_shape (ty : str) :
  exists inner,
    Handler._get_mask_for_type ty = "["%char :: inner
    /\ exists front, Handler._get_mask_for_type ty = front ++ ["]"%char].
Proof.
  unfold Handler._get_mask_for_type.
  repeat match goal with
         | |- context [if ?b then _ else _] => destruct b
         end;
    (eexists; split; [reflexivity|]);
    match goal with
    | |- exists front, lit ?m = _ =>
        exists (removelast (lit m)); reflexivity
    end.
Qed.

(** an occurrence of [v] in a part of the text, as an occurrence in the text *)
Lemma infix_slice (v t : str) (lo hi : nat) :
  lo <= hi -> hi <= length t -> infix v (slice lo hi t) ->
  exists n, lo <= n /\ n + length v <= hi /\ slice n (n + length v) t = v.
Proof.
  intros Hle Hhi [x [y E]].
  exists (lo + length x).
  assert (Ls : length (slice lo hi t) = hi - lo).
  { unfold slice. rewrite length_firstn, length_skipn. lia. }
  pose proof Ls as Ls'. rewrite E, !length_app in Ls'.
  split; [lia|]. split; [lia|].
  unfold slice in *.
  replace (lo + length x + length v - (lo + length x)) with (length v) by lia.
  replace (lo + length x) with (length x + lo) by lia.
  rewrite <- skipn_skipn.
  assert (Es : skipn lo t = (x ++ v ++ y) ++ skipn (hi - lo) (skipn lo t)).
  { rewrite <- E. symmetry. apply firstn_skipn. }
  rewrite Es, <- !app_assoc, skipn_app, skipn_all, Nat.sub_diag.
  cbn [skipn app]. rewrite firstn_app, firstn_all, Nat.sub_diag.
  cbn [firstn]. apply app_nil_r.
Qed.

Section MaskedValue.
Variable text v : str.
Hypothesis no_open : ~ In "["%char v.
Hypothesis no_close : ~ In "]"%char v.

Lemma in_head_of_text (bound : nat) :
  bound <= length text -> infix v (firstn bound text) ->
  exists n, stands_below v text bound [] n.
Proof.
  intros Hb H.
  assert (E : firstn bound text = slice 0 bound text).
  { unfold slice. rewrite Nat.sub_0_r. reflexivity. }
  rewrite E in H.
  destruct (@infix_slice v text 0 bound (Nat.le_0_l bound) Hb H) as [n [_ [Hn Hs]]].
  exists n. repeat split; auto. intros e [].
Qed.

Lemma mask_step_cut (bound : nat) (rest : str) (e : Handler.Entity) :
  bound <= length text ->
  Handler.e_start e < Handler.e_end e -> Handler.e_end e <= bound ->
  Handler.mask_step (firstn bound text ++ rest) e
  = firstn (Handler.e_start e) text
    ++ (Handler._get_mask_for_type (Handler.e_type e)
        ++ slice (Handler.e_end e) bound text ++ rest).
Proof.
  intros Hb Hse Heb. unfold Handler.mask_step.
  assert (L : length (firstn bound text) = bound)
    by (apply firstn_length_le; exact Hb).
  rewrite firstn_app, skipn_app, L, firstn_firstn.
  replace (Handler.e_start e - bound) with 0 by lia.
  replace (Handler.e_end e - bound) with 0 by lia.
  replace (Nat.min (Handler.e_start e) bound) with (Handler.e_start e) by lia.
  cbn [firstn skipn]. rewrite app_nil_r, skipn_firstn_comm.
  reflexivity.
Qed.

(** the loop of [_mask_non_dependent_pii] from the entity that ends below
    [bound] on; [rest] is what the turns before have written *)
Lemma mask_loop_occurrence (l : list Handler.Entity) :
  forall bound rest,
    bound <= length text ->
    chain bound l ->
    (forall e, In e l ->
               ~ infix v (Handler._get_mask_for_type (Handler.e_type e))) ->
    (rest = [] \/ exists rest', rest = "["%char :: rest') ->
    infix v (fold_left Handler.mask_step l (firstn bound text ++ rest)) ->
    infix v rest \/ exists n, stands_below v text bound l n.
Proof.
  induction l as [|e l IH]; intros bound rest Hb Hc Hm Hr; cbn [fold_left].
  - intros H. destruct Hr as [-> | [rest' ->]].
    + rewrite app_nil_r in H. right. apply in_head_of_text; assumption.
    + apply (@infix_split_char v _ _ _ no_open) in H. destruct H as [H | H].
      * right. apply in_head_of_text; assumption.
      * left. apply infix_tail. exact H.
  - destruct Hc as [Hse [Heb Hc]].
    rewrite (@mask_step_cut bound rest e Hb Hse Heb).
    destruct (mask_shape (Handler.e_type e)) as [inner [Ei [front Ef]]].
    intros H. apply IH in H.
    + destruct H as [H | [n [Hn [Hs Ho]]]].
      * rewrite Ef, <- app_assoc in H. cbn [app] in H.
        apply (@infix_split_char v _ _ _ no_close) in H.
        destruct H as [H | H].
        { exfalso. apply (Hm e (or_introl eq_refl)). rewrite Ef.
          destruct H as [x [y ->]]. exists x, (y ++ ["]"%char]).
          rewrite <- !app_assoc. reflexivity. }
        assert (G : infix v (slice (Handler.e_end e) bound text) ->
                    exists n, stands_below v text bound (e :: l) n).
        { intros G. destruct (@infix_slice v text _ bound Heb Hb G) as [n [Hlo [Hhi Hs]]].
          exists n. repeat split; auto.
          intros e' [<- | He']; [right; exact Hlo|].
          right. pose proof (@chain_below l _ _ Hc He'). lia. }
        destruct Hr as [-> | [rest' ->]].
        { rewrite app_nil_r in H. right. apply G. exact H. }
        apply (@infix_split_char v _ _ _ no_open) in H. destruct H as [H | H].
        { right. apply G. exact H. }
        left. apply infix_tail. exact H.
      * right. exists n. repeat split; [lia | exact Hs |].
        intros e' [<- | He']; [left; exact Hn | apply Ho; exact He'].
    + lia.
    + exact Hc.
    + intros e' He'. apply Hm. right. exact He'.
    + right. rewrite Ei. cbn [app]. eauto.
Qed.
End MaskedValue.

(** ** Spans of the detected entities *)

Section SpanFacts.
Variable t : str.

Lemma run_le (p : ascii -> bool) (u : str) : run p u <= length u.
Proof.
  induction u as [|c u IH]; simpl; [lia|]. destruct (p c); simpl; lia.
Qed.

Lemma rep_max_le (p : ascii -> bool) (hi : option nat) (i : nat) :
  i <= length t -> i + rep_max t p hi i <= length t.
Proof.
  intros Hi. unfold rep_max.
  pose proof (run_le p (skipn i t)) as H. rewrite length_skipn in H.
  destruct hi; lia.
Qed.

(** a match takes at least [min_len r] characters and ends in the text *)
Lemma rmatch_span (r : regex) :
  forall i k e,
    i <= length t -> rmatch t r i k = Some e ->
    exists j, i + min_len r <= j /\ j <= length t /\ k j = Some e.
Proof.
  induction r as [|p|r1 IH1 r2 IH2|r1 IH1 r2 IH2|p lo hi|];
    intros i k e Hi; simpl.
  - intros H. exists i. repeat split; auto; lia.
  - destruct (nth_error t i) as [c|] eqn:N; [|discriminate].
    destruct (p c); [|discriminate]. intros H. exists (S i).
    assert (i < length t) by (apply nth_error_Some; congruence).
    repeat split; auto; lia.
  - intros H. destruct (IH1 _ _ _ Hi H) as [j [Hj [Hl H2]]].
    destruct (IH2 _ _ _ Hl H2) as [j' [Hj' [Hl' H3]]].
    exists j'. repeat split; auto; lia.
  - destruct (rmatch t r1 i k) eqn:M1.
    + intros H; inversion H; subst.
      destruct (IH1 _ _ _ Hi M1) as [j [Hj [Hl H2]]].
      exists j. repeat split; auto; lia.
    + intros H. destruct (IH2 _ _ _ Hi H) as [j [Hj [Hl H2]]].
      exists j. repeat split; auto; lia.
  - intros H. destruct (try_down_some _ _ _ H) as [m [Hm [Hlo Hk]]].
    pose proof (rep_max_le p hi Hi).
    exists (i + m). repeat split; auto; lia.
  - destruct (word_boundary t i); [|discriminate]. intros H.
    exists i. repeat split; auto; lia.
Qed.

Lemma search_from_span (r : regex) :
  forall fuel pos s0 e0,
    pos + fuel <= length t ->
    search_from t r fuel pos = Some (s0, e0) ->
    s0 + min_len r <= e0 /\ e0 <= length t.
Proof.
  induction fuel as [|f IH]; intros pos s0 e0 Hp; simpl;
    destruct (match_at t r pos) as [e|] eqn:M; try discriminate.
  - intros H; inversion H; subst. unfold match_at in M.
    destruct (@rmatch_span r s0 Some e0 ltac:(lia) M) as [j [Hj [Hl E]]].
    inversion E; subst. auto.
  - intros H; inversion H; subst. unfold match_at in M.
    destruct (@rmatch_span r s0 Some e0 ltac:(lia) M) as [j [Hj [Hl E]]].
    inversion E; subst. auto.
  - intros H. apply IH in H; [exact H | lia].
Qed.

Lemma finditer_from_span (r : regex) :
  forall fuel pos,
    Forall (fun se => fst se + min_len r <= snd se /\ snd se <= length t)
           (finditer_from t r fuel pos).
Proof.
  induction fuel as [|f IH]; intros pos; simpl; [constructor|].
  destruct (Nat.ltb_spec (length t) pos) as [Hlt | Hge]; [constructor|].
  destruct (search t r pos) as [[s0 e0]|] eqn:Sr; [|constructor].
  constructor; [|apply IH].
  unfold search in Sr. apply search_from_span in Sr; [exact Sr | lia].
Qed.
End SpanFacts.

Lemma entities_of_span (text : str) (tr : str * regex) :
  Forall (fun e => Handler.e_start e + min_len (snd tr) <= Handler.e_end e
                   /\ Handler.e_end e <= length text)
         (Handler.entities_of text tr).
Proof.
  unfold Handler.entities_of. apply Forall_map. simpl.
  apply finditer_from_span.
Qed.

(** every detected span is within the text and not empty *)
Lemma detected_span (text : str) (e : Handler.Entity) :
  In e (Handler._detect_pii_entities text) ->
  Handler.e_start e < Handler.e_end e /\ Handler.e_end e <= length text.
Proof.
  unfold Handler._detect_pii_entities. rewrite in_flat_map.
  intros [tr [Htr He]].
  pose proof (entities_of_span text tr) as F. rewrite Forall_forall in F.
  specialize (F e He).
  assert (M : 1 <= min_len (snd tr)).
  { simpl in Htr.
    repeat (destruct Htr as [<- | Htr]; [vm_compute; lia|]). destruct Htr. }
  lia.
Qed.

Lemma detect_order_irrefl (e : Handler.Entity) : ~ detect_order e e.
Proof. unfold detect_order. lia. Qed.

Lemma StronglySorted_NoDup {A : Type} (R : A -> A -> Prop) (l : list A) :
  (forall x, ~ R x x) -> StronglySorted R l -> NoDup l.
Proof.
  intros Hirr. induction 1 as [|x l S IH F]; constructor; [|exact IH].
  intros Hx. rewrite Forall_forall in F. exact (Hirr x (F x Hx)).
Qed.

Lemma detect_NoDup (text : str) : NoDup (Handler._detect_pii_entities text).
Proof.
  apply (StronglySorted_NoDup detect_order_irrefl).
  unfold Handler._detect_pii_entities.
  apply (detect_sorted_from text Handler.pii_patterns 0). repeat split.
Qed.

Lemma process_query_masked (post : str -> Handler.post_result) (text : str) :
  Handler.non_dependent_entities (Handler.process_query post text)
  = filter (fun e => negb (Handler.e_is_dependent e))
           (Handler._detect_pii_entities text)
  /\ Handler.masked_query (Handler.process_query post text)
     = Handler._mask_non_dependent_pii text
         (Handler.non_dependent_entities (Handler.process_query post text)).
Proof.
  unfold Handler.process_query, Handler._process_with_backend_analysis.
  destruct (Handler.nonempty _ && Handler.nonempty _); [split; reflexivity|].
  destruct (Handler.nonempty _); [split; reflexivity|].
  destruct (Handler.nonempty _); split; reflexivity.
Qed.

(** what [_mask_non_dependent_pii] leaves of a value, for entities with
    well-formed, pairwise disjoint spans *)
Lemma mask_occurrence (text v : str) (es : list Handler.Entity) :
  (forall e, In e es ->
             Handler.e_start e < Handler.e_end e
             /\ Handler.e_end e <= length text) ->
  NoDup es ->
  (forall a b, In a es -> In b es -> a <> b -> disjoint a b) ->
  ~ In "["%char v -> ~ In "]"%char v ->
  (forall e, In e es ->
             ~ infix v (Handler._get_mask_for_type (Handler.e_type e))) ->
  infix v (Handler._mask_non_dependent_pii text es) ->
  exists n, stands_outside v text es n.
Proof.
  intros Hspan Hnd Hdis Ho Hc Hmask H.
  unfold Handler._mask_non_dependent_pii in H.
  pose proof (sorted_desc_perm es) as P.
  assert (In_l : forall e, In e (Handler.sorted_desc es) <-> In e es).
  { intros e. split; intros He.
    - apply (Permutation_in _ (Permutation_sym P)). exact He.
    - apply (Permutation_in _ P). exact He. }
  assert (C : chain (length text) (Handler.sorted_desc es)).
  { apply sorted_chain.
    - apply sorted_desc_sorted.
    - apply (Permutation_NoDup P). exact Hnd.
    - intros e He. apply Hspan. apply In_l. exact He.
    - intros a b Ha Hb. apply Hdis; apply In_l; assumption. }
  replace text with (firstn (length text) text ++ []) in H at 1
    by (rewrite firstn_all, app_nil_r; reflexivity).
  apply (@mask_loop_occurrence text v Ho Hc) in H; auto.
  - destruct H as [[x [y E]] | [n [Hn [Hs Hout]]]].
    + assert (v = []) by (destruct x; [destruct v|]; [reflexivity|discriminate..]).
      subst. exists 0. split; [simpl; lia|]. split; [reflexivity|].
      intros e _. left. simpl. lia.
    + exists n. repeat split; auto.
      intros e He. apply Hout. apply In_l. exact He.
  - intros e He. apply Hmask. apply In_l. exact He.
Qed.

(** ** Characters of the detected values *)

Lemma all_ascii_complete (c : ascii) : In c all_ascii.
Proof.
  unfold all_ascii. rewrite <- (ascii_nat_embedding c).
  apply in_map. apply in_seq. pose proof (nat_ascii_bounded c). lia.
Qed.

Lemma class_within_spec (p q : ascii -> bool) (c : ascii) :
  class_within p q = true -> p c = true -> q c = true.
Proof.
  unfold class_within. rewrite forallb_forall. intros H Hp.
  specialize (H c (all_ascii_complete c)). rewrite Hp in H. exact H.
Qed.

Section CharFacts.
Variable t : str.

Lemma run_nth (p : ascii -> bool) (u : str) :
  forall x, x < run p u -> exists c, nth_error u x = Some c /\ p c = true.
Proof.
  induction u as [|c u IH]; intros x; simpl; [lia|].
  destruct (p c) eqn:P; [|lia].
  destruct x as [|x]; simpl; [eauto|]. intros H. apply IH. lia.
Qed.

Lemma rep_nth (p : ascii -> bool) (hi : option nat) (i m : nat) :
  m <= rep_max t p hi i -> all_in t p i (i + m).
Proof.
  intros Hm x Hx. unfold rep_max in Hm.
  assert (Hr : x - i < run p (skipn i t)) by (destruct hi; lia).
  destruct (run_nth p (skipn i t) Hr) as [c [Hc Hp]].
  exists c. split; [|exact Hp].
  rewrite nth_error_skipn in Hc. rewrite <- Hc. f_equal. lia.
Qed.

Lemma rmatch_alphabet (r : regex) :
  forall i k e,
    rmatch t r i k = Some e ->
    exists j, i <= j /\ k j = Some e /\ all_in t (alphabet r) i j.
Proof.
  induction r as [|p|r1 IH1 r2 IH2|r1 IH1 r2 IH2|p lo hi|]; intros i k e; simpl.
  - intros H. exists i. repeat split; auto. intros x Hx; lia.
  - destruct (nth_error t i) as [c|] eqn:N; [|discriminate].
    destruct (p c) eqn:P; [|discriminate]. intros H. exists (S i).
    repeat split; auto. intros x Hx. assert (x = i) by lia. subst. eauto.
  - intros H. destruct (IH1 _ _ _ H) as [j [Hj [H2 A1]]].
    destruct (IH2 _ _ _ H2) as [j' [Hj' [H3 A2]]].
    exists j'. repeat split; [lia | exact H3 |]. intros x Hx.
    destruct (Nat.lt_ge_cases x j) as [L | G].
    + destruct (A1 x ltac:(lia)) as [c [Hc Ha]]. exists c.
      rewrite Ha. auto.
    + destruct (A2 x ltac:(lia)) as [c [Hc Ha]]. exists c.
      rewrite Ha, orb_true_r. auto.
  - destruct (rmatch t r1 i k) eqn:M1.
    + intros H; inversion H; subst.
      destruct (IH1 _ _ _ M1) as [j [Hj [H2 A1]]].
      exists j. repeat split; auto. intros x Hx.
      destruct (A1 x Hx) as [c [Hc Ha]]. exists c. rewrite Ha. auto.
    + intros H. destruct (IH2 _ _ _ H) as [j [Hj [H2 A2]]].
      exists j. repeat split; auto. intros x Hx.
      destruct (A2 x Hx) as [c [Hc Ha]]. exists c.
      rewrite Ha, orb_true_r. auto.
  - intros H. destruct (try_down_some _ _ _ H) as [m [Hm [Hlo Hk]]].
    exists (i + m). repeat split; [lia | exact Hk |].
    apply rep_nth with (hi := hi). exact Hm.
  - destruct (word_boundary t i); [|discriminate]. intros H.
    exists i. repeat split; auto. intros x Hx; lia.
Qed.

Lemma rmatch_must_have (q : ascii -> bool) (r : regex) :
  must_have q r = true ->
  forall i k e,
    rmatch t r i k = Some e ->
    exists j, i <= j /\ k j = Some e /\ some_in t q i j.
Proof.
  induction r as [|p|r1 IH1 r2 IH2|r1 IH1 r2 IH2|p lo hi|]; simpl; intros Hq i k e;
    try discriminate.
  - destruct (nth_error t i) as [c|] eqn:N; [|discriminate].
    destruct (p c) eqn:P; [|discriminate]. intros H. exists (S i).
    repeat split; auto. exists i, c. repeat split; auto.
    eapply class_within_spec; eauto.
  - intros H. apply orb_true_iff in Hq. destruct Hq as [Hq | Hq].
    + destruct (IH1 Hq _ _ _ H) as [j [Hj [H2 [x [c [Hx [Hc Hqc]]]]]]].
      destruct (rmatch_ge _ _ _ _ H2) as [j' [Hj' H3]].
      exists j'. repeat split; [lia | exact H3 |].
      exists x, c. repeat split; auto; lia.
    + destruct (rmatch_ge _ _ _ _ H) as [j [Hj H2]].
      destruct (IH2 Hq _ _ _ H2) as [j' [Hj' [H3 [x [c [Hx [Hc Hqc]]]]]]].
      exists j'. repeat split; [lia | exact H3 |].
      exists x, c. repeat split; auto; lia.
  - apply andb_true_iff in Hq. destruct Hq as [Hq1 Hq2].
    destruct (rmatch t r1 i k) eqn:M1.
    + intros H; inversion H; subst. apply (IH1 Hq1 _ _ _ M1).
    + intros H. apply (IH2 Hq2 _ _ _ H).
  - apply andb_true_iff in Hq. destruct Hq as [Hlo Hq].
    assert (Hlo1 : 1 <= lo) by (destruct lo; [discriminate | lia]).
    intros H. destruct (try_down_some _ _ _ H) as [m [Hm [Hlo' Hk]]].
    exists (i + m). repeat split; [lia | exact Hk |].
    destruct (@rep_nth p hi i m Hm i ltac:(lia)) as [c [Hc Hp]].
    exists i, c. repeat split; auto; [lia|].
    eapply class_within_spec; eauto.
Qed.

Lemma search_from_match (r : regex) :
  forall fuel pos s0 e0,
    search_from t r fuel pos = Some (s0, e0) -> match_at t r s0 = Some e0.
Proof.
  induction fuel as [|f IH]; intros pos s0 e0; simpl;
    destruct (match_at t r pos) eqn:M; try discriminate.
  - intros H; inversion H; subst. exact M.
  - intros H; inversion H; subst. exact M.
  - apply IH.
Qed.

Lemma finditer_from_match (r : regex) :
  forall fuel pos,
    Forall (fun se => match_at t r (fst se) = Some (snd se))
           (finditer_from t r fuel pos).
Proof.
  induction fuel as [|f IH]; intros pos; simpl; [constructor|].
  destruct (length t <? pos); [constructor|].
  destruct (search t r pos) as [[s0 e0]|] eqn:Sr; [|constructor].
  constructor; [|apply IH]. eapply search_from_match. exact Sr.
Qed.

Lemma slice_nth (i j : nat) (c : ascii) :
  In c (slice i j t) -> exists x, i <= x < j /\ nth_error t x = Some c.
Proof.
  unfold slice. intros H. apply In_nth_error in H. destruct H as [n Hn].
  assert (Hlt : n < j - i).
  { assert (n < length (firstn (j - i) (skipn i t)))
      by (apply nth_error_Some; congruence).
    rewrite length_firstn in H. lia. }
  rewrite nth_error_firstn in Hn.
  destruct (Nat.ltb_spec n (j - i)) as [_ | Hge]; [|lia].
  rewrite nth_error_skipn in Hn. exists (i + n). split; [lia | exact Hn].
Qed.

Lemma nth_slice (i j x : nat) (c : ascii) :
  i <= x < j -> nth_error t x = Some c -> In c (slice i j t).
Proof.
  intros Hx Hc. unfold slice. apply (nth_error_In _ (x - i)).
  rewrite nth_error_firstn.
  destruct (Nat.ltb_spec (x - i) (j - i)) as [_ | Hge]; [|lia].
  rewrite nth_error_skipn. rewrite <- Hc. f_equal. lia.
Qed.

(** the value of a match: its characters are of the alphabet of the pattern,
    and one of them has every property the pattern demands *)
Lemma match_value (r : regex) (q : ascii -> bool) (se : nat * nat) :
  In se (finditer t r) ->
  (forall c, In c (slice (fst se) (snd se) t) -> alphabet r c = true)
  /\ (must_have q r = true ->
      exists c, In c (slice (fst se) (snd se) t) /\ q c = true).
Proof.
  intros Hse.
  pose proof (finditer_from_match r (S (length t)) 0) as F.
  rewrite Forall_forall in F. specialize (F se Hse).
  destruct se as [s0 e0]. cbn [fst snd] in *. unfold match_at in F. split.
  - intros c Hc. destruct (rmatch_alphabet _ _ _ F) as [j [Hj [E A]]].
    inversion E; subst. destruct (@slice_nth s0 e0 c Hc) as [x [Hx Hn]].
    destruct (A x Hx) as [c' [Hc' Ha]]. congruence.
  - intros Hq. destruct (rmatch_must_have q r Hq _ _ F) as [j [Hj [E S]]].
    inversion E; subst. destruct S as [x [c [Hx [Hc Hqc]]]].
    exists c. split; [|exact Hqc]. apply (@nth_slice s0 e0 x c Hx Hc).
Qed.
End CharFacts.

Lemma detected_value_chars (text : str) (e : Handler.Entity) :
  In e (Handler._detect_pii_entities text) ->
  ~ In "["%char (Handler.e_value e)
  /\ ~ In "]"%char (Handler.e_value e)
  /\ exists c, In c (Handler.e_value e) /\ plain c = true.
Proof.
  unfold Handler._detect_pii_entities. rewrite in_flat_map.
  intros [tr [Htr He]]. unfold Handler.entities_of in He.
  apply in_map_iff in He. destruct He as [se [<- Hse]].
  cbn [Handler.e_value].
  destruct (@match_value text (snd tr) plain se Hse) as [Ha Hm].
  assert (K : alphabet (snd tr) "["%char = false
              /\ alphabet (snd tr) "]"%char = false
              /\ must_have plain (snd tr) = true).
  { simpl in Htr.
    repeat (destruct Htr as [<- | Htr]; [vm_compute; auto|]). destruct Htr. }
  destruct K as [Ko [Kc Km]]. repeat split.
  - intros H. apply Ha in H. congruence.
  - intros H. apply Ha in H. congruence.
  - apply Hm. exact Km.
Qed.

Lemma mask_not_plain (ty : str) (c : ascii) :
  In c (Handler._get_mask_for_type ty) -> plain c = false.
Proof.
  assert (H : forallb (fun x => negb (plain x)) (Handler._get_mask_for_type ty)
              = true).
  { unfold Handler._get_mask_for_type.
    repeat match goal with
           | |- context [if ?b then _ else _] => destruct b
           end; vm_compute; reflexivity. }
  rewrite forallb_forall in H. intros Hc. specialize (H c Hc).
  destruct (plain c); [discriminate | reflexivity].
Qed.

Lemma plain_not_in_mask (v ty : str) :
  (exists c, In c v /\ plain c = true) ->
  ~ infix v (Handler._get_mask_for_type ty).
Proof.
  intros [c [Hc Hp]] [a [b E]].
  assert (Hin : In c (Handler._get_mask_for_type ty)).
  { rewrite E. apply in_or_app. right. apply in_or_app. left. exact Hc. }
  apply mask_not_plain in Hin. congruence.
Qed.

(** C1, as stated, fails: a phone number that stands in the text a second
    time, glued to a letter, is no match there and stays in the sanitized
    text; the masking of [FakerMasking] even replaces the glued occurrence
    and leaves the detected one. *)
Lemma masked_text_keeps_value :
  let r := Handler.process_query unreachable (lit "1234567890 a1234567890") in
  let st := FakerMasking.mask_run counting_faker
              (lit "a1234567890 1234567890") 0%Z in
  Handler.non_dependent_entities r
  = [Handler.mkEntity (lit "1234567890") (lit "phone") 0 10 false]
  /\ Handler.masked_query r = lit "[PHONE] a1234567890"
  /\ infix (lit "1234567890") (Handler.masked_query r)
  /\ FakerMasking.replacements st = [(lit "0123456789", lit "1234567890")]
  /\ FakerMasking.masked st = lit "a0123456789 1234567890"
  /\ infix (lit "1234567890") (FakerMasking.masked st).
Proof.
  cbv zeta. repeat split; try (vm_compute; reflexivity);
    apply infixb_spec; vm_compute; reflexivity.
Qed.

(** for entities with pairwise disjoint spans, what is left of a value stands
    outside every span *)
Lemma masked_value_outside_disjoint_spans
    (post : str -> Handler.post_result) (text : str) (e : Handler.Entity) :
  let r := Handler.process_query post text in
  let es := Handler.non_dependent_entities r in
  In e es ->
  (forall a b, In a es -> In b es -> a <> b -> disjoint a b) ->
  infix (Handler.e_value e) (Handler.masked_query r) ->
  exists n, stands_outside (Handler.e_value e) text es n.
Proof.
  cbv zeta.
  destruct (process_query_masked post text) as [Ees Em]. rewrite Em.
  intros He Hdis H.
  assert (Hdet : forall x,
             In x (Handler.non_dependent_entities
                     (Handler.process_query post text)) ->
             In x (Handler._detect_pii_entities text)).
  { intros x Hx. rewrite Ees in Hx. apply filter_In in Hx. tauto. }
  destruct (detected_value_chars text e (Hdet e He)) as [Ho [Hc Hp]].
  apply mask_occurrence; auto.
  - intros x Hx. apply detected_span. apply Hdet. exact Hx.
  - rewrite Ees. apply NoDup_filter. apply detect_NoDup.
  - intros x _. apply plain_not_in_mask. exact Hp.
Qed.

Section UnmatchedValue.
Variable text v : str.
Variable every : list Handler.Entity.
Hypothesis no_open : ~ In "["%char v.
Hypothesis no_close : ~ In "]"%char v.

(** one turn of the loop on a text whose first [bound] characters are those
    of the input: spans are cut by their numbers, whatever stands there *)
Lemma mask_step_any (bound : nat) (rest : str) (e : Handler.Entity) :
  bound <= length text ->
  Handler.e_start e <= bound ->
  Handler.mask_step (firstn bound text ++ rest) e
  = firstn (Handler.e_start e) text
    ++ (Handler._get_mask_for_type (Handler.e_type e)
        ++ skipn (Handler.e_end e) (firstn bound text)
        ++ skipn (Handler.e_end e - bound) rest).
Proof.
  intros Hb Hs. unfold Handler.mask_step.
  assert (L : length (firstn bound text) = bound)
    by (apply firstn_length_le; exact Hb).
  rewrite firstn_app, skipn_app, L, firstn_firstn.
  replace (Handler.e_start e - bound) with 0 by lia.
  replace (Nat.min (Handler.e_start e) bound) with (Handler.e_start e) by lia.
  cbn [firstn]. rewrite app_nil_r. reflexivity.
Qed.

Lemma skipn_firstn_slice (lo hi : nat) (t : str) :
  skipn lo (firstn hi t) = slice lo hi t.
Proof. unfold slice. apply skipn_firstn_comm. Qed.

Lemma infix_skipn (k : nat) (t : str) : infix v (skipn k t) -> infix v t.
Proof.
  intros [x [y E]]. exists (firstn k t ++ x), y.
  rewrite <- app_assoc, <- E, firstn_skipn. reflexivity.
Qed.

Lemma mask_loop_unmatched (l : list Handler.Entity) :
  forall bound rest,
    bound <= length text ->
    StronglySorted start_ge l ->
    (forall e, In e l ->
               Handler.e_start e < Handler.e_end e
               /\ Handler.e_end e <= length text
               /\ Handler.e_start e <= bound) ->
    (forall e, In e every -> In e l \/ bound <= Handler.e_start e) ->
    (forall e, In e l ->
               ~ infix v (Handler._get_mask_for_type (Handler.e_type e))) ->
    (rest = [] \/ exists rest', rest = "["%char :: rest') ->
    (infix v rest -> exists n, stands_unmatched v text every n) ->
    infix v (fold_left Handler.mask_step l (firstn bound text ++ rest)) ->
    exists n, stands_unmatched v text every n.
Proof.
  induction l as [|e l IH]; intros bound rest Hb Hs Hl Hev Hm Hr Hrest;
    cbn [fold_left].
  - assert (G : infix v (firstn bound text) ->
                exists n, stands_unmatched v text every n).
    { intros G.
      assert (E : firstn bound text = slice 0 bound text).
      { unfold slice. rewrite Nat.sub_0_r. reflexivity. }
      rewrite E in G.
      destruct (@infix_slice v text 0 bound (Nat.le_0_l bound) Hb G)
        as [n [_ [Hn Hsl]]].
      exists n. split; [lia|]. split; [exact Hsl|].
      intros e He. destruct (Hev e He) as [[] | H]. right. lia. }
    intros H. destruct Hr as [-> | [rest' ->]].
    + rewrite app_nil_r in H. apply G. exact H.
    + apply (@infix_split_char v _ _ _ no_open) in H. destruct H as [H | H].
      * apply G. exact H.
      * apply Hrest. apply infix_tail. exact H.
  - destruct (Hl e (or_introl eq_refl)) as [Hse [Hee Hes]].
    rewrite (@mask_step_any bound rest e Hb Hes).
    inversion Hs as [|? ? Hs' Hall]; subst. rewrite Forall_forall in Hall.
    destruct (mask_shape (Handler.e_type e)) as [inner [Ei [front Ef]]].
    apply IH.
    + lia.
    + exact Hs'.
    + intros x Hx. destruct (Hl x (or_intror Hx)) as [K1 [K2 K3]].
      split; [exact K1|]. split; [exact K2|]. apply (Hall x Hx).
    + intros x Hx. destruct (Hev x Hx) as [[<- | H] | H].
      * right. lia.
      * left. exact H.
      * right. lia.
    + intros x Hx. apply Hm. right. exact Hx.
    + right. rewrite Ei. cbn [app]. eauto.
    + intros H. rewrite Ef, <- app_assoc in H. cbn [app] in H.
      apply (@infix_split_char v _ _ _ no_close) in H.
      destruct H as [H | H].
      { exfalso. apply (Hm e (or_introl eq_refl)). rewrite Ef.
        destruct H as [x [y ->]]. exists x, (y ++ ["]"%char]).
        rewrite <- !app_assoc. reflexivity. }
      rewrite skipn_firstn_slice in H.
      assert (G : infix v (slice (Handler.e_end e) bound text) ->
                  exists n, stands_unmatched v text every n).
      { intros G.
        destruct (Nat.le_gt_cases (Handler.e_end e) bound) as [Le | Gt].
        - destruct (@infix_slice v text _ bound Le Hb G)
            as [n [Hlo [Hhi Hsl]]].
          exists n. split; [lia|]. split; [exact Hsl|].
          intros x Hx. destruct (Hev x Hx) as [[<- | H'] | H'].
          + left. lia.
          + pose proof (Hall x H') as K. unfold start_ge in K. left. lia.
          + right. lia.
        - unfold slice in G.
          replace (bound - Handler.e_end e) with 0 in G by lia.
          cbn [firstn] in G. destruct G as [x [y E]].
          destruct x; [|discriminate]. destruct v; [|discriminate].
          exists 0. split; [simpl; lia|]. split; [reflexivity|].
          intros z _. right. simpl. lia. }
      destruct (Nat.le_gt_cases (Handler.e_end e) bound) as [Le | Gt].
      * replace (Handler.e_end e - bound) with 0 in H by lia.
        cbn [skipn] in H. destruct Hr as [-> | [rest' ->]].
        { rewrite app_nil_r in H. apply G. exact H. }
        apply (@infix_split_char v _ _ _ no_open) in H. destruct H as [H | H].
        { apply G. exact H. }
        apply Hrest. apply infix_tail. exact H.
      * assert (E : slice (Handler.e_end e) bound text = []).
        { unfold slice. replace (bound - Handler.e_end e) with 0 by lia.
          reflexivity. }
        rewrite E in H. cbn [app] in H. apply Hrest.
        apply (infix_skipn _ _ H).
Qed.
End UnmatchedValue.

(** C1, amended: for every input text and every entity classified
    non-dependent, the sanitized text contains the entity's original value
    only if the input text has that value at a place where no non-dependent
    entity begins: every occurrence that was detected and classified
    non-dependent is removed, whether the spans overlap or not, and an
    occurrence that the detector did not match may be kept. *)
Theorem masked_value_only_where_unmatched :
  forall (post : str -> Handler.post_result) (text : str) (e : Handler.Entity),
    let r := Handler.process_query post text in
    let es := Handler.non_dependent_entities r in
    In e es ->
    infix (Handler.e_value e) (Handler.masked_query r) ->
    exists n, stands_unmatched (Handler.e_value e) text es n.
Proof.
  intros post text e. cbv zeta.
  destruct (process_query_masked post text) as [Ees Em]. rewrite Em.
  assert (Hdet : forall x,
             In x (Handler.non_dependent_entities
                     (Handler.process_query post text)) ->
             In x (Handler._detect_pii_entities text)).
  { intros x Hx. rewrite Ees in Hx. apply filter_In in Hx. tauto. }
  set (es := Handler.non_dependent_entities (Handler.process_query post text))
    in *.
  intros He H.
  destruct (detected_value_chars text e (Hdet e He)) as [Ho [Hc Hp]].
  pose proof (sorted_desc_perm es) as P.
  assert (In_l : forall x, In x (Handler.sorted_desc es) <-> In x es).
  { intros x. split; intros Hx.
    - apply (Permutation_in _ (Permutation_sym P)). exact Hx.
    - apply (Permutation_in _ P). exact Hx. }
  unfold Handler._mask_non_dependent_pii in H.
  replace text with (firstn (length text) text ++ []) in H at 1
    by (rewrite firstn_all, app_nil_r; reflexivity).
  apply (@mask_loop_unmatched text (Handler.e_value e) es Ho Hc
           (Handler.sorted_desc es) (length text) []) in H.
  - exact H.
  - lia.
  - apply sorted_desc_sorted.
  - intros x Hx. apply In_l in Hx.
    destruct (detected_span text x (Hdet x Hx)) as [H1 H2].
    split; [exact H1|]. split; [exact H2 | lia].
  - intros x Hx. left. apply In_l. exact Hx.
  - intros x _. apply plain_not_in_mask. exact Hp.
  - left. reflexivity.
  - intros [x [y E]]. destruct x; [|discriminate].
    destruct (Handler.e_value e); [|discriminate].
    exists 0. split; [simpl; lia|]. split; [reflexivity|].
    intros z _. right. simpl. lia.
Qed.

Lemma masked_value_only_where_unmatched_witness :
  let e := Handler.mkEntity (lit "1234567890") (lit "phone") 7 17 false in
  let r := Handler.process_query unreachable nested_query in
  Handler.non_dependent_entities r
  = [e; Handler.mkEntity (lit "a@1234567890.com") (lit "email") 5 21 false]
  /\ Handler.masked_query r = lit "mail [EMAIL]d x1234567890"
  /\ exists n, stands_unmatched (lit "1234567890") nested_query
                 (Handler.non_dependent_entities r) n.
Proof.
  cbv zeta. split; [vm_compute; reflexivity|].
  split; [vm_compute; reflexivity|].
  apply (@masked_value_only_where_unmatched unreachable nested_query
           (Handler.mkEntity (lit "1234567890") (lit "phone") 7 17 false)).
  - vm_compute. left. reflexivity.
  - apply infixb_spec. vm_compute. reflexivity.
Defined.

(** * Further properties of the pipeline *)

(** ** What reaches the external service *)

Lemma standard_response_same (post1 post2 : str -> Handler.post_result)
    (text : str) :
  post1 text = post2 text ->
  Handler._generate_standard_response post1 text
  = Handler._generate_standard_response post2 text.
Proof.
  intros H. unfold Handler._generate_standard_response. rewrite H. reflexivity.
Qed.

Lemma mask_nothing (text : str) : Handler._mask_non_dependent_pii text [] = text.
Proof. reflexivity. Qed.

(** X1: the external service is consulted with the sanitized text and with
    nothing else: two services that answer the sanitized text alike give the
    same result record. *)
Theorem service_sees_only_sanitized_text :
  forall (post1 post2 : str -> Handler.post_result) (user_query : str),
    post1 (Handler.masked_query (Handler.process_query post1 user_query))
    = post2 (Handler.masked_query (Handler.process_query post1 user_query)) ->
    Handler.process_query post1 user_query
    = Handler.process_query post2 user_query.
Proof.
  intros post1 post2 q H.
  destruct (process_query_masked post1 q) as [End Em]. rewrite Em, End in H.
  unfold Handler.process_query, Handler._process_with_backend_analysis.
  unfold Handler._generate_mixed_dependency_response,
    Handler._generate_dependent_response,
    Handler._generate_non_dependent_response.
  destruct (filter (fun e => negb (Handler.e_is_dependent e))
                   (Handler._detect_pii_entities q)) as [|n nd] eqn:Nd.
  - rewrite mask_nothing in *.
    rewrite (standard_response_same post1 post2 q H). reflexivity.
  - destruct (filter Handler.e_is_dependent (Handler._detect_pii_entities q));
      cbn [Handler.nonempty andb];
      rewrite (standard_response_same post1 post2 _ H); reflexivity.
Qed.

Lemma service_sees_only_sanitized_text_witness :
  echo (Handler.masked_query
          (Handler.process_query echo (lit "call 1234567890 today")))
  = echo_only (lit "call [PHONE] today")
      (Handler.masked_query
         (Handler.process_query echo (lit "call 1234567890 today")))
  /\ Handler.llm_response
       (Handler.process_query (echo_only (lit "call [PHONE] today"))
                              (lit "call 1234567890 today"))
     = lit "call [PHONE] today".
Proof.
  assert (H : echo (Handler.masked_query
                      (Handler.process_query echo (lit "call 1234567890 today")))
              = echo_only (lit "call [PHONE] today")
                  (Handler.masked_query
                     (Handler.process_query echo
                        (lit "call 1234567890 today"))))
    by (vm_compute; reflexivity).
  split; [exact H|].
  rewrite <- (service_sees_only_sanitized_text echo
                (echo_only (lit "call [PHONE] today"))
                (lit "call 1234567890 today") H).
  vm_compute. reflexivity.
Defined.

Lemma dependent_is_phone (text : str) (e : Handler.Entity) :
  In e (filter Handler.e_is_dependent (Handler._detect_pii_entities text)) ->
  Handler.is_phone e = true.
Proof.
  intros H. apply filter_In in H. destruct H as [Hin Hd].
  rewrite (detected_flag _ _ Hin) in Hd. apply is_dependent_cue in Hd.
  destruct Hd as [_ Hty]. unfold Handler.is_phone. rewrite Hty.
  apply str_eqb_refl.
Qed.

Lemma filter_id {A : Type} (f : A -> bool) (l : list A) :
  (forall x, In x l -> f x = true) -> filter f l = l.
Proof.
  induction l as [|x l IH]; intros H; simpl; [reflexivity|].
  rewrite (H x (or_introl eq_refl)). f_equal. apply IH.
  intros y Hy. apply H. right. exact Hy.
Qed.

(** X2: when a dependent entity is detected and the query holds one of the
    words add, sum, calculate, the answer is computed locally and the
    external service is not consulted at all: the result record is the same
    for any two services.  The response names the first dependent phone
    number; when nothing is masked the number it reports is the sum of the
    digits of that phone number, and when something is masked as well it is
    the sum of the digits of all dependent phone numbers together. *)
Theorem dependent_digit_sum_is_local :
  forall (post1 post2 : str -> Handler.post_result) (user_query : str)
         (e : Handler.Entity),
    In e (Handler._detect_pii_entities user_query) ->
    Handler.e_is_dependent e = true ->
    any_in Handler.math_words (lower user_query) = true ->
    let r := Handler.process_query post1 user_query in
    r = Handler.process_query post2 user_query
    /\ exists first rest,
         Handler.dependent_entities r = first :: rest
         /\ Handler.llm_response r
            = if Handler.nonempty (Handler.non_dependent_entities r) then
                lit "I've protected your personal information while keeping the phone number for calculation. The sum of all digits in "
                  ++ Handler.e_value first ++ lit " is: "
                  ++ str_of_int
                       (Handler.sum_Z
                          (map (fun d => Handler.digit_sum (Handler.e_value d))
                               (first :: rest)))
              else
                lit "I've kept your phone number for the calculation. The sum of all digits in "
                  ++ Handler.e_value first ++ lit " is: "
                  ++ str_of_int (Handler.digit_sum (Handler.e_value first)).
Proof.
  intros post1 post2 q e He Hd Hm. cbv zeta.
  assert (Hin : In e (filter Handler.e_is_dependent
                             (Handler._detect_pii_entities q)))
    by (apply filter_In; split; assumption).
  pose proof (@filter_id _ Handler.is_phone
                (filter Handler.e_is_dependent (Handler._detect_pii_entities q))
                (dependent_is_phone q)) as Hph.
  unfold Handler.process_query, Handler._process_with_backend_analysis,
    Handler._generate_mixed_dependency_response,
    Handler._generate_dependent_response.
  rewrite Hph, Hm.
  destruct (filter Handler.e_is_dependent (Handler._detect_pii_entities q))
    as [|d dp] eqn:Dp; [destruct Hin|].
  cbn [Handler.nonempty andb map].
  destruct (Handler.nonempty
              (filter (fun x => negb (Handler.e_is_dependent x))
                      (Handler._detect_pii_entities q))) eqn:Nd.
  - split; [reflexivity|]. exists d, dp. split; [reflexivity|].
    cbn [Handler.llm_response Handler.non_dependent_entities].
    rewrite Nd. rewrite map_map. reflexivity.
  - split; [reflexivity|]. exists d, dp. split; [reflexivity|].
    cbn [Handler.llm_response Handler.non_dependent_entities].
    rewrite Nd. reflexivity.
Qed.

Lemma dependent_digit_sum_is_local_witness :
  In (Handler.mkEntity (lit "1234567890") (lit "phone") 18 28 true)
     (Handler._detect_pii_entities two_phones_query)
  /\ any_in Handler.math_words (lower two_phones_query) = true
  /\ Handler.process_query echo two_phones_query
     = Handler.process_query unreachable two_phones_query
  /\ Handler.llm_response (Handler.process_query echo two_phones_query)
     = lit "I've protected your personal information while keeping the phone number for calculation. The sum of all digits in 1234567890 is: 55".
Proof.
  assert (H : In (Handler.mkEntity (lit "1234567890") (lit "phone") 18 28 true)
                 (Handler._detect_pii_entities two_phones_query))
    by (vm_compute; left; reflexivity).
  assert (M : any_in Handler.math_words (lower two_phones_query) = true)
    by (vm_compute; reflexivity).
  split; [exact H|]. split; [exact M|].
  destruct (dependent_digit_sum_is_local echo unreachable two_phones_query _
              H eq_refl M) as [E (first & rest & Ed & Er)].
  split; [exact E|].
  rewrite Er.
  assert (D : Handler.dependent_entities
                (Handler.process_query echo two_phones_query)
              = [Handler.mkEntity (lit "1234567890") (lit "phone") 18 28 true;
                 Handler.mkEntity (lit "1111111111") (lit "phone") 33 43 true])
    by (vm_compute; reflexivity).
  rewrite D in Ed. injection Ed as <- <-.
  vm_compute. reflexivity.
Defined.

(** ** Shape of the detected entities *)

Lemma entities_of_value (text : str) (tr : str * regex) (e : Handler.Entity) :
  In e (Handler.entities_of text tr) ->
  Handler.e_value e = slice (Handler.e_start e) (Handler.e_end e) text
  /\ Handler.e_type e = fst tr.
Proof.
  unfold Handler.entities_of. rewrite in_map_iff.
  intros [se [<- _]]. split; reflexivity.
Qed.

Lemma slice_length (a b : nat) (t : str) :
  b <= length t -> length (slice a b t) = b - a.
Proof.
  intros H. unfold slice. rewrite length_firstn, length_skipn. lia.
Qed.

Lemma detected_entity_span_value (text : str) (e : Handler.Entity) :
  In e (Handler._detect_pii_entities text) ->
  Handler.e_start e < Handler.e_end e
  /\ Handler.e_end e <= length text
  /\ Handler.e_value e = slice (Handler.e_start e) (Handler.e_end e) text
  /\ length (Handler.e_value e) = Handler.e_end e - Handler.e_start e.
Proof.
  intros He. destruct (detected_span _ _ He) as [Hs Hl].
  unfold Handler._detect_pii_entities in He. apply in_flat_map in He.
  destruct He as [tr [Htr He]].
  destruct (entities_of_value _ _ _ He) as [Hv Ht].
  repeat split; auto. rewrite Hv. apply slice_length. exact Hl.
Qed.

(** X3: every detected entity has a span within the text that is not empty,
    its value is the text of that span, and its type is one of the five
    pattern names. *)
Theorem detected_entity_wellformed :
  forall (text : str) (e : Handler.Entity),
    In e (Handler._detect_pii_entities text) ->
    Handler.e_start e < Handler.e_end e
    /\ Handler.e_end e <= length text
    /\ Handler.e_value e = slice (Handler.e_start e) (Handler.e_end e) text
    /\ length (Handler.e_value e) = Handler.e_end e - Handler.e_start e
    /\ In (Handler.e_type e)
          [lit "phone"; lit "email"; lit "name"; lit "ssn"; lit "credit_card"].
Proof.
  intros text e He. destruct (detected_span _ _ He) as [Hs Hl].
  unfold Handler._detect_pii_entities in He. apply in_flat_map in He.
  destruct He as [tr [Htr He]].
  destruct (entities_of_value _ _ _ He) as [Hv Ht].
  repeat split; auto.
  - rewrite Hv. apply slice_length. exact Hl.
  - rewrite Ht. change [lit "phone"; lit "email"; lit "name"; lit "ssn";
                         lit "credit_card"]
      with (map fst Handler.pii_patterns).
    apply in_map. exact Htr.
Qed.

Lemma detected_entity_wellformed_witness :
  In (Handler.mkEntity (lit "a@b.com") (lit "email") 0 7 false)
     (Handler._detect_pii_entities (lit "a@b.com 1234567890"))
  /\ slice 0 7 (lit "a@b.com 1234567890") = lit "a@b.com".
Proof.
  assert (H : In (Handler.mkEntity (lit "a@b.com") (lit "email") 0 7 false)
                 (Handler._detect_pii_entities (lit "a@b.com 1234567890")))
    by (vm_compute; right; left; reflexivity).
  split; [exact H|].
  symmetry.
  exact (proj1 (proj2 (proj2 (detected_entity_wellformed _ _ H)))).
Defined.

(** the matches of [finditer] do not overlap: each one starts where the one
    before it has ended, or later *)
Lemma finditer_from_apart (t : str) (r : regex) :
  forall fuel pos,
    StronglySorted (fun a b => snd a <= fst b) (finditer_from t r fuel pos).
Proof.
  induction fuel as [|f IH]; intros pos; simpl; [constructor|].
  destruct (length t <? pos); [constructor|].
  destruct (search t r pos) as [[s0 e0]|] eqn:Sr; [|constructor].
  apply search_from_ge in Sr. destruct Sr as [Hs He].
  constructor; [apply IH|].
  destruct (finditer_from_ascending t r f (if e0 =? s0 then S e0 else e0))
    as [Hfrom _].
  eapply Forall_impl; [|exact Hfrom]. simpl. intros a Ha.
  destruct (Nat.eqb_spec e0 s0); lia.
Qed.

Lemma StronglySorted_pair {A : Type} (R : A -> A -> Prop) (l : list A) :
  StronglySorted R l ->
  forall a b, In a l -> In b l -> a = b \/ R a b \/ R b a.
Proof.
  induction 1 as [|x l S IH F]; intros a b Ha Hb; [destruct Ha|].
  rewrite Forall_forall in F.
  destruct Ha as [<- | Ha], Hb as [<- | Hb]; auto.
Qed.

Lemma entities_of_apart (text : str) (tr : str * regex) :
  StronglySorted (fun a b => Handler.e_end a <= Handler.e_start b)
                 (Handler.entities_of text tr).
Proof.
  unfold Handler.entities_of.
  eapply StronglySorted_map; [|apply finditer_from_apart].
  intros a b Hab. exact Hab.
Qed.

Lemma pattern_names_differ :
  NoDup (map fst Handler.pii_patterns).
Proof.
  apply (@StronglySorted_NoDup _ (fun a b => type_rank a < type_rank b)).
  - intros x. lia.
  - vm_compute. repeat constructor.
Qed.

Lemma NoDup_map_fst_unique {A B : Type} (l : list (A * B)) (p q : A * B) :
  NoDup (map fst l) -> In p l -> In q l -> fst p = fst q -> p = q.
Proof.
  induction l as [|x l IH]; intros N Hp Hq E; [destruct Hp|].
  simpl in N. inversion N as [|? ? Hx N']; subst.
  destruct Hp as [-> | Hp], Hq as [-> | Hq]; auto.
  - exfalso. apply Hx. rewrite E. apply in_map. exact Hq.
  - exfalso. apply Hx. rewrite <- E. apply in_map. exact Hp.
Qed.

(** X4: two detected entities of the same type never overlap. *)
Theorem same_type_entities_apart :
  forall (text : str) (a b : Handler.Entity),
    In a (Handler._detect_pii_entities text) ->
    In b (Handler._detect_pii_entities text) ->
    Handler.e_type a = Handler.e_type b ->
    a <> b ->
    disjoint a b.
Proof.
  intros text a b Ha Hb Hty Hne.
  unfold Handler._detect_pii_entities in Ha, Hb.
  apply in_flat_map in Ha. apply in_flat_map in Hb.
  destruct Ha as [tra [Htra Ha]]. destruct Hb as [trb [Htrb Hb]].
  destruct (entities_of_value _ _ _ Ha) as [_ Ta].
  destruct (entities_of_value _ _ _ Hb) as [_ Tb].
  assert (E : tra = trb).
  { apply (NoDup_map_fst_unique Handler.pii_patterns); auto.
    - apply pattern_names_differ.
    - congruence. }
  subst trb.
  destruct (StronglySorted_pair (entities_of_apart text tra) a b Ha Hb)
    as [E | [H | H]].
  - contradiction.
  - left. exact H.
  - right. exact H.
Qed.

Lemma same_type_entities_apart_witness :
  let text := lit "call 1234567890 or 123-456-7890" in
  let a := Handler.mkEntity (lit "1234567890") (lit "phone") 5 15 false in
  let b := Handler.mkEntity (lit "123-456-7890") (lit "phone") 19 31 false in
  In a (Handler._detect_pii_entities text)
  /\ In b (Handler._detect_pii_entities text)
  /\ Handler.e_type a = Handler.e_type b
  /\ a <> b
  /\ disjoint a b.
Proof.
  cbv zeta.
  assert (Ha : In (Handler.mkEntity (lit "1234567890") (lit "phone") 5 15 false)
                  (Handler._detect_pii_entities
                     (lit "call 1234567890 or 123-456-7890")))
    by (vm_compute; left; reflexivity).
  assert (Hb : In (Handler.mkEntity (lit "123-456-7890") (lit "phone") 19 31
                                    false)
                  (Handler._detect_pii_entities
                     (lit "call 1234567890 or 123-456-7890")))
    by (vm_compute; right; left; reflexivity).
  assert (Hne : Handler.mkEntity (lit "1234567890") (lit "phone") 5 15 false
                <> Handler.mkEntity (lit "123-456-7890") (lit "phone") 19 31
                                    false)
    by (intros E; inversion E).
  repeat (split; [assumption || reflexivity|]).
  exact (@same_type_entities_apart _ _ _ Ha Hb eq_refl Hne).
Defined.

(** ** What substitution keeps and what it writes *)

Lemma firstn_plus {A : Type} (m k : nat) (l : list A) :
  firstn (m + k) l = firstn m l ++ firstn k (skipn m l).
Proof.
  revert l; induction m as [|m IH]; intros l; simpl; [reflexivity|].
  destruct l as [|x l]; simpl.
  - rewrite firstn_nil. reflexivity.
  - rewrite IH. reflexivity.
Qed.

Lemma slice_app (a b c : nat) (t : str) :
  a <= b -> b <= c -> slice a c t = slice a b t ++ slice b c t.
Proof.
  intros Hab Hbc. unfold slice.
  replace (c - a) with ((b - a) + (c - b)) by lia.
  rewrite firstn_plus, skipn_skipn.
  replace (b - a + a) with b by lia. reflexivity.
Qed.

Lemma slice_in_slice (lo hi n k : nat) (t : str) :
  lo <= n -> n + k <= hi -> infix (slice n (n + k) t) (slice lo hi t).
Proof.
  intros Hlo Hhi. exists (slice lo n t), (slice (n + k) hi t).
  rewrite (@slice_app lo n hi t) by lia.
  rewrite (@slice_app n (n + k) hi t) by lia. reflexivity.
Qed.

Lemma infix_app_l (v a b : str) : infix v a -> infix v (a ++ b).
Proof.
  intros [x [y ->]]. exists x, (y ++ b). rewrite <- !app_assoc. reflexivity.
Qed.

Lemma infix_app_r (v a b : str) : infix v b -> infix v (a ++ b).
Proof.
  intros [x [y ->]]. exists (a ++ x), y. rewrite <- !app_assoc. reflexivity.
Qed.

Section MaskLoop.
Variable text : str.

(** what the turns before have written stays at the end of the text *)
Lemma mask_loop_suffix (l : list Handler.Entity) :
  forall bound rest,
    bound <= length text -> chain bound l ->
    exists head,
      fold_left Handler.mask_step l (firstn bound text ++ rest) = head ++ rest
      /\ length head + span_total l = bound + mask_total l.
Proof.
  induction l as [|e l IH]; intros bound rest Hb Hc; cbn [fold_left].
  - exists (firstn bound text). split; [reflexivity|].
    rewrite firstn_length_le by exact Hb. reflexivity.
  - destruct Hc as [Hse [Heb Hc]].
    rewrite (@mask_step_cut text bound rest e Hb Hse Heb).
    destruct (IH (Handler.e_start e)
                 (Handler._get_mask_for_type (Handler.e_type e)
                  ++ slice (Handler.e_end e) bound text ++ rest)
                 ltac:(lia) Hc) as [head [E L]].
    exists (head ++ Handler._get_mask_for_type (Handler.e_type e)
            ++ slice (Handler.e_end e) bound text).
    split.
    + rewrite E, <- !app_assoc. reflexivity.
    + rewrite !length_app, slice_length by exact Hb.
      change (span_total (e :: l))
        with (Handler.e_end e - Handler.e_start e + span_total l).
      change (mask_total (e :: l))
        with (length (Handler._get_mask_for_type (Handler.e_type e))
              + mask_total l).
      lia.
Qed.

Lemma mask_loop_keeps (v : str) (l : list Handler.Entity) :
  forall bound rest n,
    bound <= length text -> chain bound l ->
    stands_below v text bound l n ->
    infix v (fold_left Handler.mask_step l (firstn bound text ++ rest)).
Proof.
  induction l as [|e l IH]; intros bound rest n Hb Hc [Hn [Hs Hout]];
    cbn [fold_left].
  - apply infix_app_l. rewrite <- Hs.
    replace (firstn bound text) with (slice 0 bound text)
      by (unfold slice; rewrite Nat.sub_0_r; reflexivity).
    apply slice_in_slice; lia.
  - destruct Hc as [Hse [Heb Hc]].
    rewrite (@mask_step_cut text bound rest e Hb Hse Heb).
    destruct (Hout e (or_introl eq_refl)) as [Hl | Hr].
    + apply (IH _ _ n); [lia | exact Hc |].
      repeat split; [exact Hl | exact Hs |].
      intros x Hx. apply Hout. right. exact Hx.
    + destruct (@mask_loop_suffix l (Handler.e_start e)
                  (Handler._get_mask_for_type (Handler.e_type e)
                   ++ slice (Handler.e_end e) bound text ++ rest)
                  ltac:(lia) Hc) as [head [E _]].
      rewrite E. apply infix_app_r. apply infix_app_r. apply infix_app_l.
      rewrite <- Hs. apply slice_in_slice; lia.
Qed.

Lemma mask_loop_writes (l : list Handler.Entity) :
  forall bound rest e,
    bound <= length text -> chain bound l -> In e l ->
    infix (Handler._get_mask_for_type (Handler.e_type e))
          (fold_left Handler.mask_step l (firstn bound text ++ rest)).
Proof.
  induction l as [|x l IH]; intros bound rest e Hb Hc He; [destruct He|].
  cbn [fold_left]. destruct Hc as [Hse [Heb Hc]].
  rewrite (@mask_step_cut text bound rest x Hb Hse Heb).
  destruct He as [<- | He].
  - destruct (@mask_loop_suffix l (Handler.e_start x)
                (Handler._get_mask_for_type (Handler.e_type x)
                 ++ slice (Handler.e_end x) bound text ++ rest)
                ltac:(lia) Hc) as [head [E _]].
    rewrite E. apply infix_app_r. apply infix_app_l.
    exists [], []. rewrite app_nil_r. reflexivity.
  - apply IH; [lia | exact Hc | exact He].
Qed.
End MaskLoop.

Section NonDependentSpans.
Variable post : str -> Handler.post_result.
Variable text : str.

Local Abbreviation result := (Handler.process_query post text).
Local Abbreviation masked_entities := (Handler.non_dependent_entities result).

Hypothesis apart :
  forall a b, In a masked_entities -> In b masked_entities -> a <> b ->
              disjoint a b.

Lemma masked_entities_detected (e : Handler.Entity) :
  In e masked_entities -> In e (Handler._detect_pii_entities text).
Proof.
  destruct (process_query_masked post text) as [Ees _]. rewrite Ees.
  intros H. apply filter_In in H. tauto.
Qed.

Lemma masked_entities_sorted_in (e : Handler.Entity) :
  In e (Handler.sorted_desc masked_entities) <-> In e masked_entities.
Proof.
  pose proof (sorted_desc_perm masked_entities) as P. split; intros He.
  - apply (Permutation_in _ (Permutation_sym P)). exact He.
  - apply (Permutation_in _ P). exact He.
Qed.

Lemma masked_entities_chain :
  chain (length text) (Handler.sorted_desc masked_entities).
Proof.
  apply sorted_chain.
  - apply sorted_desc_sorted.
  - apply (Permutation_NoDup (sorted_desc_perm masked_entities)).
    destruct (process_query_masked post text) as [Ees _]. rewrite Ees.
    apply NoDup_filter. apply detect_NoDup.
  - intros e He. apply detected_span. apply masked_entities_detected.
    apply masked_entities_sorted_in. exact He.
  - intros a b Ha Hb. apply apart; apply masked_entities_sorted_in; assumption.
Qed.

Lemma masked_query_loop :
  Handler.masked_query result
  = fold_left Handler.mask_step (Handler.sorted_desc masked_entities)
              (firstn (length text) text ++ []).
Proof.
  destruct (process_query_masked post text) as [_ Em]. rewrite Em.
  rewrite firstn_all, app_nil_r. reflexivity.
Qed.

Lemma kept_outside_spans (v : str) (n : nat) :
  stands_outside v text masked_entities n ->
  infix v (Handler.masked_query result).
Proof.
  intros [Hn [Hs Hout]]. rewrite masked_query_loop.
  apply (@mask_loop_keeps text v _ (length text) [] n);
    [lia | apply masked_entities_chain |].
  repeat split; auto.
  intros e He. apply Hout. apply masked_entities_sorted_in. exact He.
Qed.

Lemma placeholder_written (e : Handler.Entity) :
  In e masked_entities ->
  infix (Handler._get_mask_for_type (Handler.e_type e))
        (Handler.masked_query result).
Proof.
  intros He. rewrite masked_query_loop.
  apply mask_loop_writes; [lia | apply masked_entities_chain |].
  apply masked_entities_sorted_in. exact He.
Qed.

Lemma masked_query_length :
  length (Handler.masked_query result) + span_total masked_entities
  = length text + mask_total masked_entities.
Proof.
  rewrite masked_query_loop.
  destruct (@mask_loop_suffix text (Handler.sorted_desc masked_entities)
              (length text) [] ltac:(lia) masked_entities_chain)
    as [head [E L]].
  rewrite E, app_nil_r.
  unfold span_total, mask_total in *.
  rewrite (Permutation_list_sum
             (Permutation_map _ (sorted_desc_perm masked_entities))).
  rewrite (Permutation_list_sum
             (Permutation_map
                (fun e => length (Handler._get_mask_for_type (Handler.e_type e)))
                (sorted_desc_perm masked_entities))).
  exact L.
Qed.
End NonDependentSpans.

Lemma process_query_dependent (post : str -> Handler.post_result) (text : str) :
  Handler.dependent_entities (Handler.process_query post text)
  = filter Handler.e_is_dependent (Handler._detect_pii_entities text)
  /\ Handler.detected_entities (Handler.process_query post text)
     = Handler._detect_pii_entities text.
Proof.
  unfold Handler.process_query, Handler._process_with_backend_analysis.
  destruct (Handler.nonempty _ && Handler.nonempty _); [split; reflexivity|].
  destruct (Handler.nonempty _); [split; reflexivity|].
  destruct (Handler.nonempty _); split; reflexivity.
Qed.

(** X5: when the spans of the non-dependent entities are pairwise disjoint,
    whatever stands in the input text outside those spans stands in the
    sanitized text too: substitution changes nothing but the masked spans. *)
Theorem text_outside_spans_is_kept :
  forall (post : str -> Handler.post_result) (text v : str) (n : nat),
    let r := Handler.process_query post text in
    let es := Handler.non_dependent_entities r in
    (forall a b, In a es -> In b es -> a <> b -> disjoint a b) ->
    stands_outside v text es n ->
    infix v (Handler.masked_query r).
Proof.
  intros post text v n. cbv zeta. intros Hd Hs.
  exact (@kept_outside_spans post text Hd v n Hs).
Qed.

Lemma text_outside_spans_is_kept_witness :
  let r := Handler.process_query unreachable mixed_query in
  let es := Handler.non_dependent_entities r in
  (forall a b, In a es -> In b es -> a <> b -> disjoint a b)
  /\ stands_outside (lit ", add the digits") mixed_query es 17
  /\ infix (lit ", add the digits") (Handler.masked_query r).
Proof.
  cbv zeta.
  assert (E : Handler.non_dependent_entities
                (Handler.process_query unreachable mixed_query)
              = [Handler.mkEntity (lit "bob@site.com") (lit "email") 5 17 false])
    by (vm_compute; reflexivity).
  assert (D : forall a b,
             In a (Handler.non_dependent_entities
                     (Handler.process_query unreachable mixed_query)) ->
             In b (Handler.non_dependent_entities
                     (Handler.process_query unreachable mixed_query)) ->
             a <> b -> disjoint a b).
  { rewrite E. intros a b [<- | []] [<- | []] Hne. exfalso. apply Hne.
    reflexivity. }
  assert (S : stands_outside (lit ", add the digits") mixed_query
                (Handler.non_dependent_entities
                   (Handler.process_query unreachable mixed_query)) 17).
  { rewrite E. split; [vm_compute; lia|]. split; [vm_compute; reflexivity|].
    intros e [<- | []]. right. simpl. lia. }
  split; [exact D|]. split; [exact S|].
  exact (@text_outside_spans_is_kept unreachable mixed_query
           (lit ", add the digits") 17 D S).
Defined.

(** X6: a dependent entity whose span overlaps no non-dependent span keeps
    its original value in the sanitized text (the non-dependent spans being
    pairwise disjoint). *)
Theorem dependent_value_is_kept :
  forall (post : str -> Handler.post_result) (text : str) (e : Handler.Entity),
    let r := Handler.process_query post text in
    let es := Handler.non_dependent_entities r in
    In e (Handler.dependent_entities r) ->
    (forall a b, In a es -> In b es -> a <> b -> disjoint a b) ->
    (forall x, In x es -> disjoint e x) ->
    infix (Handler.e_value e) (Handler.masked_query r).
Proof.
  intros post text e. cbv zeta. intros He Hd Hx.
  destruct (process_query_dependent post text) as [Ed _]. rewrite Ed in He.
  apply filter_In in He. destruct He as [He _].
  destruct (detected_entity_span_value text e He) as [Hs [Hl [Hv Hn]]].
  apply (@kept_outside_spans post text Hd (Handler.e_value e)
           (Handler.e_start e)).
  split; [lia|]. split.
  - rewrite Hn. replace (Handler.e_start e + (Handler.e_end e - Handler.e_start e))
      with (Handler.e_end e) by lia.
    symmetry. exact Hv.
  - intros x Hin. unfold disjoint_from. destruct (Hx x Hin) as [H | H]; lia.
Qed.

Lemma dependent_value_is_kept_witness :
  let r := Handler.process_query unreachable mixed_query in
  let es := Handler.non_dependent_entities r in
  let e := Handler.mkEntity (lit "9876543210") (lit "phone") 37 47 true in
  In e (Handler.dependent_entities r)
  /\ (forall a b, In a es -> In b es -> a <> b -> disjoint a b)
  /\ (forall x, In x es -> disjoint e x)
  /\ Handler.masked_query r = lit "mail [EMAIL], add the digits of 9876543210"
  /\ infix (lit "9876543210") (Handler.masked_query r).
Proof.
  cbv zeta.
  assert (E : Handler.non_dependent_entities
                (Handler.process_query unreachable mixed_query)
              = [Handler.mkEntity (lit "bob@site.com") (lit "email") 5 17 false])
    by (vm_compute; reflexivity).
  assert (I : In (Handler.mkEntity (lit "9876543210") (lit "phone") 37 47 true)
                 (Handler.dependent_entities
                    (Handler.process_query unreachable mixed_query)))
    by (vm_compute; left; reflexivity).
  assert (D : forall a b,
             In a (Handler.non_dependent_entities
                     (Handler.process_query unreachable mixed_query)) ->
             In b (Handler.non_dependent_entities
                     (Handler.process_query unreachable mixed_query)) ->
             a <> b -> disjoint a b).
  { rewrite E. intros a b [<- | []] [<- | []] Hne. exfalso. apply Hne.
    reflexivity. }
  assert (X : forall x,
             In x (Handler.non_dependent_entities
                     (Handler.process_query unreachable mixed_query)) ->
             disjoint (Handler.mkEntity (lit "9876543210") (lit "phone") 37 47
                                        true) x).
  { rewrite E. intros x [<- | []]. right. simpl. lia. }
  split; [exact I|]. split; [exact D|]. split; [exact X|].
  split; [vm_compute; reflexivity|].
  exact (@dependent_value_is_kept unreachable mixed_query _ I D X).
Defined.

(** X7: when the spans of the non-dependent entities are pairwise disjoint,
    the sanitized text holds the placeholder of every non-dependent
    entity. *)
Theorem placeholder_of_every_masked_entity :
  forall (post : str -> Handler.post_result) (text : str) (e : Handler.Entity),
    let r := Handler.process_query post text in
    let es := Handler.non_dependent_entities r in
    (forall a b, In a es -> In b es -> a <> b -> disjoint a b) ->
    In e es ->
    infix (Handler._get_mask_for_type (Handler.e_type e))
          (Handler.masked_query r).
Proof.
  intros post text e. cbv zeta. intros Hd He.
  exact (@placeholder_written post text Hd e He).
Qed.

Lemma placeholder_of_every_masked_entity_witness :
  let r := Handler.process_query unreachable mixed_query in
  let es := Handler.non_dependent_entities r in
  let e := Handler.mkEntity (lit "bob@site.com") (lit "email") 5 17 false in
  (forall a b, In a es -> In b es -> a <> b -> disjoint a b)
  /\ In e es
  /\ infix (lit "[EMAIL]") (Handler.masked_query r).
Proof.
  cbv zeta.
  assert (E : Handler.non_dependent_entities
                (Handler.process_query unreachable mixed_query)
              = [Handler.mkEntity (lit "bob@site.com") (lit "email") 5 17 false])
    by (vm_compute; reflexivity).
  assert (D : forall a b,
             In a (Handler.non_dependent_entities
                     (Handler.process_query unreachable mixed_query)) ->
             In b (Handler.non_dependent_entities
                     (Handler.process_query unreachable mixed_query)) ->
             a <> b -> disjoint a b).
  { rewrite E. intros a b [<- | []] [<- | []] Hne. exfalso. apply Hne.
    reflexivity. }
  assert (I : In (Handler.mkEntity (lit "bob@site.com") (lit "email") 5 17 false)
                 (Handler.non_dependent_entities
                    (Handler.process_query unreachable mixed_query)))
    by (rewrite E; left; reflexivity).
  split; [exact D|]. split; [exact I|].
  exact (@placeholder_of_every_masked_entity unreachable mixed_query _ D I).
Defined.

(** X8: when the spans of the non-dependent entities are pairwise disjoint,
    the sanitized text is as long as the input text, less the masked spans,
    plus the placeholders put in their place. *)
Theorem sanitized_text_length :
  forall (post : str -> Handler.post_result) (text : str),
    let r := Handler.process_query post text in
    let es := Handler.non_dependent_entities r in
    (forall a b, In a es -> In b es -> a <> b -> disjoint a b) ->
    length (Handler.masked_query r) + span_total es
    = length text + mask_total es.
Proof.
  intros post text. cbv zeta. intros Hd.
  exact (@masked_query_length post text Hd).
Qed.

Lemma sanitized_text_length_witness :
  let r := Handler.process_query unreachable mixed_query in
  let es := Handler.non_dependent_entities r in
  (forall a b, In a es -> In b es -> a <> b -> disjoint a b)
  /\ length (Handler.masked_query r) + 12 = length mixed_query + 7.
Proof.
  cbv zeta.
  assert (E : Handler.non_dependent_entities
                (Handler.process_query unreachable mixed_query)
              = [Handler.mkEntity (lit "bob@site.com") (lit "email") 5 17 false])
    by (vm_compute; reflexivity).
  assert (D : forall a b,
             In a (Handler.non_dependent_entities
                     (Handler.process_query unreachable mixed_query)) ->
             In b (Handler.non_dependent_entities
                     (Handler.process_query unreachable mixed_query)) ->
             a <> b -> disjoint a b).
  { rewrite E. intros a b [<- | []] [<- | []] Hne. exfalso. apply Hne.
    reflexivity. }
  split; [exact D|].
  pose proof (@sanitized_text_length unreachable mixed_query D) as L.
  rewrite E in L. exact L.
Defined.

(** ** Text in which nothing is detected *)

Lemma slice_incl (a b : nat) (t : str) (c : ascii) :
  In c (slice a b t) -> In c t.
Proof.
  unfold slice. intros H.
  rewrite <- (firstn_skipn a t). apply in_or_app. right.
  rewrite <- (firstn_skipn (b - a) (skipn a t)). apply in_or_app. left.
  exact H.
Qed.

(** a pattern that demands a character the text does not have finds nothing *)
Lemma no_match_without (t : str) (r : regex) (q : ascii -> bool) :
  must_have q r = true ->
  (forall c, In c t -> q c = false) ->
  finditer t r = [].
Proof.
  intros Hm Hq. destruct (finditer t r) as [|se l] eqn:E; [reflexivity|].
  exfalso.
  assert (Hse : In se (finditer t r)) by (rewrite E; left; reflexivity).
  destruct (@match_value t r q se Hse) as [_ H].
  destruct (H Hm) as [c [Hc Hqc]]. apply slice_incl in Hc.
  rewrite (Hq c Hc) in Hqc. discriminate.
Qed.

Lemma cats_cons (t : str) (r : regex) (rs : list regex) (i : nat)
    (k : nat -> option nat) :
  rmatch t (cats (r :: rs)) i k
  = rmatch t r i (fun j => rmatch t (cats rs) j k).
Proof. destruct rs; reflexivity. Qed.

Lemma nth_error_skipn_cons (t : str) (i : nat) (x : ascii) :
  nth_error t i = Some x -> skipn i t = x :: skipn (S i) t.
Proof.
  revert i; induction t as [|c t IH]; intros i H.
  - destruct i; discriminate.
  - destruct i as [|i]; simpl in *.
    + inversion H; reflexivity.
    + apply IH. exact H.
Qed.

(** a literal matched without regard to case: the text reads the same in
    lower case *)
Lemma rmatch_LitI (t : str) (cue : str) :
  forall i k e,
    rmatch t (LitI cue) i k = Some e ->
    prefixb (lower cue) (lower (skipn i t)) = true.
Proof.
  unfold LitI. induction cue as [|c cue IH]; intros i k e H; [reflexivity|].
  cbn [map] in H. rewrite cats_cons in H. cbn [rmatch ChrI] in H.
  destruct (nth_error t i) as [x|] eqn:N; [|discriminate].
  destruct (Ascii.eqb (lower_char x) (lower_char c)) eqn:X; [|discriminate].
  rewrite (nth_error_skipn_cons _ _ N). cbn [lower map prefixb].
  rewrite Ascii.eqb_sym, X. cbn [andb]. exact (IH _ _ _ H).
Qed.

Lemma prefix_of_tail_infix (p t : str) (i : nat) :
  prefixb p (skipn i t) = true -> infix p t.
Proof.
  intros H. apply prefixb_spec in H. destruct H as [b E].
  exists (firstn i t), b. rewrite <- E. symmetry. apply firstn_skipn.
Qed.

(** a match of the name pattern begins with one of the cue phrases *)
Lemma name_match_cue (t : str) (i e : nat) :
  match_at t Handler.name_re i = Some e ->
  exists cue, In cue name_cues /\ infix cue (lower t).
Proof.
  unfold match_at, Handler.name_re. rewrite cats_cons. cbn [rmatch].
  destruct (word_boundary t i); [|discriminate].
  rewrite cats_cons. cbn [alts rmatch].
  set (k := fun j => rmatch t _ j Some).
  assert (Cue : forall cue,
             In cue name_cues -> lower cue = cue ->
             rmatch t (LitI cue) i k = Some e ->
             exists cue, In cue name_cues /\ infix cue (lower t)).
  { intros cue Hin Hl H. exists cue. split; [exact Hin|].
    apply rmatch_LitI in H. rewrite Hl in H.
    unfold lower in H. rewrite <- skipn_map in H.
    apply (prefix_of_tail_infix _ _ i). exact H. }
  destruct (rmatch t (LitI (lit "my name is")) i k) eqn:M1.
  { intros H; inversion H; subst.
    apply (Cue (lit "my name is")); [vm_compute; auto | reflexivity | exact M1]. }
  destruct (rmatch t (LitI (lit "i am")) i k) eqn:M2.
  { intros H; inversion H; subst.
    apply (Cue (lit "i am")); [vm_compute; auto | reflexivity | exact M2]. }
  destruct (rmatch t (LitI (lit "i'm")) i k) eqn:M3.
  { intros H; inversion H; subst.
    apply (Cue (lit "i'm")); [vm_compute; auto | reflexivity | exact M3]. }
  intros H.
  apply (Cue (lit "call me")); [vm_compute; auto | reflexivity | exact H].
Qed.

Lemma no_name_without_cue (t : str) :
  (forall cue, In cue name_cues -> ~ infix cue (lower t)) ->
  finditer t Handler.name_re = [].
Proof.
  intros H. destruct (finditer t Handler.name_re) as [|se l] eqn:E;
    [reflexivity|].
  exfalso.
  pose proof (finditer_from_match t Handler.name_re (S (length t)) 0) as F.
  fold (finditer t Handler.name_re) in F. rewrite E in F.
  inversion F as [|? ? M _]; subst.
  destruct (@name_match_cue _ _ _ M) as [cue [Hin Hi]].
  exact (H cue Hin Hi).
Qed.

(** X9: an ASCII text without a digit, without an at sign and without a
    phrase that announces a name holds no entity: the sanitized text is the
    text itself, the context is no_pii, and the text goes to the standard
    responder as it is. *)
Theorem plain_text_passes_unchanged :
  forall (post : str -> Handler.post_result) (text : str),
    ascii_text text ->
    (forall c, In c text -> is_digit c = false /\ c <> "@"%char) ->
    (forall cue, In cue name_cues -> ~ infix cue (lower text)) ->
    Handler._detect_pii_entities text = []
    /\ Handler.masked_query (Handler.process_query post text) = text
    /\ Handler.context (Handler.process_query post text) = lit "no_pii"
    /\ Handler.llm_response (Handler.process_query post text)
       = Handler._generate_standard_response post text.
Proof.
  intros post text _ Hc Hcue.
  assert (Hd : forall c, In c text -> is_digit c = false)
    by (intros c H; apply Hc; exact H).
  assert (Ha : forall c, In c text -> Ascii.eqb "@" c = false).
  { intros c H. apply Ascii.eqb_neq. intros E. apply (proj2 (Hc c H)).
    symmetry. exact E. }
  assert (E : Handler._detect_pii_entities text = []).
  { unfold Handler._detect_pii_entities, Handler.pii_patterns,
      Handler.entities_of.
    cbn [flat_map fst snd].
    rewrite (@no_match_without text Handler.phone_re is_digit eq_refl Hd).
    rewrite (@no_match_without text Handler.email_re (Ascii.eqb "@") eq_refl Ha).
    rewrite (@no_name_without_cue text Hcue).
    rewrite (@no_match_without text Handler.ssn_re is_digit eq_refl Hd).
    rewrite (@no_match_without text Handler.credit_card_re is_digit eq_refl Hd).
    reflexivity. }
  split; [exact E|].
  unfold Handler.process_query, Handler._process_with_backend_analysis.
  rewrite E. repeat split.
Qed.

Lemma plain_text_passes_unchanged_witness :
  ascii_text (lit "hello there")
  /\ (forall c, In c (lit "hello there") -> is_digit c = false /\ c <> "@"%char)
  /\ (forall cue, In cue name_cues -> ~ infix cue (lower (lit "hello there")))
  /\ Handler.masked_query (Handler.process_query echo (lit "hello there"))
     = lit "hello there".
Proof.
  assert (Hs : ascii_text (lit "hello there")).
  { intros c H. vm_compute in H.
    repeat (destruct H as [<- | H]; [vm_compute; lia|]).
    destruct H. }
  assert (Hc : forall c, In c (lit "hello there") ->
                         is_digit c = false /\ c <> "@"%char).
  { intros c H. vm_compute in H.
    repeat (destruct H as [<- | H];
            [split; [reflexivity | discriminate]|]).
    destruct H. }
  assert (Hq : forall cue, In cue name_cues ->
                           ~ infix cue (lower (lit "hello there"))).
  { intros cue H. vm_compute in H.
    repeat (destruct H as [<- | H]; [apply infixb_false; reflexivity|]).
    destruct H. }
  split; [exact Hs|]. split; [exact Hc|]. split; [exact Hq|].
  exact (proj1 (proj2 (@plain_text_passes_unchanged echo (lit "hello there")
                         Hs Hc Hq))).
Defined.

(** ** The result record *)

Lemma filter_split_length {A : Type} (f : A -> bool) (l : list A) :
  length (filter f l) + length (filter (fun x => negb (f x)) l) = length l.
Proof.
  induction l as [|x l IH]; simpl; [reflexivity|].
  destruct (f x); simpl; lia.
Qed.

Lemma process_query_fields (post : str -> Handler.post_result) (text : str) :
  let r := Handler.process_query post text in
  let dp := filter Handler.e_is_dependent (Handler._detect_pii_entities text) in
  let nd := filter (fun e => negb (Handler.e_is_dependent e))
                   (Handler._detect_pii_entities text) in
  Handler.original_query r = text
  /\ Handler.privacy_preserved r = Handler.nonempty nd
  /\ Handler.computation_preserved r = Handler.nonempty dp
  /\ Handler.context r
     = (if Handler.nonempty dp
        then if Handler.nonempty nd
             then lit "mixed_dependency" else lit "dependent_only"
        else if Handler.nonempty nd
             then lit "non_dependent_only" else lit "no_pii").
Proof.
  cbv zeta.
  unfold Handler.process_query, Handler._process_with_backend_analysis.
  destruct (filter Handler.e_is_dependent _);
    destruct (filter (fun e => negb (Handler.e_is_dependent e)) _);
    repeat split.
Qed.

(** X10: in the result record every detected entity is in exactly one of the
    two lists, the dependent ones (all of them phone numbers) or the
    non-dependent ones; the two flags tell which lists are not empty, and the
    context is read off the two flags. *)
Theorem result_record_consistent :
  forall (post : str -> Handler.post_result) (user_query : str),
    let r := Handler.process_query post user_query in
    (forall e, In e (Handler.dependent_entities r) <->
               In e (Handler.detected_entities r)
               /\ Handler.e_is_dependent e = true)
    /\ (forall e, In e (Handler.non_dependent_entities r) <->
                  In e (Handler.detected_entities r)
                  /\ Handler.e_is_dependent e = false)
    /\ (forall e, In e (Handler.dependent_entities r) ->
                  Handler.e_type e = lit "phone")
    /\ length (Handler.dependent_entities r)
       + length (Handler.non_dependent_entities r)
       = length (Handler.detected_entities r)
    /\ Handler.computation_preserved r
       = Handler.nonempty (Handler.dependent_entities r)
    /\ Handler.privacy_preserved r
       = Handler.nonempty (Handler.non_dependent_entities r)
    /\ Handler.context r
       = (if Handler.computation_preserved r
          then if Handler.privacy_preserved r
               then lit "mixed_dependency" else lit "dependent_only"
          else if Handler.privacy_preserved r
               then lit "non_dependent_only" else lit "no_pii").
Proof.
  intros post q. cbv zeta.
  destruct (process_query_masked post q) as [End _].
  destruct (process_query_dependent post q) as [Ed Edet].
  destruct (process_query_fields post q) as [_ [Hp [Hc Hx]]].
  rewrite End, Ed, Edet, Hp, Hc, Hx.
  split; [|split; [|split; [|split; [|split; [|split]]]]]; try reflexivity.
  - intros e. apply filter_In.
  - intros e. rewrite filter_In.
    destruct (Handler.e_is_dependent e); simpl; intuition congruence.
  - intros e He. pose proof (dependent_is_phone _ _ He) as P.
    apply str_eqb_eq. exact P.
  - apply filter_split_length.
Qed.

(** ** What [mask_text] records *)

Lemma dict_set_in (k v : str) (d : dict) (kv : str * str) :
  In kv (dict_set k v d) -> kv = (k, v) \/ In kv d.
Proof.
  induction d as [|[k' v'] d IH]; simpl.
  - intros [<- | []]. left. reflexivity.
  - destruct (str_eqb k k'); simpl.
    + intros [<- | H]; auto.
    + intros [<- | H]; auto. destruct (IH H); auto.
Qed.

Lemma loop_records (F : Faker) (draw : gen F -> str * gen F) (label : str)
    (groups : list str) :
  forall st : FakerMasking.mstate F,
    let st' := fold_left (@FakerMasking.mask_one F draw label) groups st in
    FakerMasking.detected st'
    = FakerMasking.detected st ++ repeat label (length groups)
    /\ (forall kv, In kv (FakerMasking.replacements st') ->
                   In kv (FakerMasking.replacements st)
                   \/ In (snd kv) groups).
Proof.
  induction groups as [|group groups IH]; intros st; cbv zeta;
    cbn [fold_left length repeat].
  - rewrite app_nil_r. auto.
  - destruct (@step_fields F draw label st group) as [_ [Sr [Sd _]]].
    destruct (IH (@FakerMasking.mask_one F draw label st group)) as [Hd Hv].
    rewrite Sd in Hd. rewrite Sr in Hv. split.
    + rewrite Hd, <- app_assoc. reflexivity.
    + intros kv Hkv. destruct (Hv kv Hkv) as [H | H].
      * apply dict_set_in in H. destruct H as [-> | H]; [|auto].
        right. left. reflexivity.
      * right. right. exact H.
Qed.

(** X11: [mask_text] lists one 'phone' per phone match and then one 'email'
    per email match, and every original value it stores in the map is a
    matched value, which occurs in the input text. *)
Theorem mask_text_records_matches :
  forall (F : Faker) (text : str) (g : gen F),
    let st := FakerMasking.mask_run F text g in
    let phones := findall text FakerMasking.phone_re in
    let emails := findall text FakerMasking.email_re in
    FakerMasking.detected st
    = repeat (lit "phone") (length phones) ++ repeat (lit "email") (length emails)
    /\ (forall fake original,
           In (fake, original) (FakerMasking.replacements st) ->
           In original (phones ++ emails) /\ infix original text).
Proof.
  intros F text g. cbv zeta. unfold FakerMasking.mask_run.
  destruct (@loop_records F (FakerMasking.fake_phone F) (lit "phone")
              (findall text FakerMasking.phone_re)
              (@FakerMasking.mask_init F text g)) as [Pd Pv].
  destruct (@loop_records F (email F) (lit "email")
              (findall text FakerMasking.email_re)
              (fold_left (@FakerMasking.mask_one F (FakerMasking.fake_phone F)
                                                  (lit "phone"))
                         (findall text FakerMasking.phone_re)
                         (@FakerMasking.mask_init F text g))) as [Ed Ev].
  split.
  - rewrite Ed, Pd. reflexivity.
  - intros fake original H.
    assert (Hin : In original (findall text FakerMasking.phone_re
                               ++ findall text FakerMasking.email_re)).
    { apply in_or_app. destruct (Ev _ H) as [H1 | H1]; [|right; exact H1].
      destruct (Pv _ H1) as [[] | H2]. left. exact H2. }
    split; [exact Hin|].
    apply in_app_or in Hin. destruct Hin as [Hin | Hin];
      eapply findall_infix; exact Hin.
Qed.

(** X12: an ASCII text without a digit and without an at sign is left as it
    is by [mask_text]: nothing is detected, the map is empty and no value is
    drawn; [_fallback_processing] then returns its response unreconstructed. *)
Theorem mask_text_plain_text :
  forall (F : Faker) (text : str) (g : gen F),
    ascii_text text ->
    (forall c, In c text -> is_digit c = false /\ c <> "@"%char) ->
    FakerMasking.mask_text F text g = (text, [], [])
    /\ FakerMasking.faker (FakerMasking.mask_run F text g) = g
    /\ Wrapper._fallback_processing F text g
       = (text, [], Wrapper._generate_fallback_response text text,
          Wrapper._generate_fallback_response text text).
Proof.
  intros F text g _ Hc.
  assert (Hd : forall c, In c text -> is_digit c = false)
    by (intros c H; apply Hc; exact H).
  assert (Ha : forall c, In c text -> Ascii.eqb "@" c = false).
  { intros c H. apply Ascii.eqb_neq. intros E. apply (proj2 (Hc c H)).
    symmetry. exact E. }
  assert (R : FakerMasking.mask_run F text g = @FakerMasking.mask_init F text g).
  { unfold FakerMasking.mask_run, findall.
    rewrite (@no_match_without text FakerMasking.phone_re is_digit eq_refl Hd).
    rewrite (@no_match_without text FakerMasking.email_re (Ascii.eqb "@")
               eq_refl Ha).
    reflexivity. }
  unfold FakerMasking.mask_text, Wrapper._fallback_processing.
  rewrite R. repeat split.
Qed.

Lemma mask_text_plain_text_witness :
  ascii_text (lit "hello there")
  /\ (forall c, In c (lit "hello there") -> is_digit c = false /\ c <> "@"%char)
  /\ FakerMasking.mask_text counting_faker (lit "hello there") 0%Z
     = (lit "hello there", [], []).
Proof.
  assert (Hs : ascii_text (lit "hello there")).
  { intros c H. vm_compute in H.
    repeat (destruct H as [<- | H]; [vm_compute; lia|]).
    destruct H. }
  assert (Hc : forall c, In c (lit "hello there") ->
                         is_digit c = false /\ c <> "@"%char).
  { intros c H. vm_compute in H.
    repeat (destruct H as [<- | H];
            [split; [reflexivity | discriminate]|]).
    destruct H. }
  split; [exact Hs|]. split; [exact Hc|].
  exact (proj1 (@mask_text_plain_text counting_faker (lit "hello there") 0%Z
                  Hs Hc)).
Defined.

(** ** The generator table and the placeholder loop *)

Lemma str_of_digit (d : Z) :
  (0 <= d <= 9)%Z -> digit_string 1 (str_of_int d).
Proof.
  intros H.
  assert (C : (d = 0 \/ d = 1 \/ d = 2 \/ d = 3 \/ d = 4 \/ d = 5 \/ d = 6
               \/ d = 7 \/ d = 8 \/ d = 9)%Z) by lia.
  repeat (destruct C as [-> | C]; [split; reflexivity|]).
  subst. split; reflexivity.
Qed.

Lemma fake_digits_shape (F : Faker) (n : nat) :
  digits_in_range F ->
  forall g, digit_string n (fst (FakerMasking.fake_digits F n g)).
Proof.
  intros HF. induction n as [|n IH]; intros g; cbn [FakerMasking.fake_digits].
  - split; reflexivity.
  - specialize (HF g). destruct (random_digit F g) as [d g1]. cbn [fst] in HF.
    specialize (IH g1).
    destruct (FakerMasking.fake_digits F n g1) as [rest g2]. cbn [fst] in *.
    destruct (@str_of_digit d HF) as [L1 D1]. destruct IH as [L2 D2].
    split.
    + rewrite length_app, L1, L2. reflexivity.
    + rewrite forallb_app, D1, D2. reflexivity.
Qed.

(** X13: with a generator whose digits are 0 to 9, the synthetic value of a
    phone entity (type PHONE or PHONE_NUMBER, in any case) is a string of ten
    digits, that of an AADHAAR entity a string of twelve digits, and so is
    the synthetic phone number of [mask_text]. *)
Theorem synthetic_numbers_are_digit_strings :
  forall (F : Faker) (entity_type : str) (g : gen F),
    digits_in_range F ->
    (upper entity_type = lit "PHONE" \/ upper entity_type = lit "PHONE_NUMBER" ->
     digit_string 10 (fst (Wrapper._generate_fake_value F entity_type g)))
    /\ (upper entity_type = lit "AADHAAR" ->
        digit_string 12 (fst (Wrapper._generate_fake_value F entity_type g)))
    /\ digit_string 10 (fst (FakerMasking.fake_phone F g)).
Proof.
  intros F ty g HF. split; [|split].
  - intros [H | H]; unfold Wrapper._generate_fake_value; rewrite H;
      apply (@fake_digits_shape F 10 HF g).
  - intros H. unfold Wrapper._generate_fake_value. rewrite H.
    apply (@fake_digits_shape F 12 HF g).
  - apply (@fake_digits_shape F 10 HF g).
Qed.

Lemma synthetic_numbers_are_digit_strings_witness :
  digits_in_range counting_faker
  /\ (upper (lit "phone") = lit "PHONE" \/ upper (lit "phone") = lit "PHONE_NUMBER")
  /\ digit_string 10
       (fst (Wrapper._generate_fake_value counting_faker (lit "phone") 3%Z)).
Proof.
  assert (H : digits_in_range counting_faker).
  { intros g. simpl. pose proof (Z.mod_pos_bound g 10 ltac:(lia)). lia. }
  split; [exact H|]. split; [left; reflexivity|].
  exact (proj1 (@synthetic_numbers_are_digit_strings counting_faker
                  (lit "phone") 3%Z H) (or_introl eq_refl)).
Defined.

Lemma existsb_str_eqb_false (v : str) (l : list str) :
  existsb (str_eqb v) l = false -> ~ In v l.
Proof.
  intros H Hin.
  assert (E : existsb (str_eqb v) l = true).
  { apply existsb_exists. exists v. split; [exact Hin | apply str_eqb_refl]. }
  congruence.
Qed.

Lemma placeholder_loop_values (F : Faker) (required_entities : list str)
    (pii_entities : list Wrapper.PiiEntity) :
  forall (st : Wrapper.pstate F) (kv : str * str),
    In kv (Wrapper.fake_replacements
             (fold_left (@Wrapper.replace_placeholder F required_entities)
                        pii_entities st)) ->
    In kv (Wrapper.fake_replacements st)
    \/ exists en, In en pii_entities
                  /\ Wrapper.p_entity en = snd kv
                  /\ ~ In (Wrapper.p_entity en) required_entities
                  /\ ~ In (upper (Wrapper.p_type en)) required_entities.
Proof.
  induction pii_entities as [|entity rest IH]; intros st kv; cbn [fold_left];
    [auto|].
  intros H. destruct (IH _ _ H) as [H1 | [en [Hin Hen]]].
  - unfold Wrapper.replace_placeholder in H1.
    destruct (infixb _ _); [|auto].
    destruct (existsb (str_eqb (Wrapper.p_entity entity)) required_entities)
      eqn:R1; [auto|].
    destruct (existsb (str_eqb (upper (Wrapper.p_type entity)))
                      required_entities) eqn:R2; [auto|].
    cbn [orb] in H1.
    destruct (Wrapper._generate_fake_value _ _ _) as [fake_value g'].
    cbn [Wrapper.fake_replacements] in H1.
    apply dict_set_in in H1. destruct H1 as [-> | H1]; [|auto].
    right. exists entity. cbn [snd]. repeat split.
    + left. reflexivity.
    + apply existsb_str_eqb_false. exact R1.
    + apply existsb_str_eqb_false. exact R2.
  - right. exists en. split; [right; exact Hin | exact Hen].
Qed.

Lemma placeholder_loop_idle (F : Faker) (required_entities : list str)
    (pii_entities : list Wrapper.PiiEntity) (st : Wrapper.pstate F) :
  (forall en, In en pii_entities ->
              ~ infix (lit "[" ++ Wrapper.p_type en ++ lit "]")
                      (Wrapper.anonymized_text st)) ->
  fold_left (@Wrapper.replace_placeholder F required_entities) pii_entities st
  = st.
Proof.
  induction pii_entities as [|entity rest IH]; intros H; cbn [fold_left];
    [reflexivity|].
  assert (E : Wrapper.replace_placeholder required_entities st entity = st).
  { unfold Wrapper.replace_placeholder.
    destruct (infixb _ _) eqn:I; [|reflexivity].
    exfalso. apply (H entity (or_introl eq_refl)). apply infixb_spec. exact I. }
  rewrite E. apply IH. intros en Hen. apply H. right. exact Hen.
Qed.

(** X14: in the placeholder loop of the wrapper every original value stored
    in the map belongs to an entity that the dependency analysis does not
    require, neither by its value nor by its type; and when the text holds
    the placeholder of no entity, the text stays as it is, the map stays
    empty and nothing is drawn. *)
Theorem placeholder_loop_spares_required_entities :
  forall (F : Faker) (masked_text : str) (pii_entities : list Wrapper.PiiEntity)
         (required_entities : list str) (g : gen F),
    let ps := Wrapper.replace_placeholders F masked_text pii_entities
                required_entities g in
    (forall fake original,
        In (fake, original) (Wrapper.fake_replacements ps) ->
        ~ In original required_entities
        /\ exists en, In en pii_entities
                      /\ Wrapper.p_entity en = original
                      /\ ~ In (upper (Wrapper.p_type en)) required_entities)
    /\ ((forall en, In en pii_entities ->
                    ~ infix (lit "[" ++ Wrapper.p_type en ++ lit "]")
                            masked_text) ->
        ps = Wrapper.mkPstate F masked_text [] g).
Proof.
  intros F masked_text ents req g. cbv zeta.
  unfold Wrapper.replace_placeholders. split.
  - intros fake original H.
    destruct (@placeholder_loop_values F req ents _ _ H)
      as [[] | [en [Hin [Hv [Hr Ht]]]]].
    cbn [snd] in Hv. subst original. split; [exact Hr|].
    exists en. auto.
  - intros H. apply placeholder_loop_idle. exact H.
Qed.

Lemma placeholder_loop_spares_required_entities_witness :
  let ents := [Wrapper.mkPiiEntity (lit "NAME") (lit "Bob")] in
  (forall en, In en ents ->
              ~ infix (lit "[" ++ Wrapper.p_type en ++ lit "]")
                      (lit "Call [PHONE] now"))
  /\ Wrapper.replace_placeholders counting_faker (lit "Call [PHONE] now") ents
       [] 0%Z
     = Wrapper.mkPstate counting_faker (lit "Call [PHONE] now") [] 0%Z.
Proof.
  cbv zeta.
  assert (H : forall en,
             In en [Wrapper.mkPiiEntity (lit "NAME") (lit "Bob")] ->
             ~ infix (lit "[" ++ Wrapper.p_type en ++ lit "]")
                     (lit "Call [PHONE] now")).
  { intros en [<- | []]. apply infixb_false. reflexivity. }
  split; [exact H|].
  exact (proj2 (@placeholder_loop_spares_required_entities counting_faker
                  (lit "Call [PHONE] now")
                  [Wrapper.mkPiiEntity (lit "NAME") (lit "Bob")] [] 0%Z) H).
Defined.

(** ** The session store *)

Section DictFacts.
Variables V W : Type.

Lemma find_put_same (k : str) (v : V) (d : list (str * V)) :
  Store.find k (Store.put k v d) = Some v.
Proof.
  induction d as [|[k' v'] d IH]; simpl.
  - rewrite str_eqb_refl. reflexivity.
  - destruct (str_eqb k k') eqn:E; simpl.
    + rewrite str_eqb_refl. reflexivity.
    + rewrite E. exact IH.
Qed.

Lemma find_put_other (k k0 : str) (v : V) (d : list (str * V)) :
  k <> k0 -> Store.find k (Store.put k0 v d) = Store.find k d.
Proof.
  intros N. apply str_eqb_neq in N.
  induction d as [|[k' v'] d IH]; simpl.
  - rewrite N. reflexivity.
  - destruct (str_eqb k0 k') eqn:E; simpl.
    + apply str_eqb_eq in E. subst k'. rewrite N. reflexivity.
    + rewrite IH. reflexivity.
Qed.

Lemma find_del_other (k k0 : str) (d : list (str * V)) :
  k <> k0 -> Store.find k (Store.del k0 d) = Store.find k d.
Proof.
  intros N. apply str_eqb_neq in N.
  induction d as [|[k' v'] d IH]; simpl; [reflexivity|].
  destruct (str_eqb k0 k') eqn:E; simpl.
  - apply str_eqb_eq in E. subst k'. rewrite N. reflexivity.
  - rewrite IH. reflexivity.
Qed.

Lemma find_none (k : str) (d : list (str * V)) :
  Store.find k d = None <-> ~ In k (map fst d).
Proof.
  induction d as [|[k' v'] d IH]; simpl; [tauto|].
  destruct (str_eqb k k') eqn:E.
  - apply str_eqb_eq in E. subst k'. split; [discriminate | tauto].
  - apply str_eqb_neq in E. rewrite IH. split.
    + intros H [H1 | H1]; [congruence | tauto].
    + tauto.
Qed.

Lemma find_in (k : str) (v : V) (d : list (str * V)) :
  Store.find k d = Some v -> In (k, v) d.
Proof.
  induction d as [|[k' v'] d IH]; simpl; [discriminate|].
  destruct (str_eqb k k') eqn:E.
  - apply str_eqb_eq in E. subst k'. intros H. injection H as <-. tauto.
  - auto.
Qed.

Lemma in_find (k : str) (v : V) (d : list (str * V)) :
  NoDup (map fst d) -> In (k, v) d -> Store.find k d = Some v.
Proof.
  induction d as [|[k' v'] d IH]; simpl; [tauto|].
  intros N [H | H]; inversion N as [|? ? N1 N2]; subst.
  - injection H as -> ->. rewrite str_eqb_refl. reflexivity.
  - destruct (str_eqb k k') eqn:E.
    + apply str_eqb_eq in E. subst k'. exfalso. apply N1.
      apply (in_map fst) in H. exact H.
    + auto.
Qed.

Lemma find_del_same (k : str) (d : list (str * V)) :
  NoDup (map fst d) -> Store.find k (Store.del k d) = None.
Proof.
  induction d as [|[k' v'] d IH]; simpl; [reflexivity|].
  intros N. inversion N as [|? ? N1 N2]; subst.
  destruct (str_eqb k k') eqn:E; simpl.
  - apply str_eqb_eq in E. subst k'. apply find_none. exact N1.
  - rewrite E. auto.
Qed.

Lemma mem_keys (k : str) (d1 : list (str * V)) (d2 : list (str * W)) :
  map fst d1 = map fst d2 -> Store.mem k d1 = Store.mem k d2.
Proof.
  unfold Store.mem. revert d2.
  induction d1 as [|[k1 v1] d1 IH]; intros [|[k2 v2] d2]; simpl;
    try discriminate; [reflexivity|].
  intros H. injection H as -> H.
  destruct (str_eqb k k2); [reflexivity | auto].
Qed.

Lemma put_keys (k : str) (v : V) (w : W) (d1 : list (str * V))
    (d2 : list (str * W)) :
  map fst d1 = map fst d2 ->
  map fst (Store.put k v d1) = map fst (Store.put k w d2).
Proof.
  revert d2.
  induction d1 as [|[k1 v1] d1 IH]; intros [|[k2 v2] d2]; simpl;
    try discriminate; [reflexivity|].
  intros H. injection H as -> H.
  destruct (str_eqb k k2); simpl; [congruence|].
  f_equal. auto.
Qed.

Lemma del_keys (k : str) (d1 : list (str * V)) (d2 : list (str * W)) :
  map fst d1 = map fst d2 ->
  map fst (Store.del k d1) = map fst (Store.del k d2).
Proof.
  revert d2.
  induction d1 as [|[k1 v1] d1 IH]; intros [|[k2 v2] d2]; simpl;
    try discriminate; [reflexivity|].
  intros H. injection H as -> H.
  destruct (str_eqb k k2); simpl; [assumption|].
  f_equal. auto.
Qed.

Lemma put_keys_mem (k : str) (v : V) (d : list (str * V)) :
  Store.mem k d = true -> map fst (Store.put k v d) = map fst d.
Proof.
  unfold Store.mem.
  induction d as [|[k' v'] d IH]; simpl; [discriminate|].
  destruct (str_eqb k k') eqn:E; simpl.
  - apply str_eqb_eq in E. subst k'. reflexivity.
  - intros H. rewrite IH by exact H. reflexivity.
Qed.

Lemma put_keys_in (k x : str) (v : V) (d : list (str * V)) :
  In x (map fst (Store.put k v d)) <-> x = k \/ In x (map fst d).
Proof.
  induction d as [|[k' v'] d IH]; simpl.
  - intuition congruence.
  - destruct (str_eqb k k') eqn:E; simpl.
    + apply str_eqb_eq in E. subst k'. intuition congruence.
    + rewrite IH. intuition congruence.
Qed.

Lemma put_NoDup (k : str) (v : V) (d : list (str * V)) :
  NoDup (map fst d) -> NoDup (map fst (Store.put k v d)).
Proof.
  induction d as [|[k' v'] d IH]; simpl; intros N.
  - constructor; [simpl; tauto | constructor].
  - inversion N as [|? ? N1 N2]; subst.
    destruct (str_eqb k k') eqn:E; simpl.
    + apply str_eqb_eq in E. subst k'. constructor; assumption.
    + apply str_eqb_neq in E. constructor; [|auto].
      rewrite put_keys_in. intros [H | H]; [congruence | tauto].
Qed.

Lemma del_in (k : str) (d : list (str * V)) (kv : str * V) :
  In kv (Store.del k d) -> In kv d.
Proof.
  induction d as [|[k' v'] d IH]; simpl; [tauto|].
  destruct (str_eqb k k'); simpl; [tauto|].
  intros [H | H]; [left; exact H | right; auto].
Qed.

Lemma del_NoDup (k : str) (d : list (str * V)) :
  NoDup (map fst d) -> NoDup (map fst (Store.del k d)).
Proof.
  induction d as [|[k' v'] d IH]; simpl; intros N; [constructor|].
  inversion N as [|? ? N1 N2]; subst.
  destruct (str_eqb k k'); simpl; [assumption|].
  constructor; [|auto].
  intros H. apply N1. apply in_map_iff in H. destruct H as [[a b] [H1 H2]].
  apply del_in in H2. simpl in H1. subst a.
  apply (in_map fst) in H2. exact H2.
Qed.

Lemma put_in (k : str) (v : V) (d : list (str * V)) (kv : str * V) :
  In kv (Store.put k v d) -> kv = (k, v) \/ In kv d.
Proof.
  induction d as [|[k' v'] d IH]; simpl.
  - intros [H | []]. left. symmetry. exact H.
  - destruct (str_eqb k k'); simpl.
    + intros [H | H]; [left; symmetry; exact H | right; right; exact H].
    + intros [H | H]; [right; left; exact H|].
      destruct (IH H) as [H1 | H1]; [left; exact H1 | right; right; exact H1].
Qed.

Lemma mem_put (k : str) (v : V) (d : list (str * V)) :
  Store.mem k (Store.put k v d) = true.
Proof. unfold Store.mem. rewrite find_put_same. reflexivity. Qed.

End DictFacts.

Lemma auto_create_mem (session_id created updated : str) (st : Store.store) :
  Store.mem session_id
    (Store.sessions (Store.auto_create session_id created updated st)) = true.
Proof.
  unfold Store.auto_create.
  destruct (Store.mem session_id (Store.sessions st)) eqn:E; [exact E|].
  simpl. apply mem_put.
Qed.

Lemma put_both_consistent (k : str) (s : Store.Session)
    (l : list Store.Message) (st : Store.store) :
  consistent st -> Store.s_id s = k ->
  consistent (Store.mkStore (Store.put k s (Store.sessions st))
                            (Store.put k l (Store.messages st))).
Proof.
  intros (K & N & I) Hs. unfold consistent; simpl.
  split; [apply put_keys; exact K|].
  split; [apply put_NoDup; exact N|].
  intros k' s' H. apply put_in in H. destruct H as [H | H].
  - injection H as -> ->. exact Hs.
  - apply I. exact H.
Qed.

Lemma auto_create_consistent (session_id created updated : str)
    (st : Store.store) :
  consistent st ->
  consistent (Store.auto_create session_id created updated st).
Proof.
  intros C. unfold Store.auto_create.
  destruct (Store.mem session_id (Store.sessions st)); [exact C|].
  apply put_both_consistent; [exact C | reflexivity].
Qed.

Lemma post_refused (post : str -> Handler.post_result)
    (session_id created updated : str) (data : option App.body)
    (stamp time touched : str) (st : Store.store) :
  accepted_text data = None ->
  snd (Store.post_message post session_id created updated data stamp time
                          touched st)
  = Store.auto_create session_id created updated st.
Proof.
  unfold accepted_text, Store.post_message.
  destruct data as [[|kv d]|]; [reflexivity| |reflexivity].
  destruct (App.get (lit "text") (kv :: d)); [|reflexivity].
  destruct (App.truthy (App.get (lit "pii_analysis") (kv :: d)));
    [reflexivity | discriminate].
Qed.

Lemma post_accepted (post : str -> Handler.post_result)
    (session_id created updated : str) (data : option App.body)
    (stamp time touched t : str) (st : Store.store) :
  consistent st ->
  accepted_text data = Some t ->
  let st1 := Store.auto_create session_id created updated st in
  let message :=
    Store.message_of t (Handler.process_query post t) stamp time
                     (length (Store.messages_of session_id st1)) in
  exists s,
    Store.find session_id (Store.sessions st1) = Some s
    /\ Store.post_message post session_id created updated data stamp time
                          touched st
       = (Store.Posted message,
          Store.mkStore
            (Store.put session_id
               (Store.mkSession (Store.s_id s) (Store.title s)
                                (Store.created_at s) touched)
               (Store.sessions st1))
            (Store.put session_id
               (Store.messages_of session_id st1 ++ [message])
               (Store.messages st1))).
Proof.
  intros C A st1 message.
  pose proof (auto_create_mem session_id created updated st) as M.
  pose proof (auto_create_consistent session_id created updated C) as C1.
  fold st1 in M, C1.
  assert (M2 : Store.mem session_id (Store.messages st1) = true).
  { rewrite <- M. symmetry. apply mem_keys. apply C1. }
  unfold Store.mem in M.
  destruct (Store.find session_id (Store.sessions st1)) as [s|] eqn:F;
    [|discriminate].
  exists s. split; [reflexivity|].
  unfold accepted_text in A. unfold Store.post_message.
  fold st1. rewrite M2, F.
  destruct data as [[|kv d]|]; [discriminate| |discriminate].
  destruct (App.get (lit "text") (kv :: d)) as [t'|]; [|discriminate].
  destruct (App.truthy (App.get (lit "pii_analysis") (kv :: d)));
    [discriminate|].
  injection A as ->. reflexivity.
Qed.

Lemma handle_consistent (post : str -> Handler.post_result)
    (r : Store.request) (st : Store.store) :
  consistent st -> consistent (snd (Store.handle post r st)).
Proof.
  intros C. destruct r as [data stamp created updated | | session_id
                          | session_id created updated
                          | session_id created updated data stamp time touched
                          | ]; simpl.
  - apply put_both_consistent; [exact C | reflexivity].
  - exact C.
  - unfold Store.delete_session.
    destruct (Store.mem session_id (Store.sessions st)) eqn:M; [|exact C].
    destruct C as (K & N & I).
    rewrite <- (mem_keys session_id _ _ K), M. unfold consistent; simpl.
    split; [apply del_keys; exact K|].
    split; [apply del_NoDup; exact N|].
    intros k s H. apply I. apply (del_in _ _ _ H).
  - apply auto_create_consistent. exact C.
  - destruct (accepted_text data) as [t|] eqn:A.
    + destruct (post_accepted post session_id created updated data stamp time
                              touched C A) as (s & F & E).
      rewrite E. simpl.
      pose proof (auto_create_consistent session_id created updated C) as C1.
      apply put_both_consistent; [exact C1|]. simpl.
      apply find_in in F. apply C1 in F. exact F.
    + rewrite post_refused by exact A.
      apply auto_create_consistent. exact C.
  - unfold consistent; simpl. split; [reflexivity|].
    split; [constructor | tauto].
Qed.

Lemma run_app (post : str -> Handler.post_result)
    (reqs1 reqs2 : list Store.request) (st : Store.store) :
  Store.run post (reqs1 ++ reqs2) st
  = Store.run post reqs2 (Store.run post reqs1 st).
Proof. unfold Store.run. apply fold_left_app. Qed.

Lemma run_consistent (post : str -> Handler.post_result)
    (reqs : list Store.request) (st : Store.store) :
  consistent st -> consistent (Store.run post reqs st).
Proof.
  revert st. induction reqs as [|r reqs IH]; intros st C; [exact C|].
  simpl. apply IH. apply handle_consistent. exact C.
Qed.

Lemma empty_consistent : consistent Store.empty.
Proof.
  unfold consistent; simpl. split; [reflexivity|].
  split; [constructor | tauto].
Qed.

(** X15. After any sequence of requests to the endpoints, from the empty
    store, [sessions] and [messages] have the same keys in the same order,
    and every session is stored under its own identifier; a session that is
    stored has messages that can be looked up, and the other way round; and
    the list that [get_sessions] answers has no identifier twice. *)
Theorem store_stays_consistent :
  forall (post : str -> Handler.post_result) (reqs : list Store.request),
    let st := Store.run post reqs Store.empty in
    consistent st
    /\ (forall k, Store.mem k (Store.sessions st)
                  = Store.mem k (Store.messages st))
    /\ forall l,
        fst (Store.handle post Store.GetSessions st) = Store.SessionList l ->
        NoDup (map Store.s_id l).
Proof.
  intros post reqs st.
  assert (C : consistent st) by (apply run_consistent, empty_consistent).
  split; [exact C|]. split.
  - intros k. apply mem_keys. apply C.
  - intros l H. simpl in H. injection H as <-.
    destruct C as (_ & N & I).
    assert (E : map Store.s_id (map snd (Store.sessions st))
                = map fst (Store.sessions st)).
    { rewrite map_map. apply map_ext_in. intros [k s] H. simpl.
      apply I. exact H. }
    rewrite E. exact N.
Qed.

(** *** Identifiers of the messages *)

Lemma str_of_int_inj (i j : nat) :
  str_of_int (Z.of_nat i) = str_of_int (Z.of_nat j) -> i = j.
Proof.
  unfold str_of_int, lit. intros H.
  assert (N : forall n : nat,
             Z.to_int (Z.of_nat n) <> Decimal.Pos Decimal.Nil
             /\ Z.to_int (Z.of_nat n) <> Decimal.Neg Decimal.Nil).
  { intros n. destruct (Z.of_nat n) as [|p|p] eqn:E; simpl.
    - split; discriminate.
    - split; [|discriminate]. intros K. injection K as K.
      exact (Unsigned.to_uint_nonnil p K).
    - lia. }
  apply (f_equal string_of_list_ascii) in H.
  rewrite !string_of_list_ascii_of_string in H.
  apply (f_equal NilZero.int_of_string) in H.
  rewrite !NilZero.isi in H by apply N.
  injection H as H. apply DecimalZ.to_int_inj in H. lia.
Qed.

Lemma app_inj_length (A : Type) (a b x y : list A) :
  length a = length b -> a ++ x = b ++ y -> a = b /\ x = y.
Proof.
  revert b. induction a as [|c a IH]; intros [|d b]; simpl;
    try discriminate; [auto|].
  intros L H. injection L as L. injection H as -> H.
  destruct (IH b L H) as [-> ->]. auto.
Qed.

Lemma numbered_put_nil (k : str) (st : Store.store)
    (ss : list (str * Store.Session)) :
  numbered st -> numbered (Store.mkStore ss (Store.put k [] (Store.messages st))).
Proof.
  intros Nm k' ms n m H E. simpl in H. apply put_in in H.
  destruct H as [H | H].
  - injection H as -> ->. destruct n; discriminate.
  - exact (Nm k' ms n m H E).
Qed.

Lemma auto_create_numbered (session_id created updated : str)
    (st : Store.store) :
  numbered st -> numbered (Store.auto_create session_id created updated st).
Proof.
  intros Nm. unfold Store.auto_create.
  destruct (Store.mem session_id (Store.sessions st)); [exact Nm|].
  apply numbered_put_nil. exact Nm.
Qed.

Lemma handle_numbered (post : str -> Handler.post_result)
    (r : Store.request) (st : Store.store) :
  consistent st -> numbered st -> well_stamped r ->
  numbered (snd (Store.handle post r st)).
Proof.
  intros C Nm Ws.
  destruct r as [data stamp created updated | | session_id
                | session_id created updated
                | session_id created updated data stamp time touched
                | ]; simpl.
  - apply numbered_put_nil. exact Nm.
  - exact Nm.
  - unfold Store.delete_session.
    destruct (Store.mem session_id (Store.sessions st)); [|exact Nm].
    simpl. intros k ms n m H E. simpl in H.
    destruct (Store.mem session_id (Store.messages st)).
    + apply del_in in H. exact (Nm k ms n m H E).
    + exact (Nm k ms n m H E).
  - apply auto_create_numbered. exact Nm.
  - pose proof (auto_create_numbered session_id created updated Nm) as Nm1.
    destruct (accepted_text data) as [t|] eqn:A.
    + destruct (post_accepted post session_id created updated data stamp time
                              touched C A) as (s & F & E).
      rewrite E. simpl. clear E.
      set (st1 := Store.auto_create session_id created updated st) in *.
      intros k ms n m H En. simpl in H. apply put_in in H.
      destruct H as [H | H]; [|exact (Nm1 k ms n m H En)].
      injection H as -> ->.
      destruct (Nat.lt_ge_cases n (length (Store.messages_of session_id st1)))
        as [L | L].
      * rewrite nth_error_app1 in En by exact L.
        unfold Store.messages_of in En, L.
        destruct (Store.find session_id (Store.messages st1)) as [old|] eqn:Fo.
        -- apply find_in in Fo. exact (Nm1 _ _ n m Fo En).
        -- simpl in L. lia.
      * rewrite nth_error_app2 in En by exact L.
        destruct (n - length (Store.messages_of session_id st1)) as [|d] eqn:D.
        -- simpl in En. injection En as <-. exists stamp.
           split; [exact Ws|]. simpl.
           replace n with (length (Store.messages_of session_id st1)) by lia.
           reflexivity.
        -- destruct d; discriminate.
    + rewrite post_refused by exact A. exact Nm1.
  - intros k ms n m H. destruct H.
Qed.

Lemma run_numbered (post : str -> Handler.post_result)
    (reqs : list Store.request) (st : Store.store) :
  consistent st -> numbered st -> Forall well_stamped reqs ->
  numbered (Store.run post reqs st).
Proof.
  revert st. induction reqs as [|r reqs IH]; intros st C Nm Ws; [exact Nm|].
  inversion Ws as [|? ? W1 W2]; subst. simpl. apply IH.
  - apply handle_consistent. exact C.
  - apply handle_numbered; assumption.
  - exact W2.
Qed.

(** X16. When the clock is read in the format of fifteen characters, then
    after any sequence of requests from the empty store the message at index
    [n] of a session has an identifier that ends with [n], and no two
    messages of one session have the same identifier. *)
Theorem message_ids_unique_in_session :
  forall (post : str -> Handler.post_result) (reqs : list Store.request)
         (k : str) (ms : list Store.Message),
    Forall well_stamped reqs ->
    In (k, ms) (Store.messages (Store.run post reqs Store.empty)) ->
    NoDup (map Store.m_id ms)
    /\ forall n m,
        nth_error ms n = Some m ->
        exists stamp,
          Store.m_id m
          = lit "msg_" ++ stamp ++ lit "_" ++ str_of_int (Z.of_nat n).
Proof.
  intros post reqs k ms Ws H.
  assert (Nm : numbered (Store.run post reqs Store.empty)).
  { apply run_numbered; [apply empty_consistent | | exact Ws].
    intros k' ms' n m H'. destruct H'. }
  split.
  - apply NoDup_nth_error. intros i j Li E.
    rewrite length_map in Li.
    rewrite !nth_error_map in E.
    destruct (nth_error ms i) as [mi|] eqn:Ei;
      [|apply nth_error_None in Ei; lia].
    destruct (nth_error ms j) as [mj|] eqn:Ej; [|discriminate].
    simpl in E. injection E as E.
    destruct (Nm k ms i mi H Ei) as (si & Lsi & Idi).
    destruct (Nm k ms j mj H Ej) as (sj & Lsj & Idj).
    rewrite Idi, Idj in E.
    apply app_inv_head in E.
    apply app_inj_length in E; [|congruence].
    destruct E as [_ E]. apply app_inv_head in E.
    apply str_of_int_inj. exact E.
  - intros n m E. destruct (Nm k ms n m H E) as (stamp & _ & Id).
    exists stamp. exact Id.
Qed.

Lemma message_ids_unique_in_session_witness :
  NoDup (map Store.m_id
           (Store.messages_of (lit "s1")
              (Store.run unreachable some_requests Store.empty))).
Proof.
  apply (@message_ids_unique_in_session unreachable some_requests (lit "s1")
           (Store.messages_of (lit "s1")
              (Store.run unreachable some_requests Store.empty))).
  - repeat constructor.
  - vm_compute. right. left. reflexivity.
Defined.

(** *** What a request leaves alone *)

Lemma auto_create_other (k session_id created updated : str)
    (st : Store.store) :
  k <> session_id ->
  let st1 := Store.auto_create session_id created updated st in
  Store.find k (Store.sessions st1) = Store.find k (Store.sessions st)
  /\ Store.find k (Store.messages st1) = Store.find k (Store.messages st).
Proof.
  intros N. unfold Store.auto_create.
  destruct (Store.mem session_id (Store.sessions st)); simpl; [auto|].
  split; apply find_put_other; exact N.
Qed.

(** X17. A request changes nothing for a session it does not name: apart
    from [clear_history], every endpoint leaves the entry and the messages of
    every other session as they are. *)
Theorem request_leaves_other_sessions :
  forall (post : str -> Handler.post_result) (r : Store.request)
         (st : Store.store) (k : str),
    ~ names r st k ->
    let st' := snd (Store.handle post r st) in
    Store.find k (Store.sessions st') = Store.find k (Store.sessions st)
    /\ Store.find k (Store.messages st') = Store.find k (Store.messages st).
Proof.
  intros post r st k N.
  destruct r as [data stamp created updated | | session_id
                | session_id created updated
                | session_id created updated data stamp time touched
                | ]; simpl in *.
  - split; apply find_put_other; exact N.
  - auto.
  - unfold Store.delete_session.
    destruct (Store.mem session_id (Store.sessions st)); simpl; [|auto].
    split; [apply find_del_other; exact N|].
    destruct (Store.mem session_id (Store.messages st)); [|reflexivity].
    apply find_del_other; exact N.
  - apply auto_create_other. exact N.
  - destruct (auto_create_other created updated st N) as [A1 A2].
    unfold Store.post_message.
    set (st1 := Store.auto_create session_id created updated st) in *.
    destruct data as [[|kv d]|]; [auto| |auto].
    destruct (App.get (lit "text") (kv :: d)) as [t|]; [|auto].
    destruct (App.truthy (App.get (lit "pii_analysis") (kv :: d))); [auto|].
    destruct (Store.find session_id (Store.sessions st1));
      cbn [snd Store.sessions Store.messages];
      rewrite ?find_put_other by exact N;
      (split; [exact A1|]);
      (destruct (Store.mem session_id (Store.messages st1)); [exact A2|]);
      rewrite find_put_other by exact N; exact A2.
  - tauto.
Qed.

Lemma request_leaves_other_sessions_witness :
  Store.find (lit "s1")
    (Store.messages
       (snd (Store.handle unreachable (Store.DeleteSession (lit "s2"))
               (Store.run unreachable (firstn 4 some_requests) Store.empty))))
  = Store.find (lit "s1")
      (Store.messages
         (Store.run unreachable (firstn 4 some_requests) Store.empty)).
Proof.
  apply (@request_leaves_other_sessions unreachable
           (Store.DeleteSession (lit "s2"))
           (Store.run unreachable (firstn 4 some_requests) Store.empty)
           (lit "s1")).
  simpl. discriminate.
Defined.

(** *** The messages of a session *)

Lemma auto_create_messages_of (k session_id created updated : str)
    (st : Store.store) :
  consistent st ->
  Store.messages_of k (Store.auto_create session_id created updated st)
  = Store.messages_of k st.
Proof.
  intros C. unfold Store.auto_create.
  destruct (Store.mem session_id (Store.sessions st)) eqn:M; [reflexivity|].
  unfold Store.messages_of; simpl.
  destruct (str_eqb k session_id) eqn:E.
  - apply str_eqb_eq in E. subst k. rewrite find_put_same.
    rewrite (mem_keys session_id _ _ (proj1 C)) in M. unfold Store.mem in M.
    destruct (Store.find session_id (Store.messages st));
      [discriminate | reflexivity].
  - apply str_eqb_neq in E. rewrite find_put_other by exact E. reflexivity.
Qed.

Lemma messages_of_other (post : str -> Handler.post_result)
    (r : Store.request) (st : Store.store) (k : str) :
  ~ names r st k ->
  Store.messages_of k (snd (Store.handle post r st)) = Store.messages_of k st.
Proof.
  intros N. unfold Store.messages_of.
  assert (E : Store.find k (Store.messages (snd (Store.handle post r st)))
              = Store.find k (Store.messages st)).
  { revert N. clear.
    destruct r as [data stamp created updated | | session_id
                  | session_id created updated
                  | session_id created updated data stamp time touched
                  | ]; simpl; intros N.
    - apply find_put_other; exact N.
    - reflexivity.
    - unfold Store.delete_session.
      destruct (Store.mem session_id (Store.sessions st)); simpl;
        [|reflexivity].
      destruct (Store.mem session_id (Store.messages st)); [|reflexivity].
      apply find_del_other; exact N.
    - apply auto_create_other. exact N.
    - destruct (auto_create_other created updated st N) as [_ A2].
      unfold Store.post_message.
      set (st1 := Store.auto_create session_id created updated st) in *.
      destruct data as [[|kv d]|]; [auto| |auto].
      destruct (App.get (lit "text") (kv :: d)) as [t|]; [|auto].
      destruct (App.truthy (App.get (lit "pii_analysis") (kv :: d)));
        [auto|].
      destruct (Store.find session_id (Store.sessions st1));
        cbn [snd Store.sessions Store.messages];
        rewrite ?find_put_other by exact N;
        (destruct (Store.mem session_id (Store.messages st1)); [exact A2|]);
        rewrite find_put_other by exact N; exact A2.
    - tauto. }
  rewrite E. reflexivity.
Qed.

Lemma handle_history (post : str -> Handler.post_result) (k : str)
    (r : Store.request) (st : Store.store) :
  consistent st -> calm k r st = true ->
  exists extra,
    Store.messages_of k (snd (Store.handle post r st))
    = Store.messages_of k st ++ extra
    /\ map Store.user_message extra = posted_texts k [r]
    /\ map Store.llm_prompt extra
       = map (fun t => Handler.masked_query (Handler.process_query post t))
             (posted_texts k [r]).
Proof.
  intros C Cm.
  assert (Other : ~ names r st k -> posted_texts k [r] = [] ->
                  exists extra,
                    Store.messages_of k (snd (Store.handle post r st))
                    = Store.messages_of k st ++ extra
                    /\ map Store.user_message extra = posted_texts k [r]
                    /\ map Store.llm_prompt extra
                       = map (fun t => Handler.masked_query
                                         (Handler.process_query post t))
                             (posted_texts k [r])).
  { intros N P. exists []. rewrite P, app_nil_r.
    split; [apply messages_of_other; exact N | split; reflexivity]. }
  destruct r as [data stamp created updated | | session_id
                | session_id created updated
                | session_id created updated data stamp time touched
                | ]; cbn [calm] in Cm.
  - apply Other; [|reflexivity]. cbn [names].
    apply negb_true_iff, str_eqb_neq in Cm. congruence.
  - apply Other; [|reflexivity]. simpl. tauto.
  - apply Other; [|reflexivity]. simpl.
    apply negb_true_iff, str_eqb_neq in Cm. congruence.
  - exists []. rewrite app_nil_r. simpl.
    split; [apply auto_create_messages_of; exact C | split; reflexivity].
  - destruct (str_eqb session_id k) eqn:E.
    + apply str_eqb_eq in E. subst session_id.
      cbn [posted_texts]. rewrite str_eqb_refl, app_nil_r.
      cbn [Store.handle].
      destruct (accepted_text data) as [t|] eqn:A.
      * destruct (post_accepted post k created updated data stamp time
                                touched C A) as (s & F & Eq).
        rewrite Eq. clear Eq. cbn [snd].
        eexists. split.
        -- unfold Store.messages_of at 1. cbn [Store.messages].
           rewrite find_put_same.
           rewrite auto_create_messages_of by exact C. reflexivity.
        -- split; reflexivity.
      * rewrite post_refused by exact A. exists []. rewrite app_nil_r.
        split; [apply auto_create_messages_of; exact C | split; reflexivity].
    + apply Other.
      * simpl. apply str_eqb_neq in E. congruence.
      * simpl. rewrite E. reflexivity.
  - discriminate.
Qed.

Lemma run_history (post : str -> Handler.post_result) (k : str)
    (reqs : list Store.request) (st : Store.store) :
  consistent st -> undisturbed post k reqs st = true ->
  map Store.user_message (Store.messages_of k (Store.run post reqs st))
  = map Store.user_message (Store.messages_of k st) ++ posted_texts k reqs
  /\ map Store.llm_prompt (Store.messages_of k (Store.run post reqs st))
     = map Store.llm_prompt (Store.messages_of k st)
         ++ map (fun t => Handler.masked_query (Handler.process_query post t))
                (posted_texts k reqs).
Proof.
  revert st. induction reqs as [|r reqs IH]; intros st C U.
  - simpl. rewrite !app_nil_r. auto.
  - simpl in U. apply andb_true_iff in U. destruct U as [U1 U2].
    destruct (handle_history post k r C U1) as (extra & E1 & E2 & E3).
    destruct (IH _ (handle_consistent post r C) U2) as [I1 I2].
    assert (P : posted_texts k (r :: reqs)
                = posted_texts k [r] ++ posted_texts k reqs).
    { destruct r; simpl; rewrite ?app_nil_r; reflexivity. }
    change (Store.run post (r :: reqs) st)
      with (Store.run post reqs (snd (Store.handle post r st))).
    rewrite I1, I2, E1, P, !map_app, E2, E3, <- !app_assoc. auto.
Qed.

(** X18. For requests that carry no analysis of the client, in a store
    reached by such requests: as long as session [k] is neither deleted nor
    created anew, its messages are kept, a POST without a text adds nothing,
    and each text that is posted to it adds one message at the end, with the
    text as it was typed and the sanitized text of the handler as the
    prompt. *)
Theorem session_history_grows :
  forall (post : str -> Handler.post_result) (k : str)
         (before reqs : list Store.request),
    Forall no_analysis before ->
    Forall no_analysis reqs ->
    let st := Store.run post before Store.empty in
    undisturbed post k reqs st = true ->
    map Store.user_message (Store.messages_of k (Store.run post reqs st))
    = map Store.user_message (Store.messages_of k st) ++ posted_texts k reqs
    /\ map Store.llm_prompt (Store.messages_of k (Store.run post reqs st))
       = map Store.llm_prompt (Store.messages_of k st)
           ++ map (fun t =>
                     Handler.masked_query (Handler.process_query post t))
                  (posted_texts k reqs).
Proof.
  intros post k before reqs _ _ st U.
  apply run_history; [|exact U].
  apply run_consistent, empty_consistent.
Qed.

Lemma session_history_grows_witness :
  map Store.user_message
    (Store.messages_of (lit "s1")
       (Store.run unreachable (skipn 2 some_requests)
          (Store.run unreachable (firstn 2 some_requests) Store.empty)))
  = [lit "hello"; lit "mail bob@site.com"].
Proof.
  apply (@session_history_grows unreachable (lit "s1")
           (firstn 2 some_requests) (skipn 2 some_requests)).
  - repeat constructor.
  - repeat constructor.
  - vm_compute. reflexivity.
Defined.

(** *** The privacy score of a stored message *)

Lemma score_closed_form (result : Handler.Result) :
  let n := length (Handler.detected_entities result) in
  (Store._calculate_privacy_score result
   == if n =? 0 then 100
      else Qmax 20 (inject_Z (100 - 8 * Z.of_nat n)))%Q.
Proof.
  intros n. unfold Store._calculate_privacy_score. fold n.
  destruct n as [|n']; [reflexivity|].
  cbn [Nat.eqb Nat.ltb Nat.leb length].
  set (q := inject_Z (Z.of_nat (S n'))).
  assert (B : (100 - inject_Z (Z.of_nat (S n' * 8)) + inject_Z 0 / q * 15
               == inject_Z (100 - 8 * Z.of_nat (S n')))%Q).
  { unfold Qdiv. change (inject_Z 0) with 0%Q.
    rewrite !Qmult_0_l, Qplus_0_r.
    unfold Zminus. rewrite inject_Z_plus, inject_Z_opp.
    replace (Z.of_nat (S n' * 8)) with (8 * Z.of_nat (S n'))%Z by lia.
    reflexivity. }
  rewrite B.
  rewrite Q.min_r; [reflexivity|].
  change 100%Q with (inject_Z 100). rewrite <- Zle_Qle. lia.
Qed.

(** X19. The privacy score stored with a message depends on the number of
    detected entities alone, not on how many of them were masked: it is 100
    when nothing is detected, and otherwise 100 less 8 for each detected
    entity, but never less than 20. *)
Theorem message_score_ignores_masking :
  forall (user_text : str) (result : Handler.Result) (stamp time : str)
         (count : nat),
    let m := Store.message_of user_text result stamp time count in
    let n := length (Store.detected_entities m) in
    (n = 0 -> (Store.privacy_score m == 100)%Q)
    /\ (0 < n <= 10 ->
        (Store.privacy_score m == inject_Z (100 - 8 * Z.of_nat n))%Q)
    /\ (10 <= n -> (Store.privacy_score m == 20)%Q).
Proof.
  intros user_text result stamp time count m n.
  pose proof (score_closed_form result) as S0.
  change (Store.privacy_score m) with (Store._calculate_privacy_score result).
  change n with (length (Handler.detected_entities result)) in *.
  cbv zeta in S0.
  set (k := length (Handler.detected_entities result)) in *.
  split; [|split]; intros H; rewrite S0.
  - rewrite H. reflexivity.
  - destruct (Nat.eqb_spec k 0) as [E | E]; [lia|].
    apply Q.max_r. change 20%Q with (inject_Z 20). rewrite <- Zle_Qle. lia.
  - destruct (Nat.eqb_spec k 0) as [E | E]; [lia|].
    apply Q.max_l. change 20%Q with (inject_Z 20). rewrite <- Zle_Qle. lia.
Qed.

Lemma message_score_ignores_masking_witness :
  (Store.privacy_score
     (Store.message_of mixed_query
        (Handler.process_query unreachable mixed_query) [] [] 0)
   == inject_Z (100 - 8 * 2))%Q.
Proof.
  apply (proj1 (proj2 (@message_score_ignores_masking mixed_query
           (Handler.process_query unreachable mixed_query) [] [] 0))).
  vm_compute. lia.
Defined.

(** ** The maps of [ModelWrapper] *)

Lemma dict_set_put (k v : str) (d : dict) : dict_set k v d = Store.put k v d.
Proof.
  induction d as [|[k' v'] d IH]; simpl; [reflexivity|].
  destruct (str_eqb k k'); [reflexivity | rewrite IH; reflexivity].
Qed.

Lemma dict_set_map (A : Type) (f : A -> str) (k : str) (e : A)
    (l : list (str * A)) :
  dict_set k (f e) (map (fun p => (fst p, f (snd p))) l)
  = map (fun p => (fst p, f (snd p))) (Store.put k e l).
Proof.
  induction l as [|[k' e'] l IH]; simpl; [reflexivity|].
  destruct (str_eqb k k'); simpl; [reflexivity | rewrite IH; reflexivity].
Qed.

Lemma apply_loop_gen (F : Faker) (pii_entities : list Maps.ModelEntity) :
  forall st : Maps.fstate F,
    Maps.fgen (fold_left (@Maps.apply_replacement F) pii_entities st)
    = drawn_for F pii_entities (Maps.fgen st).
Proof.
  unfold drawn_for.
  induction pii_entities as [|e es IH]; intros st; [reflexivity|].
  cbn [fold_left filter]. rewrite IH.
  unfold Maps.apply_replacement.
  destruct (Maps.masked e); [|reflexivity].
  cbn [fold_left].
  destruct (Wrapper._generate_fake_value F (Maps.m_type e) (Maps.fgen st))
    as [fake g'].
  destruct (infixb (lit "[" ++ Maps.m_type e ++ lit "]") (Maps.masked_text st));
    reflexivity.
Qed.

Lemma apply_loop_paired (F : Faker) (pii_entities : list Maps.ModelEntity) :
  forall (st : Maps.fstate F) (l : list (str * Maps.ModelEntity)),
    Maps.replacements st
    = map (fun p => (fst p, Maps.placeholder_of (snd p))) l ->
    Maps.fake_to_original st
    = map (fun p => (fst p, Maps.m_entity (snd p))) l ->
    exists l',
      Maps.replacements (fold_left (@Maps.apply_replacement F) pii_entities st)
      = map (fun p => (fst p, Maps.placeholder_of (snd p))) l'
      /\ Maps.fake_to_original
           (fold_left (@Maps.apply_replacement F) pii_entities st)
         = map (fun p => (fst p, Maps.m_entity (snd p))) l'
      /\ forall p, In p l' ->
                   In p l
                   \/ (In (snd p) pii_entities /\ Maps.masked (snd p) = true).
Proof.
  induction pii_entities as [|e es IH]; intros st l R O.
  - exists l. simpl. auto.
  - simpl.
    assert (S1 : exists l1,
               Maps.replacements (Maps.apply_replacement st e)
               = map (fun p => (fst p, Maps.placeholder_of (snd p))) l1
               /\ Maps.fake_to_original (Maps.apply_replacement st e)
                  = map (fun p => (fst p, Maps.m_entity (snd p))) l1
               /\ forall p, In p l1 ->
                            In p l \/ (snd p = e /\ Maps.masked e = true)).
    { unfold Maps.apply_replacement.
      destruct (Maps.masked e) eqn:M; [|exists l; auto].
      destruct (Wrapper._generate_fake_value F (Maps.m_type e) (Maps.fgen st))
        as [fake g'].
      destruct (infixb _ _); [|exists l; auto].
      exists (Store.put fake e l). simpl. rewrite R, O.
      split; [apply (dict_set_map Maps.placeholder_of)|].
      split; [apply (dict_set_map Maps.m_entity)|].
      intros p H. apply put_in in H. destruct H as [-> | H]; auto. }
    destruct S1 as (l1 & R1 & O1 & I1).
    destruct (IH _ l1 R1 O1) as (l' & R' & O' & I').
    exists l'. split; [exact R'|]. split; [exact O'|].
    intros p H. destruct (I' p H) as [H1 | [H1 H2]].
    + destruct (I1 p H1) as [H3 | [H3 H4]]; [auto|].
      right. subst e. auto.
    + right. auto.
Qed.

(** X20. The two maps that [_apply_faker_replacements] returns have the same
    keys in the same order, and what a key stands for in both comes from one
    masked entity: its placeholder in [replacements], its original value in
    [fake_to_original].  A value is drawn for every masked entity, whether
    its placeholder stands in the text or not. *)
Theorem faker_maps_agree :
  forall (F : Faker) (text : str) (pii_entities : list Maps.ModelEntity)
         (g : gen F),
    let st := Maps._apply_faker_replacements F text pii_entities g in
    keys (Maps.replacements st) = keys (Maps.fake_to_original st)
    /\ (forall i fake p,
           nth_error (Maps.replacements st) i = Some (fake, p) ->
           exists e,
             In e pii_entities /\ Maps.masked e = true
             /\ p = Maps.placeholder_of e
             /\ nth_error (Maps.fake_to_original st) i
                = Some (fake, Maps.m_entity e))
    /\ Maps.fgen st = drawn_for F pii_entities g.
Proof.
  intros F text pii_entities g st.
  destruct (@apply_loop_paired F pii_entities (Maps.mkFstate F text [] [] g)
              [] eq_refl eq_refl) as (l & R & O & I).
  fold (Maps._apply_faker_replacements F text pii_entities g) in R, O.
  fold st in R, O.
  split; [|split].
  - rewrite R, O. unfold keys. rewrite !map_map. reflexivity.
  - intros i fake p H. rewrite R in H. rewrite nth_error_map in H.
    destruct (nth_error l i) as [[k e]|] eqn:E; [|discriminate].
    simpl in H. injection H as -> <-.
    exists e. pose proof (nth_error_In _ _ E) as Hin.
    destruct (I _ Hin) as [[] | [H1 H2]].
    split; [exact H1|]. split; [exact H2|]. split; [reflexivity|].
    rewrite O, nth_error_map, E. reflexivity.
  - apply (apply_loop_gen pii_entities (Maps.mkFstate F text [] [] g)).
Qed.

Lemma extract_step_find (t : str) (l : list Wrapper.PiiEntity) :
  forall d : dict,
    (forall e, In e l -> Wrapper.p_type e = t -> Wrapper.p_entity e = []) ->
    Store.find t
      (fold_left
         (fun pii_map entity =>
            match Wrapper.p_entity entity with
            | [] => pii_map
            | _ :: _ =>
                dict_set (Wrapper.p_type entity) (Wrapper.p_entity entity)
                         pii_map
            end) l d)
    = Store.find t d.
Proof.
  induction l as [|e l IH]; intros d H; [reflexivity|].
  simpl. rewrite IH by (intros e' H'; apply H; right; exact H').
  destruct (Wrapper.p_entity e) as [|c v] eqn:E; [reflexivity|].
  rewrite dict_set_put. apply find_put_other.
  intros T. symmetry in T. apply H in T; [|left; reflexivity]. congruence.
Qed.

Lemma extract_values (l : list Wrapper.PiiEntity) :
  forall (d : dict) (t v : str),
    In (t, v)
       (fold_left
          (fun pii_map entity =>
             match Wrapper.p_entity entity with
             | [] => pii_map
             | _ :: _ =>
                 dict_set (Wrapper.p_type entity) (Wrapper.p_entity entity)
                          pii_map
             end) l d) ->
    In (t, v) d
    \/ (v <> [] /\ exists e, In e l /\ Wrapper.p_type e = t
                              /\ Wrapper.p_entity e = v).
Proof.
  induction l as [|e l IH]; intros d t v H; [left; exact H|].
  simpl in H. apply IH in H. destruct H as [H | (H1 & e' & H2 & H3 & H4)].
  - destruct (Wrapper.p_entity e) as [|c w] eqn:E; [left; exact H|].
    apply dict_set_in in H. destruct H as [H | H]; [|left; exact H].
    injection H as -> ->. right. split; [discriminate|].
    exists e. split; [left; reflexivity | split; [reflexivity | exact E]].
  - right. split; [exact H1|]. exists e'. split; [right; exact H2 | auto].
Qed.

(** X21. [_extract_original_pii] keeps one value for each type, the last one
    that is not empty: an entity is found under its type when no later entity
    of that type has a value, and every value of the map is the non-empty
    value of an entity of that type. *)
Theorem extract_keeps_last_value :
  forall (before after : list Wrapper.PiiEntity) (e : Wrapper.PiiEntity),
    Wrapper.p_entity e <> [] ->
    (forall e', In e' after -> Wrapper.p_type e' = Wrapper.p_type e ->
                Wrapper.p_entity e' = []) ->
    let pii_map := Maps._extract_original_pii (before ++ e :: after) in
    Store.find (Wrapper.p_type e) pii_map = Some (Wrapper.p_entity e)
    /\ NoDup (keys pii_map)
    /\ forall t v,
        In (t, v) pii_map ->
        v <> [] /\ exists e', In e' (before ++ e :: after)
                              /\ Wrapper.p_type e' = t
                              /\ Wrapper.p_entity e' = v.
Proof.
  intros before after e Hne Hafter pii_map.
  split; [|split].
  - unfold pii_map, Maps._extract_original_pii.
    rewrite fold_left_app. cbn [fold_left].
    rewrite extract_step_find by exact Hafter.
    destruct (Wrapper.p_entity e) as [|c v] eqn:E; [congruence|].
    rewrite dict_set_put. apply find_put_same.
  - unfold pii_map, Maps._extract_original_pii.
    assert (G : forall (l : list Wrapper.PiiEntity) (d : dict),
               NoDup (keys d) ->
               NoDup (keys
                 (fold_left
                    (fun pii_map entity =>
                       match Wrapper.p_entity entity with
                       | [] => pii_map
                       | _ :: _ =>
                           dict_set (Wrapper.p_type entity)
                                    (Wrapper.p_entity entity) pii_map
                       end) l d))).
    { induction l as [|x l IH]; intros d N; [exact N|].
      simpl. apply IH. destruct (Wrapper.p_entity x); [exact N|].
      rewrite dict_set_put. apply put_NoDup. exact N. }
    apply G. constructor.
  - intros t v H. apply extract_values in H.
    destruct H as [[] | H]. exact H.
Qed.

Lemma extract_keeps_last_value_witness :
  Store.find (lit "NAME")
    (Maps._extract_original_pii
       ([Wrapper.mkPiiEntity (lit "NAME") (lit "Ann")]
          ++ Wrapper.mkPiiEntity (lit "NAME") (lit "Bob")
          :: [Wrapper.mkPiiEntity (lit "PHONE") (lit "5550100");
              Wrapper.mkPiiEntity (lit "NAME") []]))
  = Some (lit "Bob").
Proof.
  apply (@extract_keeps_last_value
           [Wrapper.mkPiiEntity (lit "NAME") (lit "Ann")]
           [Wrapper.mkPiiEntity (lit "PHONE") (lit "5550100");
            Wrapper.mkPiiEntity (lit "NAME") []]
           (Wrapper.mkPiiEntity (lit "NAME") (lit "Bob"))).
  - simpl. discriminate.
  - simpl. intros e' [E | [E | []]] H; subst e';
      [discriminate H | reflexivity].
Defined.

(** ** Deleting a session *)

Lemma put_absent (V : Type) (k : str) (v : V) (d : list (str * V)) :
  Store.find k d = None -> Store.put k v d = d ++ [(k, v)].
Proof.
  induction d as [|[k' v'] d IH]; simpl; [reflexivity|].
  destruct (str_eqb k k'); [discriminate|].
  intros H. rewrite IH by exact H. reflexivity.
Qed.

Lemma mem_false (V : Type) (k : str) (d : list (str * V)) :
  Store.mem k d = false <-> Store.find k d = None.
Proof.
  unfold Store.mem. destruct (Store.find k d); split; congruence.
Qed.

(** X22. After [delete_session], in a store reached by any sequence of
    requests, the session has neither an entry nor messages, whether it
    existed or not; a later GET of its messages answers the empty list and
    brings the session back, at the end of both dicts, under the title
    ['Auto-created Chat']. *)
Theorem deleted_session_returns_on_read :
  forall (post : str -> Handler.post_result) (before : list Store.request)
         (k created updated : str),
    let st := Store.run post before Store.empty in
    let st' := snd (Store.handle post (Store.DeleteSession k) st) in
    Store.find k (Store.sessions st') = None
    /\ Store.find k (Store.messages st') = None
    /\ Store.handle post (Store.GetMessages k created updated) st'
       = (Store.MessageList [],
          Store.mkStore
            (Store.sessions st'
               ++ [(k, Store.mkSession k (lit "Auto-created Chat")
                                       created updated)])
            (Store.messages st' ++ [(k, [])])).
Proof.
  intros post before k created updated st st'.
  assert (C : consistent st) by (apply run_consistent, empty_consistent).
  assert (C' : consistent st') by (apply handle_consistent; exact C).
  assert (S1 : Store.find k (Store.sessions st') = None).
  { unfold st'. cbn [Store.handle]. unfold Store.delete_session.
    destruct (Store.mem k (Store.sessions st)) eqn:M; cbn [snd].
    - cbn [Store.sessions]. apply find_del_same. apply C.
    - apply mem_false. exact M. }
  assert (S2 : Store.find k (Store.messages st') = None).
  { apply mem_false. rewrite <- (mem_keys k _ _ (proj1 C')).
    apply mem_false. exact S1. }
  split; [exact S1|]. split; [exact S2|].
  cbn [Store.handle]. unfold Store.get_messages, Store.auto_create.
  apply mem_false in S1. rewrite S1. apply mem_false in S1.
  unfold Store.messages_of. cbn [Store.messages Store.sessions].
  rewrite find_put_same, !put_absent by assumption. reflexivity.
Qed.

(** * The substitution map, entry by entry *)

Lemma combine_app_same {A B : Type} (a1 a2 : list A) (b1 b2 : list B) :
  length a1 = length b1 ->
  combine (a1 ++ a2) (b1 ++ b2) = combine a1 b1 ++ combine a2 b2.
Proof.
  revert b1. induction a1 as [|x a1 IH]; intros [|y b1]; simpl;
    try discriminate; [reflexivity|].
  intros H. injection H as H. rewrite IH by exact H. reflexivity.
Qed.

Section LoopSteps.
Variable F : Faker.
Variable draw : gen F -> str * gen F.
Variable label : str.

(** one loop of [mask_text], as a list of steps *)
Lemma loop_steps (groups : list str) :
  forall st : FakerMasking.mstate F,
    let st' := fold_left (@FakerMasking.mask_one F draw label) groups st in
    let fakes := fst (FakerMasking.draws F draw (length groups)
                                         (FakerMasking.faker st)) in
    FakerMasking.masked st'
    = mask_steps (combine groups fakes) (FakerMasking.masked st)
    /\ FakerMasking.replacements st'
       = map_steps (combine groups fakes) (FakerMasking.replacements st).
Proof.
  induction groups as [|group groups IH]; intros st; cbv zeta.
  - split; reflexivity.
  - cbn [fold_left length FakerMasking.draws].
    destruct (@step_fields F draw label st group) as [Sg [Sr [_ Sm]]].
    specialize (IH (@FakerMasking.mask_one F draw label st group)).
    cbv zeta in IH. rewrite Sg, Sr, Sm in IH.
    destruct (draw (FakerMasking.faker st)) as [fake g1].
    cbn [fst snd] in IH.
    destruct (FakerMasking.draws F draw (length groups) g1) as [rest g2].
    cbn [fst snd combine] in *. exact IH.
Qed.
End LoopSteps.

Lemma mask_steps_app (s1 s2 : list (str * str)) (t : str) :
  mask_steps (s1 ++ s2) t = mask_steps s2 (mask_steps s1 t).
Proof. unfold mask_steps. apply fold_left_app. Qed.

Lemma map_steps_app (s1 s2 : list (str * str)) (d : dict) :
  map_steps (s1 ++ s2) d = map_steps s2 (map_steps s1 d).
Proof. unfold map_steps. apply fold_left_app. Qed.

(** [mask_text] does what its steps say *)
Lemma mask_run_steps (F : Faker) (text : str) (g : gen F) :
  FakerMasking.masked (FakerMasking.mask_run F text g)
  = mask_steps (steps_of F text g) text
  /\ FakerMasking.replacements (FakerMasking.mask_run F text g)
     = map_steps (steps_of F text g) [].
Proof.
  unfold FakerMasking.mask_run, steps_of, matched_values,
    FakerMasking.drawn_values.
  set (phones := findall text FakerMasking.phone_re).
  set (emails := findall text FakerMasking.email_re).
  set (st0 := @FakerMasking.mask_init F text g).
  destruct (@loop_steps F (FakerMasking.fake_phone F) (lit "phone") phones st0)
    as [Pm Pr].
  pose proof (@loop_facts F (FakerMasking.fake_phone F) (lit "phone") phones st0)
    as Pf.
  cbv zeta in Pf. destruct Pf as [Pg _].
  set (st1 := fold_left (@FakerMasking.mask_one F (FakerMasking.fake_phone F)
                                                 (lit "phone")) phones st0) in *.
  destruct (@loop_steps F (email F) (lit "email") emails st1) as [Em Er].
  rewrite Pg in Em, Er.
  pose proof (draws_length F (FakerMasking.fake_phone F) (length phones) g)
    as Lp.
  change (FakerMasking.faker st0) with g in *.
  change (FakerMasking.masked st0) with text in *.
  change (FakerMasking.replacements st0) with (@nil (str * str)) in *.
  destruct (FakerMasking.draws F (FakerMasking.fake_phone F) (length phones) g)
    as [fp g1].
  cbn [fst snd] in *.
  destruct (FakerMasking.draws F (email F) (length emails) g1) as [fe g2].
  cbn [fst snd] in *.
  rewrite combine_app_same by (symmetry; exact Lp).
  rewrite mask_steps_app, map_steps_app, Em, Er, Pm, Pr. split; reflexivity.
Qed.

Lemma dict_set_has (k v : str) (d : dict) : In (k, v) (dict_set k v d).
Proof.
  induction d as [|[k' v'] d IH]; simpl; [left; reflexivity|].
  destruct (str_eqb k k'); [left; reflexivity | right; exact IH].
Qed.

Lemma dict_set_keeps (k v k' v' : str) (d : dict) :
  k <> k' -> (In (k, v) (dict_set k' v' d) <-> In (k, v) d).
Proof.
  intros N. induction d as [|[k0 v0] d IH]; simpl.
  - split; [intros [H | []]; congruence | tauto].
  - destruct (str_eqb k' k0) eqn:E; simpl.
    + apply str_eqb_eq in E. subst k0.
      split; intros [H | H]; try congruence; right; exact H.
    + rewrite IH. reflexivity.
Qed.

Lemma map_steps_keeps (k v : str) (steps : list (str * str)) :
  forall d, (forall p, In p steps -> snd p <> k) ->
            In (k, v) d -> In (k, v) (map_steps steps d).
Proof.
  induction steps as [|p steps IH]; intros d H Hin; [exact Hin|].
  cbn [map_steps fold_left]. apply IH.
  - intros q Hq. apply H. right. exact Hq.
  - apply dict_set_keeps; [|exact Hin].
    intros E. apply (H p (or_introl eq_refl)). symmetry. exact E.
Qed.

(** the entry of a key is the original value of the last step that wrote it *)
Lemma map_steps_last (steps : list (str * str)) :
  forall d i original fake,
    nth_error steps i = Some (original, fake) ->
    (forall j o, i < j -> nth_error steps j <> Some (o, fake)) ->
    In (fake, original) (map_steps steps d).
Proof.
  induction steps as [|p steps IH]; intros d i original fake Hi Hlast.
  - destruct i; discriminate.
  - destruct i as [|i]; cbn [nth_error] in Hi.
    + injection Hi as ->. cbn [map_steps fold_left fst snd].
      apply map_steps_keeps; [|apply dict_set_has].
      intros [o f] Hq E. cbn [snd] in E. subst f.
      apply In_nth_error in Hq. destruct Hq as [j Hj].
      apply (Hlast (S j) o); [lia | exact Hj].
    + cbn [map_steps fold_left]. apply (IH _ i); [exact Hi|].
      intros j o Hj. apply (Hlast (S j) o). lia.
Qed.

Lemma keys_unique (d : dict) (k v v' : str) :
  NoDup (keys d) -> In (k, v) d -> In (k, v') d -> v = v'.
Proof.
  induction d as [|[k0 v0] d IH]; simpl; [tauto|].
  intros N. inversion N as [|? ? N1 N2]; subst.
  intros [H | H] [H' | H'].
  - congruence.
  - injection H as -> ->. exfalso. apply N1.
    apply (in_map fst) in H'. exact H'.
  - injection H' as -> ->. exfalso. apply N1.
    apply (in_map fst) in H. exact H.
  - apply IH; assumption.
Qed.

(** C8, amended: within one request the keys of the substitution map are
    unique and are generated values; one value is drawn per masked entity and
    never drawn again, so the map has at most one key per masked entity, and
    exactly one, in the order of the draws, when the drawn values are pairwise
    distinct.  A value that is drawn a second time overwrites: the entry of a
    key holds the original value of the last step that drew the key, and no
    other.  The placeholder loop of the wrapper likewise keeps the keys
    unique, with at most one key per entity, and a value it draws takes the
    entry of its key, whatever stood there, and leaves the other entries. *)
Theorem substitution_keys :
  forall (F : Faker) (text : str) (g : gen F),
    let st := FakerMasking.mask_run F text g in
    let fakes := FakerMasking.drawn_values F text g in
    NoDup (keys (FakerMasking.replacements st))
    /\ incl (keys (FakerMasking.replacements st)) fakes
    /\ length fakes = length (FakerMasking.detected st)
    /\ length (FakerMasking.replacements st) <= length (FakerMasking.detected st)
    /\ (NoDup fakes ->
        keys (FakerMasking.replacements st) = fakes
        /\ length (FakerMasking.replacements st)
           = length (FakerMasking.detected st))
    /\ (forall pii_entities required_entities,
           let ps := Wrapper.replace_placeholders F text pii_entities
                       required_entities g in
           NoDup (keys (Wrapper.fake_replacements ps))
           /\ length (Wrapper.fake_replacements ps) <= length pii_entities)
    /\ (forall i original fake,
           nth_error (steps_of F text g) i = Some (original, fake) ->
           (forall j o, i < j ->
                        nth_error (steps_of F text g) j <> Some (o, fake)) ->
           In (fake, original) (FakerMasking.replacements st)
           /\ forall v, In (fake, v) (FakerMasking.replacements st) ->
                        v = original)
    /\ (forall required_entities (ps : Wrapper.pstate F)
               (entity : Wrapper.PiiEntity) fake g',
           infixb (lit "[" ++ Wrapper.p_type entity ++ lit "]")
                  (Wrapper.anonymized_text ps) = true ->
           existsb (str_eqb (Wrapper.p_entity entity)) required_entities
           || existsb (str_eqb (upper (Wrapper.p_type entity)))
                      required_entities = false ->
           Wrapper._generate_fake_value F (upper (Wrapper.p_type entity))
                                        (Wrapper.pfaker ps) = (fake, g') ->
           let ps' := Wrapper.replace_placeholder required_entities ps entity in
           In (fake, Wrapper.p_entity entity) (Wrapper.fake_replacements ps')
           /\ (NoDup (keys (Wrapper.fake_replacements ps)) ->
               forall v, In (fake, v) (Wrapper.fake_replacements ps') ->
                         v = Wrapper.p_entity entity)
           /\ forall k v, k <> fake ->
                          (In (k, v) (Wrapper.fake_replacements ps')
                           <-> In (k, v) (Wrapper.fake_replacements ps))).
Proof.
  intros F text g. cbv zeta.
  destruct (substitution_keys_facts F text g)
    as (K1 & K2 & K3 & K4 & K5 & K6).
  repeat (split; [assumption|]). split.
  - intros i original fake Hi Hlast.
    destruct (mask_run_steps F text g) as [_ Er].
    assert (Hin : In (fake, original)
                     (FakerMasking.replacements (FakerMasking.mask_run F text g))).
    { rewrite Er. eapply map_steps_last; [exact Hi | exact Hlast]. }
    split; [exact Hin|].
    intros v Hv. eapply keys_unique; [exact K1 | exact Hv | exact Hin].
  - intros required_entities ps entity fake g' Hp Hr Hg.
    unfold Wrapper.replace_placeholder. rewrite Hp, Hr, Hg.
    cbn [Wrapper.fake_replacements].
    split; [apply dict_set_has|]. split.
    + intros N v Hv.
      eapply keys_unique;
        [apply dict_set_keys_NoDup; exact N | exact Hv | apply dict_set_has].
    + intros k v Hk. apply dict_set_keeps. exact Hk.
Qed.

Lemma substitution_keys_witness :
  NoDup (FakerMasking.drawn_values counting_faker
           (lit "call 1234567890 or mail bob@site.com") 0%Z)
  /\ keys (FakerMasking.replacements
             (FakerMasking.mask_run counting_faker
                (lit "call 1234567890 or mail bob@site.com") 0%Z))
     = [lit "0123456789"; lit "user10@example.org"]
  /\ In (lit "5555555555", lit "0987654321")
        (FakerMasking.replacements
           (FakerMasking.mask_run (const_faker 5 (lit "fake@example.org"))
              (lit "1234567890 0987654321") tt)).
Proof.
  assert (H : NoDup (FakerMasking.drawn_values counting_faker
                       (lit "call 1234567890 or mail bob@site.com") 0%Z)).
  { vm_compute. constructor.
    - intros [H | []]. discriminate H.
    - constructor; [intros [] | constructor]. }
  split; [exact H|]. split.
  - rewrite (proj1 (proj1 (proj2 (proj2 (proj2 (proj2
               (substitution_keys counting_faker
                  (lit "call 1234567890 or mail bob@site.com") 0%Z))))) H)).
    reflexivity.
  - apply (proj1 (proj2 (proj2 (proj2 (proj2 (proj2 (proj2
             (substitution_keys (const_faker 5 (lit "fake@example.org"))
                (lit "1234567890 0987654321") tt)))))))
            1 (lit "0987654321") (lit "5555555555")).
    + vm_compute. reflexivity.
    + intros [|[|j]] o Hj; [lia | lia | destruct j; vm_compute; discriminate].
Defined.

(** * Masking and unmasking, step by step *)

(** ** Places where a string stands *)

Lemma occurrences_spec (p t : str) (i : nat) :
  In i (occurrences p t) <-> exists x y, t = x ++ p ++ y /\ length x = i.
Proof.
  unfold occurrences. rewrite filter_In, in_seq. split.
  - intros [Hi H]. apply prefixb_spec in H. destruct H as [y E].
    exists (firstn i t), y. split.
    + rewrite <- E. symmetry. apply firstn_skipn.
    + apply firstn_length_le. lia.
  - intros [x [y [-> <-]]]. split.
    + rewrite length_app. lia.
    + rewrite skipn_app, skipn_all, Nat.sub_diag. cbn [skipn app].
      apply prefixb_spec. exists y. reflexivity.
Qed.

Lemma occurrences_none (p t : str) : occurrences p t = [] -> ~ infix p t.
Proof.
  intros E [x [y H]].
  assert (K : In (length x) (occurrences p t))
    by (apply occurrences_spec; exists x, y; auto).
  rewrite E in K. destruct K.
Qed.

Lemma str_find_occurrence (p t : str) (a : nat) :
  str_find p t = Some a -> In a (occurrences p t).
Proof.
  intros H. apply occurrences_spec.
  exists (firstn a t), (skipn (a + length p) t). split.
  - apply str_find_split. exact H.
  - apply firstn_length_le. pose proof (str_find_bound _ _ H). lia.
Qed.

Lemma app_split_le {A : Type} (a b c d : list A) :
  a ++ b = c ++ d -> length c <= length a ->
  exists e, a = c ++ e /\ d = e ++ b.
Proof.
  revert c. induction a as [|x a IH]; intros [|y c] H L; simpl in *.
  - exists []. auto.
  - lia.
  - exists (x :: a). auto.
  - injection H as -> H. destruct (IH c H ltac:(lia)) as [e [-> ->]].
    exists e. auto.
Qed.

(** ** Texts in pieces *)

Lemma render_app (pick : nat -> str) (l1 l2 : list (str * nat)) (tail : str) :
  render pick (l1 ++ l2) tail = render pick l1 (render pick l2 tail).
Proof.
  induction l1 as [|[c k] l1 IH]; simpl; [reflexivity|].
  rewrite IH. reflexivity.
Qed.

Lemma render_tail (pick : nat -> str) (l : list (str * nat)) (a b : str) :
  render pick l (a ++ b) = render pick l a ++ b.
Proof.
  induction l as [|[c k] l IH]; simpl; [reflexivity|].
  rewrite IH, <- !app_assoc. reflexivity.
Qed.

Lemma render_ext (pick1 pick2 : nat -> str) (l : list (str * nat))
    (tail : str) :
  (forall k, In k (map snd l) -> pick1 k = pick2 k) ->
  render pick1 l tail = render pick2 l tail.
Proof.
  induction l as [|[c k] l IH]; simpl; intros H; [reflexivity|].
  rewrite (H k) by (left; reflexivity).
  rewrite IH by (intros k' Hk'; apply H; right; exact Hk'). reflexivity.
Qed.

(** a place that overlaps none of the values of a text in pieces lies
    within one piece *)
Lemma layout_split (pick : nat -> str) (o : str) (l : list (str * nat)) :
  forall (tail P Q : str),
    render pick l tail = P ++ o ++ Q ->
    (forall l1 c k l2,
        l = l1 ++ (c, k) :: l2 ->
        length (render pick l1 c) + length (pick k) <= length P
        \/ length P + length o <= length (render pick l1 c)) ->
    (exists l1 c k l2 x y,
        l = l1 ++ (c, k) :: l2 /\ c = x ++ o ++ y
        /\ P = render pick l1 x
        /\ Q = y ++ pick k ++ render pick l2 tail)
    \/ (exists x y, tail = x ++ o ++ y /\ P = render pick l x /\ Q = y).
Proof.
  induction l as [|[c k] l IH]; intros tail P Q E H.
  - right. exists P, Q. simpl in *. auto.
  - cbn [render] in E.
    destruct (H [] c k l eq_refl) as [D | D]; cbn [render] in D.
    + rewrite app_assoc in E. symmetry in E.
      destruct (app_split_le _ _ _ _ E) as [P' [EP ER]];
        [rewrite length_app; lia|].
      destruct (IH tail P' Q ER) as [(l1 & c' & k' & l2 & x & y & El & Ec & EP' & EQ)
                                    | (x & y & Et & EP' & EQ)].
      * intros l1 c' k' l2 El.
        destruct (H ((c, k) :: l1) c' k' l2) as [D' | D'].
        { rewrite El. reflexivity. }
        { left. cbn [render] in D'. rewrite EP in D'.
          rewrite !length_app in D'. lia. }
        { right. cbn [render] in D'. rewrite EP in D'.
          rewrite !length_app in D'. lia. }
      * left. exists ((c, k) :: l1), c', k', l2, x, y.
        rewrite El, Ec, EP, EP', EQ. cbn [render app].
        rewrite <- !app_assoc. auto.
      * right. exists x, y. rewrite Et, EP, EP', EQ. cbn [render].
        rewrite <- !app_assoc. auto.
    + destruct (app_split_le _ _ _ _ E ltac:(lia)) as [z [Ec Ez]].
      assert (Lz : length o <= length z).
      { rewrite Ec, length_app in D. lia. }
      assert (Ez' : z ++ pick k ++ render pick l tail = o ++ Q).
      { symmetry. exact Ez. }
      destruct (app_split_le _ _ _ _ Ez' Lz) as [y [Ey EQ]].
      left. exists [], c, k, l, P, y.
      rewrite Ec, Ey. cbn [render app]. auto.
Qed.

(** a value can be added to a text in pieces where it overlaps no other *)
Lemma layout_cut (pick : nat -> str) (o : str) (j : nat)
    (l : list (str * nat)) (tail P Q : str) :
  render pick l tail = P ++ o ++ Q ->
  (forall l1 c k l2,
      l = l1 ++ (c, k) :: l2 ->
      length (render pick l1 c) + length (pick k) <= length P
      \/ length P + length o <= length (render pick l1 c)) ->
  exists l' tail',
    Permutation (map snd l') (j :: map snd l)
    /\ (forall pick', pick' j = o ->
                      render pick' l' tail' = render pick' l tail)
    /\ render pick l' tail' = P ++ pick j ++ Q.
Proof.
  intros E H.
  destruct (@layout_split pick o l tail P Q E H)
    as [(l1 & c & k & l2 & x & y & El & Ec & EP & EQ)
       | (x & y & Et & EP & EQ)].
  - exists (l1 ++ (x, j) :: (y, k) :: l2), tail. split; [|split].
    + rewrite El, !map_app. cbn [map snd].
      apply Permutation_sym, Permutation_middle.
    + intros pick' Hj. rewrite El, !render_app. cbn [render].
      rewrite Hj, Ec, <- !app_assoc. reflexivity.
    + rewrite render_app. cbn [render].
      rewrite render_tail, EP, EQ. reflexivity.
  - exists (l ++ [(x, j)]), y. split; [|split].
    + rewrite map_app. cbn [map snd].
      apply Permutation_sym. apply Permutation_cons_append.
    + intros pick' Hj. rewrite render_app. cbn [render].
      rewrite Hj, Et. reflexivity.
    + rewrite render_app. cbn [render].
      rewrite render_tail, EP, EQ. reflexivity.
Qed.

Lemma in_slot_split (j : nat) (l : list (str * nat)) :
  In j (map snd l) -> exists l1 c l2, l = l1 ++ (c, j) :: l2.
Proof.
  intros H. apply in_map_iff in H. destruct H as [[c k] [Hk Hin]].
  simpl in Hk. subst k. apply in_split in Hin.
  destruct Hin as [l1 [l2 E]]. exists l1, c, l2. exact E.
Qed.

Lemma occurrences_empty (t : str) : length (occurrences [] t) = S (length t).
Proof.
  unfold occurrences.
  rewrite (@filter_id _ (fun i => prefixb [] (skipn i t))).
  - apply length_seq.
  - intros i _. reflexivity.
Qed.

(** [t.replace(f, o)] when [f] stands in [t] exactly once *)
Lemma replace_once (f o x y : str) :
  length (occurrences f (x ++ f ++ y)) = 1 ->
  replace f o None (x ++ f ++ y) = x ++ o ++ y.
Proof.
  intros H. destruct f as [|c f'].
  - rewrite occurrences_empty in H. cbn [app] in *.
    assert (L : length (x ++ y) = 0) by lia.
    destruct x; [|discriminate]. destruct y; [|discriminate].
    simpl. rewrite app_nil_r. reflexivity.
  - set (f := c :: f') in *. set (t := x ++ f ++ y) in *.
    assert (Hx : In (length x) (occurrences f t))
      by (apply occurrences_spec; exists x, y; auto).
    destruct (occurrences f t) as [|z [|z' zs]] eqn:Eo; try discriminate.
    destruct Hx as [Hx | []]. subst z.
    destruct (@str_find_infix f t) as [a Ha]; [exists x, y; reflexivity|].
    pose proof (str_find_occurrence _ _ Ha) as Hin. rewrite Eo in Hin.
    destruct Hin as [Hin | []]. subst a.
    rewrite (@replace_single f o t (length x) Ha).
    + assert (Fi : firstn (length x) t = x).
      { unfold t. rewrite firstn_app, firstn_all, Nat.sub_diag. cbn [firstn].
        apply app_nil_r. }
      assert (Sk : skipn (length x + length f) t = y).
      { unfold t. rewrite app_assoc, skipn_app.
        rewrite skipn_all2 by (rewrite length_app; lia).
        rewrite length_app.
        replace (length x + length f - (length x + length f)) with 0 by lia.
        reflexivity. }
      rewrite Fi, Sk. reflexivity.
    + intros [x' [y' E]].
      assert (K : In (length x + length f + length x') (occurrences f t)).
      { apply occurrences_spec.
        exists (firstn (length x + length f) t ++ x'), y'. split.
        - rewrite <- app_assoc, <- E. symmetry. apply firstn_skipn.
        - rewrite length_app, firstn_length_le; [reflexivity|].
          unfold t. rewrite !length_app. lia. }
      rewrite Eo in K. destruct K as [K | []].
      unfold f in K. simpl in K. lia.
Qed.

Lemma firstn_snoc {A : Type} (l : list A) (k : nat) (x : A) :
  nth_error l k = Some x -> firstn (S k) l = firstn k l ++ [x].
Proof.
  revert k. induction l as [|y l IH]; intros [|k] H; try discriminate.
  - injection H as ->. reflexivity.
  - cbn [nth_error] in H.
    change (y :: firstn (S k) l = y :: (firstn k l ++ [x])).
    f_equal. exact (IH k H).
Qed.

Section RoundTrip.
Variable t : str.
Variable steps : list (str * str).

Local Abbreviation masked_at k := (mask_steps (firstn k steps) t).
Local Abbreviation back_at k :=
  (FakerMasking.unmask_text (mask_steps steps t)
     (firstn k (map (fun p => (snd p, fst p)) steps))).

Hypothesis place_clear :
  forall k o f, nth_error steps k = Some (o, f) ->
    forall i o' f', i < k -> nth_error steps i = Some (o', f') ->
      clear_of f' o (masked_at k) = true.

Hypothesis put_back_once :
  forall k o f, nth_error steps k = Some (o, f) ->
    length (occurrences f (back_at k))
    = if infixb o (masked_at k) then 1 else 0.

Lemma step_values (k : nat) (o f : str) :
  nth_error steps k = Some (o, f) ->
  original_of steps k = o /\ fake_of steps k = f.
Proof.
  intros H. unfold original_of, fake_of. split.
  - apply nth_error_nth. rewrite nth_error_map, H. reflexivity.
  - apply nth_error_nth. rewrite nth_error_map, H. reflexivity.
Qed.

Lemma masked_step (k : nat) (o f : str) :
  nth_error steps k = Some (o, f) ->
  masked_at (S k) = replace o f (Some 1) (masked_at k).
Proof.
  intros H. rewrite (firstn_snoc _ _ H), mask_steps_app. reflexivity.
Qed.

Lemma back_step (k : nat) (o f : str) :
  nth_error steps k = Some (o, f) ->
  back_at (S k) = replace f o None (back_at k).
Proof.
  intros H.
  assert (E : nth_error (map (fun p : str * str => (snd p, fst p)) steps) k
              = Some (f, o)) by (rewrite nth_error_map, H; reflexivity).
  rewrite (firstn_snoc _ _ E). unfold FakerMasking.unmask_text.
  rewrite fold_left_app. reflexivity.
Qed.

(** masking keeps the text in pieces: the values that were replaced, each by
    its synthetic value, and the text between them *)
Lemma masking_layout (j : nat) :
  j <= length steps ->
  exists l tail,
    render (fake_of steps) l tail = masked_at j
    /\ render (original_of steps) l tail = t
    /\ NoDup (map snd l)
    /\ forall k, In k (map snd l)
                 <-> k < j /\ infixb (original_of steps k) (masked_at k) = true.
Proof.
  induction j as [|j IH]; intros Hj.
  - exists [], t. split; [reflexivity|]. split; [reflexivity|].
    split; [constructor|]. intros k. simpl. split; [tauto | lia].
  - destruct IH as (l & tail & Ef & Eo & Nd & Hin); [lia|].
    destruct (nth_error steps j) as [[o f]|] eqn:Sj;
      [|apply nth_error_None in Sj; lia].
    destruct (step_values _ Sj) as [Vo Vf].
    rewrite (masked_step _ Sj).
    destruct (infixb o (masked_at j)) eqn:I.
    + apply infixb_spec in I.
      destruct (str_find_infix I) as [a Ha].
      pose proof (str_find_split _ _ Ha) as Es.
      pose proof (str_find_bound _ _ Ha) as Hb.
      set (P := firstn a (masked_at j)) in *.
      set (Q := skipn (a + length o) (masked_at j)) in *.
      assert (LP : length P = a) by (apply firstn_length_le; lia).
      destruct (@layout_cut (fake_of steps) o j l tail P Q)
        as (l' & tail' & Pm & Ro & Rf).
      * rewrite Ef. exact Es.
      * intros l1 c k l2 El.
        assert (Hk : In k (map snd l)).
        { rewrite El, map_app. apply in_or_app. right. left. reflexivity. }
        apply Hin in Hk. destruct Hk as [Hk _].
        destruct (nth_error steps k) as [[ok fk]|] eqn:Sk;
          [|apply nth_error_None in Sk; lia].
        destruct (step_values _ Sk) as [_ Vk].
        pose proof (place_clear Sj Hk Sk) as C.
        unfold clear_of in C. rewrite Ha in C.
        rewrite forallb_forall in C.
        specialize (C (length (render (fake_of steps) l1 c))).
        rewrite Vk, LP.
        assert (K : In (length (render (fake_of steps) l1 c))
                       (occurrences fk (masked_at j))).
        { apply occurrences_spec.
          exists (render (fake_of steps) l1 c),
            (render (fake_of steps) l2 tail).
          split; [|reflexivity].
          rewrite <- Ef, El, render_app. cbn [render].
          rewrite render_tail, Vk. reflexivity. }
        specialize (C K). apply orb_true_iff in C.
        destruct C as [C | C]; apply Nat.leb_le in C; [left | right]; exact C.
      * exists l', tail'. split; [|split; [|split]].
        -- rewrite Rf, Vf. symmetry. apply replace_first. exact Ha.
        -- rewrite (Ro (original_of steps) Vo). exact Eo.
        -- apply (Permutation_NoDup (Permutation_sym Pm)).
           constructor; [|exact Nd].
           intros H. apply Hin in H. lia.
        -- intros k. split.
           ++ intros H. apply (Permutation_in _ Pm) in H.
              destruct H as [<- | H].
              ** split; [lia|]. rewrite Vo. apply infixb_spec. exact I.
              ** apply Hin in H. split; [lia | tauto].
           ++ intros [Hk Hi]. apply (Permutation_in _ (Permutation_sym Pm)).
              destruct (Nat.eq_dec k j) as [-> | Hne]; [left; reflexivity|].
              right. apply Hin. split; [lia | exact Hi].
    + exists l, tail. split; [|split; [|split]].
      * rewrite replace_noop; [exact Ef|].
        intros H. apply infixb_spec in H. congruence.
      * exact Eo.
      * exact Nd.
      * intros k. rewrite Hin. split; intros [Hk Hi]; (split; [|exact Hi]).
        -- lia.
        -- destruct (Nat.eq_dec k j) as [-> | Hne]; [|lia].
           rewrite Vo in Hi. congruence.
Qed.
(** unmasking puts the values back one entry after the other, each at the
    place of its synthetic value *)
Lemma unmasking_layout (l : list (str * nat)) (tail : str) :
  render (fake_of steps) l tail = mask_steps steps t ->
  NoDup (map snd l) ->
  (forall k, In k (map snd l)
             <-> k < length steps
                 /\ infixb (original_of steps k) (masked_at k) = true) ->
  forall j, j <= length steps ->
            back_at j = render (half_way steps j) l tail.
Proof.
  intros Ef Nd Hin. induction j as [|j IH]; intros Hj.
  - cbn [firstn FakerMasking.unmask_text fold_left]. rewrite <- Ef.
    apply render_ext. intros k _. reflexivity.
  - destruct (nth_error steps j) as [[o f]|] eqn:Sj;
      [|apply nth_error_None in Sj; lia].
    destruct (step_values _ Sj) as [Vo Vf].
    rewrite (back_step _ Sj).
    pose proof (@put_back_once j o f Sj) as Once. rewrite IH in * by lia.
    destruct (in_dec Nat.eq_dec j (map snd l)) as [Hs | Hs].
    + destruct (proj1 (Hin j) Hs) as [_ Hi]. rewrite Vo in Hi.
      rewrite Hi in Once.
      destruct (in_slot_split _ _ Hs) as (l1 & c & l2 & El).
      assert (Nj : ~ In j (map snd l1) /\ ~ In j (map snd l2)).
      { rewrite El, map_app in Nd. cbn [map snd] in Nd.
        apply NoDup_remove_2 in Nd. split; intros H; apply Nd;
          apply in_or_app; [left | right]; exact H. }
      assert (Same : forall l0 z, ~ In j (map snd l0) ->
                       render (half_way steps (S j)) l0 z
                       = render (half_way steps j) l0 z).
      { intros l0 z H0. apply render_ext. intros k Hk.
        unfold half_way.
        assert (k <> j) by (intros ->; contradiction).
        destruct (Nat.ltb_spec k (S j)), (Nat.ltb_spec k j);
          try reflexivity; lia. }
      assert (Fj : half_way steps j j = f).
      { unfold half_way. rewrite Nat.ltb_irrefl. exact Vf. }
      assert (Oj : half_way steps (S j) j = o).
      { unfold half_way.
        destruct (Nat.ltb_spec j (S j)); [exact Vo | lia]. }
      rewrite El, !render_app in *. cbn [render] in *.
      rewrite !render_tail in *. rewrite Fj in *. rewrite Oj.
      rewrite !Same by tauto.
      apply replace_once. exact Once.
    + assert (Hi : infixb o (masked_at j) = false).
      { destruct (infixb o (masked_at j)) eqn:I; [|reflexivity].
        exfalso. apply Hs. apply Hin. rewrite Vo. split; [lia | exact I]. }
      rewrite Hi in Once.
      assert (No : occurrences f (render (half_way steps j) l tail) = []).
      { destruct (occurrences f _); [reflexivity | discriminate]. }
      rewrite replace_noop by (apply occurrences_none; exact No).
      apply render_ext. intros k Hk. unfold half_way.
      assert (k <> j) by (intros ->; contradiction).
      destruct (Nat.ltb_spec k (S j)), (Nat.ltb_spec k j);
        try reflexivity; lia.
Qed.

(** masking the steps and putting the entries back gives the text again *)
Lemma steps_round_trip :
  FakerMasking.unmask_text (mask_steps steps t)
    (map (fun p => (snd p, fst p)) steps) = t.
Proof.
  destruct (masking_layout (le_n (length steps)))
    as (l & tail & Ef & Eo & Nd & Hin).
  rewrite firstn_all in Ef.
  pose proof (@unmasking_layout l tail Ef Nd Hin (length steps)
                (le_n (length steps))) as U.
  rewrite <- (length_map (fun p : str * str => (snd p, fst p)) steps) in U
    at 1.
  rewrite firstn_all in U. rewrite U, <- Eo.
  apply render_ext. intros k Hk. apply Hin in Hk. unfold half_way.
  destruct (Nat.ltb_spec k (length steps)); [reflexivity | lia].
Qed.
End RoundTrip.

(** ** [mask_text] and [unmask_text] *)

Lemma map_snd_combine {A B : Type} (a : list A) (b : list B) :
  length a = length b -> map snd (combine a b) = b.
Proof.
  revert b. induction a as [|x a IH]; intros [|y b] H; simpl in *;
    try discriminate; [reflexivity|].
  injection H as H. rewrite IH by exact H. reflexivity.
Qed.

Lemma drawn_values_length (F : Faker) (text : str) (g : gen F) :
  length (FakerMasking.drawn_values F text g) = length (matched_values text).
Proof.
  unfold FakerMasking.drawn_values, matched_values.
  pose proof (draws_length F (FakerMasking.fake_phone F)
                (length (findall text FakerMasking.phone_re)) g) as Lp.
  destruct (FakerMasking.draws F (FakerMasking.fake_phone F)
              (length (findall text FakerMasking.phone_re)) g) as [fp g1].
  pose proof (draws_length F (email F)
                (length (findall text FakerMasking.email_re)) g1) as Le.
  destruct (FakerMasking.draws F (email F)
              (length (findall text FakerMasking.email_re)) g1) as [fe g2].
  cbn [fst] in *. rewrite !length_app. lia.
Qed.

Lemma steps_of_fakes (F : Faker) (text : str) (g : gen F) :
  map snd (steps_of F text g) = FakerMasking.drawn_values F text g.
Proof.
  unfold steps_of. apply map_snd_combine. symmetry.
  apply drawn_values_length.
Qed.

Lemma dict_set_new (k v : str) (d : dict) :
  ~ In k (keys d) -> dict_set k v d = d ++ [(k, v)].
Proof.
  induction d as [|[k' v'] d IH]; simpl; [reflexivity|].
  intros H. destruct (str_eqb k k') eqn:E.
  - apply str_eqb_eq in E. subst. tauto.
  - rewrite IH by tauto. reflexivity.
Qed.

(** with values that are pairwise distinct, the map lists the steps *)
Lemma map_steps_fresh (steps : list (str * str)) :
  forall d, NoDup (keys d ++ map snd steps) ->
            map_steps steps d = d ++ map (fun p => (snd p, fst p)) steps.
Proof.
  induction steps as [|[o f] steps IH]; intros d N.
  - simpl. rewrite app_nil_r. reflexivity.
  - cbn [map_steps fold_left map fst snd] in *.
    assert (Hout : ~ In f (keys d)).
    { intros Hin. apply NoDup_remove_2 in N. apply N.
      apply in_or_app. left. exact Hin. }
    rewrite dict_set_new by exact Hout.
    fold (map_steps steps (d ++ [(f, o)])). rewrite IH.
    + rewrite <- app_assoc. reflexivity.
    + unfold keys in *. rewrite map_app. cbn [map fst].
      rewrite <- app_assoc. exact N.
Qed.

(** C2, amended: for every input text, if the synthetic values that
    [mask_text] draws are pairwise distinct, each matched value is replaced
    at a place that overlaps no synthetic value put in before, and each
    synthetic value stands, at the moment [unmask_text] replaces it, exactly
    once in the text if its original value was found and replaced, and
    nowhere otherwise, then unmasking the sanitized text with the returned
    map reproduces the original text exactly. *)
Theorem mask_unmask_fresh_values :
  forall (F : Faker) (text : str) (g : gen F),
    let st := FakerMasking.mask_run F text g in
    let steps := steps_of F text g in
    NoDup (FakerMasking.drawn_values F text g) ->
    (forall k original fake,
        nth_error steps k = Some (original, fake) ->
        forall i o f,
          i < k -> nth_error steps i = Some (o, f) ->
          clear_of f original (masked_after F text g k) = true) ->
    (forall k original fake,
        nth_error steps k = Some (original, fake) ->
        length (occurrences fake (unmasked_after F text g k))
        = if infixb original (masked_after F text g k) then 1 else 0) ->
    FakerMasking.unmask_text (FakerMasking.masked st)
                             (FakerMasking.replacements st) = text.
Proof.
  intros F text g. cbv zeta. intros Nd Hclear Honce.
  destruct (mask_run_steps F text g) as [Em Er].
  assert (Ed : FakerMasking.replacements (FakerMasking.mask_run F text g)
               = map (fun p => (snd p, fst p)) (steps_of F text g)).
  { rewrite Er. apply (map_steps_fresh (steps_of F text g) []).
    cbn [keys map app]. rewrite steps_of_fakes. exact Nd. }
  unfold unmasked_after in Honce. cbv zeta in Honce.
  rewrite Em, Ed in *.
  apply steps_round_trip.
  - exact Hclear.
  - exact Honce.
Qed.

Lemma mask_unmask_fresh_values_witness :
  let st := FakerMasking.mask_run counting_faker two_values 0%Z in
  steps_of counting_faker two_values 0%Z
  = [(lit "1234567890", lit "0123456789");
     (lit "bob@site.com", lit "user10@example.org")]
  /\ FakerMasking.masked st = lit "call 0123456789 or mail user10@example.org"
  /\ FakerMasking.unmask_text (FakerMasking.masked st)
                              (FakerMasking.replacements st) = two_values.
Proof.
  cbv zeta.
  assert (S : steps_of counting_faker two_values 0%Z
              = [(lit "1234567890", lit "0123456789");
                 (lit "bob@site.com", lit "user10@example.org")])
    by (vm_compute; reflexivity).
  split; [exact S|]. split; [vm_compute; reflexivity|].
  apply (@mask_unmask_fresh_values counting_faker two_values 0%Z).
  - vm_compute. constructor.
    + intros [H | []]. discriminate H.
    + constructor; [intros [] | constructor].
  - intros k original fake Hk i o f Hi Hs. rewrite S in Hk, Hs.
    destruct k as [|[|k]]; destruct i as [|[|i]]; try lia;
      cbn [nth_error] in Hk, Hs; try (destruct k; discriminate).
    injection Hk as <- <-. injection Hs as <- <-.
    vm_compute. reflexivity.
  - intros k original fake Hk. rewrite S in Hk.
    destruct k as [|[|k]]; cbn [nth_error] in Hk;
      try (destruct k; discriminate);
      injection Hk as <- <-; vm_compute; reflexivity.
Defined.
